(** * The IADS network of [game/theater/iadsnetwork/iadsnetwork.py]

    A shallow embedding of the network graph (nodes, connections keyed by
    identifier, registry of theater ground objects), of its construction,
    of its incremental update and of its projection to Skynet nodes,
    followed by the properties established about them.

    Conventions of the embedding.
    - Theater ground objects and their groups are Python objects that the
      simulation mutates while the network keeps references to them.  They
      live in a [World]: a store read through references.  The network never
      writes to the store, which is therefore an argument of every operation.
    - A group object is named by the ground object it belongs to and by a key
      of its own ([GroupRef]): [group.ground_object] is the first component
      of the reference, as in the source where every group carries a fixed
      back-reference to the ground object whose [groups] list holds it.
    - Python's [==] on ground objects, groups and nodes is object identity
      (none of these classes defines [__eq__]): equality of references.
    - The [original_name] of a ground object is fixed when the object is
      created: it is read from the reference, not from the world.
    - A [dict] is an association list with unique keys in insertion order.
    - [uuid.uuid4()] is a supply of pairwise distinct identifiers: the
      [n]-th draw yields [n].
    - The calls made on the [GameUpdateEvents] sink are recorded in order. *)

From Stdlib Require Import List String Bool Arith Lia QArith Qabs.
Import ListNotations.

Local Open Scope string_scope.
Local Open Scope nat_scope.
Local Open Scope list_scope.

Set Implicit Arguments.

(** ** Python values *)

Inductive Exception : Type :=
| IadsNetworkException (message : string)
| IndexError
| RuntimeError (message : string)
| AssertionError (message : string).

Inductive Result (A : Type) : Type :=
| Ok (value : A)
| Raise (e : Exception).

Arguments Ok {A} value.
Arguments Raise {A} e.

Definition result_bind {A B} (r : Result A) (k : A -> Result B) : Result B :=
  match r with
  | Ok a => k a
  | Raise e => Raise e
  end.

Notation "'try!' x <- r ; k" := (result_bind r (fun x => k))
  (at level 10, x name, r at level 100, k at level 200).

(** [for b in l: a = f(a, b)] where [f] may raise. *)
Fixpoint foldR {A B} (f : A -> B -> Result A) (a : A) (l : list B)
  : Result A :=
  match l with
  | [] => Ok a
  | b :: rest => try! a' <- f a b; foldR f a' rest
  end.

(** An insertion-ordered [dict] over keys with a boolean equality. *)
Module Dict.
Definition t (K V : Type) : Type := list (K * V).

Section Ops.
Context {K V : Type} (eqb : K -> K -> bool).

Fixpoint get (k : K) (d : t K V) : option V :=
  match d with
  | [] => None
  | (k', v) :: rest => if eqb k k' then Some v else get k rest
  end.

Definition mem (k : K) (d : t K V) : bool :=
  match get k d with Some _ => true | None => false end.

(** [d[k] = v]: an existing key keeps its place, a new key goes last. *)
Fixpoint set (k : K) (v : V) (d : t K V) : t K V :=
  match d with
  | [] => [(k, v)]
  | (k', v') :: rest =>
      if eqb k k' then (k', v) :: rest else (k', v') :: set k v rest
  end.

(** [del d[k]] for a key that is present. *)
Fixpoint del (k : K) (d : t K V) : t K V :=
  match d with
  | [] => []
  | (k', v') :: rest => if eqb k k' then rest else (k', v') :: del k rest
  end.

Definition keys (d : t K V) : list K := map fst d.
Definition values (d : t K V) : list V := map snd d.

(** Truth value of a dict: non-empty. *)
Definition truthy (d : t K V) : bool :=
  match d with [] => false | _ :: _ => true end.
End Ops.
End Dict.

(** ** Roles *)

(** The members of the [IadsRole] enumeration.  The source names [EWR],
    [COMMAND_CENTER], [CONNECTION_NODE], [POWER_SOURCE] and [POINT_DEFENSE];
    the comments of the source name the remaining ones. *)
Inductive IadsRole : Type :=
| SAM
| SAM_AS_EWR
| EWR
| CONNECTION_NODE
| POWER_SOURCE
| COMMAND_CENTER
| POINT_DEFENSE
| NO_BEHAVIOR.

Definition IadsRole_eqb (a b : IadsRole) : bool :=
  match a, b with
  | SAM, SAM | SAM_AS_EWR, SAM_AS_EWR | EWR, EWR
  | CONNECTION_NODE, CONNECTION_NODE | POWER_SOURCE, POWER_SOURCE
  | COMMAND_CENTER, COMMAND_CENTER | POINT_DEFENSE, POINT_DEFENSE
  | NO_BEHAVIOR, NO_BEHAVIOR => true
  | _, _ => false
  end.

(** The role catalogue of [iadsrole.py] is not part of the embedded file:
    the operations are parametric in it.  [value] is the tag of the enum
    member, [meters] of [connection_range] is a rational number. *)
Class RoleCatalog : Type := {
  for_category : string -> IadsRole;
  participate : IadsRole -> bool;
  is_comms_or_power : IadsRole -> bool;
  connection_range_meters : IadsRole -> Q;
  value : IadsRole -> string
}.

(** ** Theater objects *)

Record Point : Type := { x : Q; y : Q }.

Inductive UnitType : Type :=
| GroundUnitType (skynet_properties : list (string * string))
| OtherUnitType.

Record TheaterUnit : Type := {
  unit_name : string;
  alive : bool;
  is_static : bool;
  unit_type : option UnitType
}.

(** A [TheaterGroup]; [is_iads_ground_group] answers
    [isinstance(group, IadsGroundGroup)]. *)
Record TheaterGroup : Type := {
  name : string;
  group_name : string;
  is_iads_ground_group : bool;
  iads_role : IadsRole;
  units : list TheaterUnit
}.

(** Modelled from the spec: [TheaterGroup.alive_units], the number of units
    of the group that are alive. *)
Definition alive_units (g : TheaterGroup) : nat :=
  List.length (filter alive (units g)).

Definition TgoRef := nat.

Record GroupRef : Type := { ground_object : TgoRef; group_key : nat }.

Definition GroupRef_eqb (a b : GroupRef) : bool :=
  Nat.eqb (ground_object a) (ground_object b)
  && Nat.eqb (group_key a) (group_key b).

(** A [TheaterGroundObject]; [groups] lists the keys of its group objects,
    [is_friendly] is the answer of the method of that name, and the three
    class tests are the answers of [isinstance] for the classes
    [IadsGroundObject], [NavalGroundObject] and [IadsBuildingGroundObject]. *)
Record TheaterGroundObject : Type := {
  tgo_name : string;
  category : string;
  position : Point;
  is_friendly : bool -> bool;
  is_dead : bool;
  is_iads_ground_object : bool;
  is_naval_ground_object : bool;
  is_iads_building_ground_object : bool;
  groups : list nat
}.

(** What the theater fixes once and for all: the [original_name] of a
    ground object, which the simulation never reassigns and which is
    therefore read from the reference, and [Point.distance_to_point] of
    the map library. *)
Class Theater : Type := {
  original_name : TgoRef -> string;
  distance_to_point : Point -> Point -> Q
}.

Record World : Type := {
  tgo_at : TgoRef -> TheaterGroundObject;
  group_at : GroupRef -> TheaterGroup
}.

(** [tgo.groups] as references. *)
Definition groups_of (w : World) (tgo : TgoRef) : list GroupRef :=
  map (fun k => {| ground_object := tgo; group_key := k |})
      (groups (tgo_at w tgo)).

(** ** SkynetNode *)

Record SkynetNode : Type := {
  dcs_name : string;
  player : bool;
  sk_iads_role : IadsRole;
  properties : list (string * string);
  sk_connections : Dict.t string (list string)
}.

(** [group.iads_role in [EWR, COMMAND_CENTER, CONNECTION_NODE, POWER_SOURCE]] *)
Definition uses_unit_name (r : IadsRole) : bool :=
  existsb (IadsRole_eqb r) [EWR; COMMAND_CENTER; CONNECTION_NODE; POWER_SOURCE].

(** [group.units[0]] *)
Definition first_unit (g : TheaterGroup) : Result TheaterUnit :=
  match units g with
  | [] => Raise IndexError
  | u :: _ => Ok u
  end.

Definition dcs_name_for_group (g : TheaterGroup) : Result string :=
  if uses_unit_name (iads_role g) then
    match find alive (units g) with
    | Some unit => Ok (unit_name unit)
    | None =>
        try! u0 <- first_unit g;
        if is_static u0 then Ok (unit_name u0)
        else Raise (IadsNetworkException
                      (name g ++ " has no skynet usable units"))
    end
  else Ok (group_name g).

Definition from_group (w : World) (group : GroupRef) : Result SkynetNode :=
  let g := group_at w group in
  try! n <- dcs_name_for_group g;
  let node := {| dcs_name := n;
                 player := is_friendly (tgo_at w (ground_object group)) true;
                 sk_iads_role := iads_role g;
                 properties := [];
                 sk_connections := [] |} in
  try! u0 <- first_unit g;
  match unit_type u0 with
  | Some (GroundUnitType props) =>
      Ok {| dcs_name := dcs_name node;
            player := player node;
            sk_iads_role := sk_iads_role node;
            properties := props;
            sk_connections := sk_connections node |}
  | _ => Ok node
  end.

(** ** Effects: identifier supply and event sink *)

Definition UUID := nat.

(** The two methods of [GameUpdateEvents] the network calls.  A node is
    named by its primary group, which it never changes and which no other
    node of the network shares (see [node_for_group]). *)
Inductive GameUpdateEvent : Type :=
| update_iads_node (node : GroupRef)
| delete_iads_connection (cID : UUID).

(** A computation reads the number of identifiers drawn so far and returns
    its result, the new number of draws and the events it emitted. *)
Definition M (A : Type) : Type := nat -> A * nat * list GameUpdateEvent.

Definition ret {A} (a : A) : M A := fun n => (a, n, []).

Definition bind {A B} (m : M A) (k : A -> M B) : M B :=
  fun n =>
    let '(a, n1, ev1) := m n in
    let '(b, n2, ev2) := k a n1 in
    (b, n2, ev1 ++ ev2).

Notation "x <- c1 ;; c2" := (bind c1 (fun x => c2))
  (at level 61, c1 at next level, right associativity).
Notation "c1 ;; c2" := (bind c1 (fun _ => c2))
  (at level 61, right associativity).

Definition uuid4 : M UUID := fun n => (n, S n, []).

Definition emit (e : GameUpdateEvent) : M unit := fun n => (tt, n, [e]).

(** [for b in l: a = f(a, b)] *)
Fixpoint foldM {A B} (f : A -> B -> M A) (a : A) (l : list B) : M A :=
  match l with
  | [] => ret a
  | b :: rest => a' <- f a b ;; foldM f a' rest
  end.

(** [for a in l: f(a)] where [f] updates [a] in place *)
Fixpoint mapM {A B} (f : A -> M B) (l : list A) : M (list B) :=
  match l with
  | [] => ret []
  | a :: rest => b <- f a ;; bs <- mapM f rest ;; ret (b :: bs)
  end.

Definition result {A} (r : A * nat * list GameUpdateEvent) : A :=
  fst (fst r).
Definition supply {A} (r : A * nat * list GameUpdateEvent) : nat :=
  snd (fst r).
Definition emitted {A} (r : A * nat * list GameUpdateEvent)
  : list GameUpdateEvent := snd r.

(** ** IadsNetworkNode *)

Record IadsNetworkNode : Type := {
  group : GroupRef;
  connections : Dict.t UUID GroupRef
}.

Definition IadsNetworkNode_init (group : GroupRef) : IadsNetworkNode :=
  {| group := group; connections := [] |}.

Definition add_connection_for_group (self : IadsNetworkNode) (g : GroupRef)
  : M IadsNetworkNode :=
  u <- uuid4 ;;
  ret {| group := group self;
         connections := Dict.set Nat.eqb u g (connections self) |}.

Section Network.
Context {catalog : RoleCatalog} {theater : Theater}.

Definition add_connection_for_tgo (w : World) (self : IadsNetworkNode)
  (tgo : TgoRef) : M IadsNetworkNode :=
  foldM (fun self g =>
           if is_iads_ground_group (group_at w g)
              && participate (iads_role (group_at w g))
           then add_connection_for_group self g
           else ret self)
        self (groups_of w tgo).

(** ** IadsNetwork *)

Record IadsNetwork : Type := {
  advanced_iads : bool;
  ground_objects : Dict.t string TgoRef;
  nodes : list IadsNetworkNode;
  iads_config : Dict.t string (list string)
}.

Definition set_ground_objects (self : IadsNetwork) (d : Dict.t string TgoRef)
  : IadsNetwork :=
  {| advanced_iads := advanced_iads self; ground_objects := d;
     nodes := nodes self; iads_config := iads_config self |}.

Definition set_nodes (self : IadsNetwork) (ns : list IadsNetworkNode)
  : IadsNetwork :=
  {| advanced_iads := advanced_iads self;
     ground_objects := ground_objects self;
     nodes := ns; iads_config := iads_config self |}.

Definition set_iads_config (self : IadsNetwork)
  (d : Dict.t string (list string)) : IadsNetwork :=
  {| advanced_iads := advanced_iads self;
     ground_objects := ground_objects self;
     nodes := nodes self; iads_config := d |}.

(** An element of the [iads_data] of a campaign: a string, a dict, or
    anything else. *)
Inductive IadsDataElement : Type :=
| ElementStr (element : string)
| ElementDict (element : Dict.t string (list string))
| ElementOther.

Fixpoint load_iads_config (iads_data : list IadsDataElement)
  (config : Dict.t string (list string))
  : Result (Dict.t string (list string)) :=
  match iads_data with
  | [] => Ok config
  | ElementStr element :: rest =>
      load_iads_config rest (Dict.set String.eqb element [] config)
  | ElementDict element :: rest =>
      load_iads_config rest
        (fold_left (fun c kv => Dict.set String.eqb (fst kv) (snd kv) c)
                   element config)
  | ElementOther :: _ => Raise (RuntimeError "Invalid iads_config in campaign")
  end.

(** [IadsNetwork.__init__] *)
Definition IadsNetwork_init (advanced : bool)
  (iads_data : list IadsDataElement) : Result IadsNetwork :=
  try! config <- load_iads_config iads_data [];
  Ok {| advanced_iads := advanced; ground_objects := [];
        nodes := []; iads_config := config |}.

(** Position of the first element that satisfies [p]. *)
Fixpoint find_index {A} (p : A -> bool) (l : list A) : option nat :=
  match l with
  | [] => None
  | a :: rest => if p a then Some 0 else option_map S (find_index p rest)
  end.

(** A node object is designated by its position in [self.nodes]; [on_node]
    runs a method that mutates the node there. *)
Definition on_node (i : nat) (f : IadsNetworkNode -> M IadsNetworkNode)
  (ns : list IadsNetworkNode) : M (list IadsNetworkNode) :=
  match nth_error ns i with
  | Some cn => cn' <- f cn ;; ret (firstn i ns ++ cn' :: skipn (S i) ns)
  | None => ret ns
  end.

Definition anchored_on (tgo : TgoRef) (cn : IadsNetworkNode) : bool :=
  Nat.eqb (ground_object (group cn)) tgo.

Definition _is_friendly (w : World) (node : IadsNetworkNode) (tgo : TgoRef)
  : bool :=
  let node_friendly := is_friendly (tgo_at w (ground_object (group node))) true in
  let tgo_friendly := is_friendly (tgo_at w tgo) true in
  Bool.eqb node_friendly tgo_friendly.

Definition node_for_group (self : IadsNetwork) (g : GroupRef)
  : IadsNetwork * nat :=
  match find_index (fun cn => GroupRef_eqb (group cn) g) (nodes self) with
  | Some i => (self, i)
  | None =>
      (set_nodes self (nodes self ++ [IadsNetworkNode_init g]),
       List.length (nodes self))
  end.

(** The loop of [node_for_tgo] over [tgo.groups]: [node] is the primary
    node found so far.  With no node yet, the [elif] cannot fire; with a
    node, the first test cannot. *)
Definition node_for_tgo_step (w : World)
  (acc : IadsNetwork * option nat) (g : GroupRef)
  : M (IadsNetwork * option nat) :=
  let '(self, node) := acc in
  let grp := group_at w g in
  if is_iads_ground_group grp && (0 <? alive_units grp) then
    match node with
    | None =>
        if participate (iads_role grp) then
          let '(self', i) := node_for_group self g in ret (self', Some i)
        else ret (self, None)
    | Some i =>
        if IadsRole_eqb (iads_role grp) POINT_DEFENSE then
          ns <- on_node i (fun cn => add_connection_for_group cn g)
                        (nodes self) ;;
          ret (set_nodes self ns, Some i)
        else ret (self, Some i)
    end
  else ret (self, node).

Definition node_for_tgo (w : World) (self : IadsNetwork) (tgo : TgoRef)
  : M (IadsNetwork * option nat) :=
  match find_index (anchored_on tgo) (nodes self) with
  | Some i => ret (self, Some i)
  | None => foldM (node_for_tgo_step w) (self, None) (groups_of w tgo)
  end.

Definition _add_connections_from_config (w : World) (self : IadsNetwork)
  (node : nat) : M IadsNetwork :=
  match nth_error (nodes self) node with
  | None => ret self
  | Some cn =>
      let primary_node :=
        original_name (ground_object (group cn)) in
      (* [iads_config] is a [defaultdict(list)]: reading a missing key
         stores an empty list under it *)
      let '(config, connections) :=
        match Dict.get String.eqb primary_node (iads_config self) with
        | Some l => (iads_config self, l)
        | None => (Dict.set String.eqb primary_node [] (iads_config self), [])
        end in
      ns <- on_node node
              (fun cn =>
                 foldM (fun cn secondary_node =>
                          match Dict.get String.eqb secondary_node
                                         (ground_objects self) with
                          | Some tgo => add_connection_for_tgo w cn tgo
                          | None => (* KeyError: logged *) ret cn
                          end)
                       cn connections)
              (nodes self) ;;
      ret (set_iads_config (set_nodes self ns) config)
  end.

Definition Qlt_bool (a b : Q) : bool := negb (Qle_bool b a).

Definition _make_advanced_connections_by_range (w : World)
  (self : IadsNetwork) (node : nat) : M IadsNetwork :=
  ns <- on_node node
          (fun cn =>
             let tgo := ground_object (group cn) in
             foldM (fun cn nearby_go =>
                      let iads_role :=
                        for_category (category (tgo_at w nearby_go)) in
                      if negb (is_comms_or_power iads_role)
                         || Nat.eqb nearby_go tgo
                      then ret cn
                      else
                        let dist :=
                          distance_to_point (position (tgo_at w nearby_go))
                                            (position (tgo_at w tgo)) in
                        let in_range :=
                          Qle_bool dist (connection_range_meters iads_role) in
                        if in_range && _is_friendly w cn nearby_go
                        then add_connection_for_tgo w cn nearby_go
                        else ret cn)
                   cn (Dict.values (ground_objects self)))
          (nodes self) ;;
  ret (set_nodes self ns).

Definition _update_network (w : World) (self : IadsNetwork) (tgo : TgoRef)
  : M IadsNetwork :=
  if is_dead (tgo_at w tgo) then ret self
  else
    let iads_role := for_category (category (tgo_at w tgo)) in
    if negb (is_comms_or_power iads_role) then ret self
    else
      ns <- mapM (fun node =>
                    let dist :=
                      distance_to_point
                        (position (tgo_at w (ground_object (group node))))
                        (position (tgo_at w tgo)) in
                    let in_range :=
                      Qlt_bool dist (connection_range_meters iads_role) in
                    if in_range && _is_friendly w node tgo then
                      node' <- add_connection_for_tgo w node tgo ;;
                      emit (update_iads_node (group node')) ;;
                      ret node'
                    else ret node)
                 (nodes self) ;;
      ret (set_nodes self ns).

(** The scan of one node by [_update_iads_comms_and_power]: the first loop
    collects [to_delete] and notifies, the second deletes. *)
Definition scan_connections (w : World) (tgo : TgoRef)
  (node : IadsNetworkNode) : M IadsNetworkNode :=
  to_delete <-
    foldM (fun to_delete entry =>
             let '(cID, g) := entry in
             if Nat.eqb (ground_object g) tgo then
               if _is_friendly w node tgo then
                 emit (update_iads_node (group node)) ;;
                 ret to_delete
               else
                 emit (delete_iads_connection cID) ;;
                 ret (to_delete ++ [cID])
             else ret to_delete)
          [] (connections node) ;;
  ret {| group := group node;
         connections :=
           fold_left (fun d cID => Dict.del Nat.eqb cID d)
                     to_delete (connections node) |}.

Definition _update_iads_comms_and_power (w : World) (self : IadsNetwork)
  (tgo : TgoRef) : M (Result IadsNetwork) :=
  if negb (advanced_iads self) then
    ret (Raise (AssertionError
                  "_update_iads_comms_and_power requires advanced IADS"))
  else
    let is_comm_or_power :=
      is_comms_or_power (for_category (category (tgo_at w tgo))) in
    if negb is_comm_or_power then
      ret (Raise (AssertionError
                    "Invalid TGO was given for _update_iads_building"))
    else
      ns <- mapM (scan_connections w tgo) (nodes self) ;;
      let self := set_nodes self ns in
      if negb (Dict.truthy (iads_config self)) then
        self' <- _update_network w self tgo ;; ret (Ok self')
      else ret (Ok self).

(** The loop of [update_tgo] that removes the nodes of [tgo] from
    [self.nodes] while it iterates over that list.  The list iterator holds
    a position: once [remove] has shifted the tail of the list to the left,
    the element that followed [cn] sits at the position already visited and
    the loop goes on with the one after it. *)
Fixpoint remove_existing_nodes (tgo : TgoRef) (todo : list IadsNetworkNode)
  : M (list IadsNetworkNode) :=
  match todo with
  | [] => ret []
  | cn :: rest =>
      if anchored_on tgo cn then
        foldM (fun _ cID => emit (delete_iads_connection cID))
              tt (Dict.keys (connections cn)) ;;
        match rest with
        | [] => ret []
        | unvisited :: rest' =>
            kept <- remove_existing_nodes tgo rest' ;;
            ret (unvisited :: kept)
        end
      else
        kept <- remove_existing_nodes tgo rest ;;
        ret (cn :: kept)
  end.

Definition update_tgo (w : World) (self : IadsNetwork) (tgo : TgoRef)
  : M (Result IadsNetwork) :=
  if advanced_iads self
     && is_comms_or_power (for_category (category (tgo_at w tgo)))
  then _update_iads_comms_and_power w self tgo
  else
    ns <- remove_existing_nodes tgo (nodes self) ;;
    let self := set_nodes self ns in
    found <- node_for_tgo w self tgo ;;
    let '(self, node) := found in
    match node with
    | None => (* Not participating *) ret (Ok self)
    | Some node =>
        match nth_error (nodes self) node with
        | Some cn => emit (update_iads_node (group cn))
        | None => ret tt
        end ;;
        if advanced_iads self then
          if Dict.truthy (iads_config self) then
            self' <- _add_connections_from_config w self node ;;
            ret (Ok self')
          else
            self' <- _make_advanced_connections_by_range w self node ;;
            ret (Ok self')
        else ret (Ok self)
    end.

Definition initialize_basic_iads (w : World) (self : IadsNetwork)
  : M IadsNetwork :=
  foldM (fun self go =>
           if is_iads_ground_object (tgo_at w go) then
             found <- node_for_tgo w self go ;; ret (fst found)
           else ret self)
        self (Dict.values (ground_objects self)).

(** The keys of [iads_config] are iterated while the body reads the
    [defaultdict]; the body only reads keys that are present (lemma
    [initialize_network_from_config_keeps_config]). *)
Definition initialize_network_from_config (w : World) (self : IadsNetwork)
  : M IadsNetwork :=
  foldM (fun self primary_node =>
           found <-
             match Dict.get String.eqb primary_node (ground_objects self) with
             | Some tgo => node_for_tgo w self tgo
             | None => ret (self, None)
             end ;;
           let '(self, node) := found in
           match node with
           | None => (* warning logged *) ret self
           | Some node => _add_connections_from_config w self node
           end)
        self (Dict.keys (iads_config self)).

Definition initialize_network_from_range (w : World) (self : IadsNetwork)
  : M IadsNetwork :=
  foldM (fun self go =>
           let is_iads_go := is_iads_ground_object (tgo_at w go) in
           let is_iads_sea := is_naval_ground_object (tgo_at w go) in
           let is_iads_cc := is_iads_building_ground_object (tgo_at w go) in
           let is_iads_cc :=
             is_iads_cc
             && IadsRole_eqb (for_category (category (tgo_at w go)))
                             COMMAND_CENTER in
           if is_iads_go || is_iads_sea || is_iads_cc then
             found <- node_for_tgo w self go ;;
             let '(self, node) := found in
             match node with
             | None => ret self
             | Some node => _make_advanced_connections_by_range w self node
             end
           else ret self)
        self (Dict.values (ground_objects self)).

(** First loop of [initialize_network]:
    [self.ground_objects[tgo.original_name] = tgo]. *)
Definition register_ground_objects (self : IadsNetwork)
  (tgos : list TgoRef) : IadsNetwork :=
  fold_left (fun self tgo =>
               set_ground_objects self
                 (Dict.set String.eqb (original_name tgo) tgo
                           (ground_objects self)))
            tgos self.

(** The block [if self.advanced_iads: ...] of [initialize_network]. *)
Definition initialize_advanced (w : World) (self : IadsNetwork)
  : M IadsNetwork :=
  if advanced_iads self then
    if Dict.truthy (iads_config self)
    then initialize_network_from_config w self
    else initialize_network_from_range w self
  else ret self.

Definition initialize_network (w : World) (self : IadsNetwork)
  (tgos : list TgoRef) : M IadsNetwork :=
  let self := register_ground_objects self tgos in
  self <- initialize_advanced w self ;;
  match nodes self with
  | [] => initialize_basic_iads w self
  | _ :: _ => ret self
  end.

(** [d[key].append(x)] on a [defaultdict(list)] *)
Definition defaultdict_append (key : string) (x : string)
  (d : Dict.t string (list string)) : Dict.t string (list string) :=
  match Dict.get String.eqb key d with
  | Some l => Dict.set String.eqb key (l ++ [x]) d
  | None => Dict.set String.eqb key [x] d
  end.

Definition add_skynet_connection (sk : SkynetNode) (key x : string)
  : SkynetNode :=
  {| dcs_name := dcs_name sk; player := player sk;
     sk_iads_role := sk_iads_role sk; properties := properties sk;
     sk_connections := defaultdict_append key x (sk_connections sk) |}.

(** The body of the loop of [skynet_nodes] over [node.connections.values()];
    [culling] is [game.iads_considerate_culling]. *)
Definition skynet_connection (w : World) (culling : TgoRef -> bool)
  (skynet_node : SkynetNode) (connection : GroupRef) : Result SkynetNode :=
  if negb (existsb alive (units (group_at w connection))) then Ok skynet_node
  else if is_friendly (tgo_at w (ground_object connection))
                      (player skynet_node)
          && negb (culling (ground_object connection))
  then
    try! n <- dcs_name_for_group (group_at w connection);
    Ok (add_skynet_connection skynet_node
          (value (iads_role (group_at w connection))) n)
  else Ok skynet_node.

(** The body of the loop of [skynet_nodes] over [self.nodes]. *)
Definition skynet_nodes_step (w : World) (culling : TgoRef -> bool)
  (skynet_nodes : list SkynetNode) (node : IadsNetworkNode)
  : Result (list SkynetNode) :=
  if culling (ground_object (group node)) then Ok skynet_nodes
  else
    let all_dead :=
      negb (existsb alive (units (group_at w (group node)))) in
    if all_dead then Ok skynet_nodes
    else
      try! skynet_node <- from_group w (group node);
      try! skynet_node <-
        foldR (skynet_connection w culling) skynet_node
              (Dict.values (connections node));
      Ok (skynet_nodes ++ [skynet_node]).

Definition skynet_nodes (w : World) (culling : TgoRef -> bool)
  (self : IadsNetwork) : Result (list SkynetNode) :=
  foldR (skynet_nodes_step w culling) [] (nodes self).

(** ** Histories *)

(** The calls the simulation makes on a network, each in the world of its
    time. *)
Inductive Operation : Type :=
| Initialize (w : World) (tgos : list TgoRef)
| Update (w : World) (tgo : TgoRef).

(** One call, from a network and a number of draws.  [update_tgo] guards
    the call whose assertions could fail and never raises (lemma
    [update_tgo_returns]); the branch for an exception is there for the
    type. *)
Definition perform (op : Operation) (st : IadsNetwork * nat)
  : IadsNetwork * nat :=
  match op with
  | Initialize w tgos =>
      let r := initialize_network w (fst st) tgos (snd st) in
      (result r, supply r)
  | Update w tgo =>
      let r := update_tgo w (fst st) tgo (snd st) in
      match result r with
      | Ok self => (self, supply r)
      | Raise _ => st
      end
  end.

Definition perform_all (ops : list Operation) (st : IadsNetwork * nat)
  : IadsNetwork * nat :=
  fold_left (fun st op => perform op st) ops st.

End Network.

(** * A scenario *)

(** A catalogue, a theater and a few worlds on which the properties are
    exercised.  The catalogue lets every role but [NO_BEHAVIOR] and
    [POINT_DEFENSE] participate, takes comms and power as infrastructure
    and gives a power source a range of 20; distances are taken along the
    first axis, on which all objects of the scenario lie. *)
Module Scenario.

Definition catalog : RoleCatalog := {|
  for_category c :=
    if String.eqb c "comms" then CONNECTION_NODE
    else if String.eqb c "power" then POWER_SOURCE
    else if String.eqb c "commandcenter" then COMMAND_CENTER
    else NO_BEHAVIOR;
  participate r :=
    match r with NO_BEHAVIOR | POINT_DEFENSE => false | _ => true end;
  is_comms_or_power r :=
    match r with CONNECTION_NODE | POWER_SOURCE => true | _ => false end;
  connection_range_meters r :=
    match r with CONNECTION_NODE => 15 | POWER_SOURCE => 20 | _ => 0 end%Q;
  value r :=
    match r with
    | SAM => "Sam" | SAM_AS_EWR => "SamAsEwr" | EWR => "Ewr"
    | CONNECTION_NODE => "ConnectionNode" | POWER_SOURCE => "PowerSource"
    | COMMAND_CENTER => "CommandCenter" | POINT_DEFENSE => "PointDefense"
    | NO_BEHAVIOR => "NoBehavior"
    end
|}.

Definition theater : Theater := {|
  original_name t := nth t ["A"; "B"; "C"] "";
  distance_to_point p q := Qabs (x p - x q)
|}.

Definition a_unit (n : string) (a : bool) : TheaterUnit :=
  {| unit_name := n; alive := a; is_static := false; unit_type := None |}.

Definition a_group (n : string) (r : IadsRole) (us : list TheaterUnit)
  : TheaterGroup :=
  {| name := n; group_name := n; is_iads_ground_group := true;
     iads_role := r; units := us |}.

(** A ground object at abscissa [px], held by the player when [blue], an
    IADS ground object when [iads], an IADS building when [building]; its
    group objects carry the keys [0], [1], ... *)
Definition a_tgo (n c : string) (px : Q) (blue dead : bool)
  (iads building : bool) (ngroups : nat) : TheaterGroundObject :=
  {| tgo_name := n; category := c;
     position := {| x := px; y := 0 |};
     is_friendly := Bool.eqb blue; is_dead := dead;
     is_iads_ground_object := iads; is_naval_ground_object := false;
     is_iads_building_ground_object := building;
     groups := seq 0 ngroups |}.

Definition no_tgo : TheaterGroundObject :=
  a_tgo "" "" 0 false true false false 0.

Definition no_group : TheaterGroup :=
  {| name := ""; group_name := ""; is_iads_ground_group := false;
     iads_role := NO_BEHAVIOR; units := [] |}.

Definition world_of (objects : list (TheaterGroundObject * list TheaterGroup))
  : World :=
  {| tgo_at t := fst (nth t objects (no_tgo, []));
     group_at g :=
       nth (group_key g) (snd (nth (ground_object g) objects (no_tgo, [])))
           no_group |}.

Definition ref (tgo key : nat) : GroupRef :=
  {| ground_object := tgo; group_key := key |}.

(** The radar site [A] with one early-warning radar group. *)
Definition site_A : TheaterGroundObject * list TheaterGroup :=
  (a_tgo "A" "aa" 0 true false true false 1,
   [a_group "A-ewr" EWR [a_unit "A-ewr-0" true]]).

(** The power station [B] at abscissa [px]. *)
Definition station_B (px : Q) (blue dead alive_unit : bool)
  : TheaterGroundObject * list TheaterGroup :=
  (a_tgo "B" "power" px blue dead false true 1,
   [a_group "B-power" POWER_SOURCE [a_unit "B-power-0" alive_unit]]).

(** The missile site [C]: a SAM group followed by a point defense. *)
Definition site_C (pd_alive : bool)
  : TheaterGroundObject * list TheaterGroup :=
  (a_tgo "C" "aa" 50 true false true false 2,
   [a_group "C-sam" SAM [a_unit "C-sam-0" true];
    a_group "C-pd" POINT_DEFENSE [a_unit "C-pd-0" pd_alive]]).

(** [A] and [B] friendly and 10 apart; then [B] destroyed; then [B]
    captured; and [B] exactly at its range from [A]. *)
Definition peace : World :=
  world_of [site_A; station_B 10 true false true; site_C true].
Definition destroyed : World :=
  world_of [site_A; station_B 10 true true false; site_C true].
Definition captured : World :=
  world_of [site_A; station_B 10 false false true; site_C true].
Definition boundary : World :=
  world_of [site_A; station_B 20 true false true; site_C true].
Definition dead_point_defense : World :=
  world_of [site_A; station_B 10 true false true; site_C false].

Definition network (advanced : bool) (config : Dict.t string (list string))
  : IadsNetwork :=
  {| advanced_iads := advanced; ground_objects := []; nodes := [];
     iads_config := config |}.

(** The three objects registered, a node for [A] alone, no connection. *)
Definition radar_only : IadsNetwork :=
  {| advanced_iads := true;
     ground_objects := [("A", 0); ("B", 1); ("C", 2)];
     nodes := [{| group := ref 0 0; connections := [] |}];
     iads_config := [] |}.

End Scenario.

(** * Vocabulary of the properties *)

Definition empty_ewr_group : TheaterGroup :=
  {| name := "EWR"; group_name := "EWR"; is_iads_ground_group := true;
     iads_role := EWR; units := [] |}.

Section Vocabulary.
Context {catalog : RoleCatalog} {theater : Theater}.

(** A node is projected when its ground object is not culled and its
    primary group has an alive unit. *)
Definition node_projected (w : World) (culling : TgoRef -> bool)
  (cn : IadsNetworkNode) : bool :=
  negb (culling (ground_object (group cn)))
  && existsb alive (units (group_at w (group cn))).

(** A connection of a node of side [side] is projected when its group has
    an alive unit and its ground object is friendly to [side] and not
    culled. *)
Definition connection_projected (w : World) (culling : TgoRef -> bool)
  (side : bool) (g : GroupRef) : bool :=
  existsb alive (units (group_at w g))
  && is_friendly (tgo_at w (ground_object g)) side
  && negb (culling (ground_object g)).

(** The names a Skynet node lists under a role tag. *)
Definition connections_under (tag : string) (sk : SkynetNode) : list string :=
  match Dict.get String.eqb tag (sk_connections sk) with
  | Some l => l
  | None => []
  end.

(** The name under which Skynet knows a group with a living unit: the name
    of its first living unit for an early-warning radar, a command center,
    a connection node or a power source, the name of the group for the
    other roles. *)
Definition skynet_name (g : TheaterGroup) : option string :=
  match iads_role g with
  | EWR | COMMAND_CENTER | CONNECTION_NODE | POWER_SOURCE =>
      option_map unit_name (find alive (units g))
  | SAM | SAM_AS_EWR | POINT_DEFENSE | NO_BEHAVIOR => Some (group_name g)
  end.

(** The Skynet properties of the first unit of a group: those of its type
    when it is a ground unit type, none otherwise. *)
Definition first_unit_properties (g : TheaterGroup)
  : list (string * string) :=
  match units g with
  | u0 :: _ =>
      match unit_type u0 with
      | Some (GroundUnitType props) => props
      | _ => []
      end
  | [] => []
  end.

(** The side of a node: whether its ground object is friendly to the
    player. *)
Definition node_side (w : World) (cn : IadsNetworkNode) : bool :=
  is_friendly (tgo_at w (ground_object (group cn))) true.

(** [sk] is the projection of [cn]: it carries the Skynet name, the role
    and the first unit's properties of the primary group, its [player]
    flag is the side of the node, and under every role tag it lists the
    Skynet names of the connections of that role that are projected for
    the side of the node, in the order of the connections. *)
Definition projects (w : World) (culling : TgoRef -> bool)
  (cn : IadsNetworkNode) (sk : SkynetNode) : Prop :=
  skynet_name (group_at w (group cn)) = Some (dcs_name sk)
  /\ player sk = node_side w cn
  /\ sk_iads_role sk = iads_role (group_at w (group cn))
  /\ properties sk = first_unit_properties (group_at w (group cn))
  /\ forall tag,
      Forall2 (fun g nm => skynet_name (group_at w g) = Some nm)
        (filter (fun g =>
                   connection_projected w culling (node_side w cn) g
                   && String.eqb (value (iads_role (group_at w g))) tag)
                (Dict.values (connections cn)))
        (connections_under tag sk).

(** The identifiers of the connections of a node are older than the
    [n]-th draw. *)
Definition node_fresh (n : nat) (cn : IadsNetworkNode) : Prop :=
  Forall (fun cID => cID < n) (Dict.keys (connections cn)).

(** [cn] with one more connection per group of [gs], under the identifiers
    drawn from the [n]-th on. *)
Definition attach (cn : IadsNetworkNode) (n : nat) (gs : list GroupRef)
  : IadsNetworkNode :=
  {| group := group cn;
     connections := connections cn ++ combine (seq n (List.length gs)) gs |}.

(** A group the loop of [node_for_tgo] looks at: an IADS group with an
    alive unit. *)
Definition usable_group (w : World) (g : GroupRef) : bool :=
  is_iads_ground_group (group_at w g) && (0 <? alive_units (group_at w g)).

Definition primary_candidate (w : World) (g : GroupRef) : bool :=
  usable_group w g && participate (iads_role (group_at w g)).

Definition living_point_defense (w : World) (g : GroupRef) : bool :=
  usable_group w g && IadsRole_eqb (iads_role (group_at w g)) POINT_DEFENSE.

(** The first primary candidate of a list of groups, with the groups that
    follow it. *)
Fixpoint scan_primary (w : World) (gs : list GroupRef)
  : option (GroupRef * list GroupRef) :=
  match gs with
  | [] => None
  | g :: rest =>
      if primary_candidate w g then Some (g, rest) else scan_primary w rest
  end.

(** The groups of a ground object that [add_connection_for_tgo] connects. *)
Definition participating_groups (w : World) (tgo : TgoRef) : list GroupRef :=
  filter (fun g => is_iads_ground_group (group_at w g)
                   && participate (iads_role (group_at w g)))
         (groups_of w tgo).

(** The ground objects of the nodes of a list, in order. *)
Definition anchors (ns : list IadsNetworkNode) : list TgoRef :=
  map (fun cn => ground_object (group cn)) ns.

(** The number of nodes of a network whose primary group belongs to a
    ground object. *)
Definition nodes_on (self : IadsNetwork) (tgo : TgoRef) : nat :=
  List.length (filter (anchored_on tgo) (nodes self)).

(** A method of a node that leaves its primary group alone. *)
Definition keeps_group (f : IadsNetworkNode -> M IadsNetworkNode) : Prop :=
  forall cn n, group (result (f cn n)) = group cn.

(** [self'] has the mode and the registry of [self], and the nodes of
    [self] up to their connections, possibly followed by new nodes. *)
Definition extends (self self' : IadsNetwork) : Prop :=
  advanced_iads self' = advanced_iads self
  /\ ground_objects self' = ground_objects self
  /\ exists extra,
      map group (nodes self') = map group (nodes self) ++ extra
      /\ (NoDup (anchors (nodes self)) -> NoDup (anchors (nodes self'))).

(** The ground objects the range pass of [initialize_network] looks at. *)
Definition selected_by_range (w : World) (t : TgoRef) : bool :=
  is_iads_ground_object (tgo_at w t)
  || is_naval_ground_object (tgo_at w t)
  || (is_iads_building_ground_object (tgo_at w t)
      && IadsRole_eqb (for_category (category (tgo_at w t))) COMMAND_CENTER).

(** The ground objects for which the construction in force asks for a node:
    the primary keys of the configuration, the objects of the range pass,
    or the IADS ground objects of the basic mode. *)
Definition selected (w : World) (self : IadsNetwork) (t : TgoRef) : bool :=
  if advanced_iads self then
    if Dict.truthy (iads_config self)
    then Dict.mem String.eqb (original_name t) (iads_config self)
    else selected_by_range w t
  else is_iads_ground_object (tgo_at w t).

(** The registry holds [t] under its name. *)
Definition registered (self : IadsNetwork) (t : TgoRef) : Prop :=
  Dict.get String.eqb (original_name t) (ground_objects self) = Some t.

(** A node as the basic mode builds it: its primary group is the first
    primary candidate of its ground object, an IADS ground object, and
    its connections are the living point defenses that follow. *)
Definition basic_node (w : World) (cn : IadsNetworkNode) : Prop :=
  is_iads_ground_object (tgo_at w (ground_object (group cn))) = true
  /\ exists later,
      scan_primary w (groups_of w (ground_object (group cn)))
      = Some (group cn, later)
      /\ Dict.values (connections cn)
         = filter (living_point_defense w) later.

(** A computation that emits no event. *)
Definition silent {A} (m : M A) : Prop := forall n, emitted (m n) = [].

(** The notifications for the connections of the nodes of [tgo] in [ns]. *)
Definition deletions_for (tgo : TgoRef) (ns : list IadsNetworkNode)
  : list GameUpdateEvent :=
  flat_map (fun cn =>
              if anchored_on tgo cn
              then map delete_iads_connection (Dict.keys (connections cn))
              else [])
           ns.

Definition not_anchored_on (tgo : TgoRef) (cn : IadsNetworkNode) : bool :=
  negb (anchored_on tgo cn).

(** The side test of [_is_friendly], for the primary group of a node. *)
Definition same_side (w : World) (g : GroupRef) (tgo : TgoRef) : bool :=
  Bool.eqb (is_friendly (tgo_at w (ground_object g)) true)
           (is_friendly (tgo_at w tgo) true).

(** [go] can support the node of primary group [g]: an infrastructure
    object other than the ground object of the node, on the side of the
    node. *)
Definition candidate (w : World) (g : GroupRef) (go : TgoRef) : bool :=
  is_comms_or_power (for_category (category (tgo_at w go)))
  && negb (Nat.eqb go (ground_object g))
  && same_side w g go.

Definition range_of (w : World) (go : TgoRef) : Q :=
  connection_range_meters (for_category (category (tgo_at w go))).

(** The distance the initial resolution computes, from the candidate to
    the node, and the distance the reactive path computes, from the node to
    the updated object. *)
Definition initial_distance (w : World) (g : GroupRef) (go : TgoRef) : Q :=
  distance_to_point (position (tgo_at w go))
                    (position (tgo_at w (ground_object g))).

Definition reactive_distance (w : World) (g : GroupRef) (tgo : TgoRef) : Q :=
  distance_to_point (position (tgo_at w (ground_object g)))
                    (position (tgo_at w tgo)).

(** The groups of [go] the initial resolution connects to the node of
    primary group [g]. *)
Definition range_links (w : World) (g : GroupRef) (go : TgoRef)
  : list GroupRef :=
  if candidate w g go
     && Qle_bool (initial_distance w g go) (range_of w go)
  then participating_groups w go else [].

(** The groups of the updated object [tgo] the reactive path connects to
    the node of primary group [g]. *)
Definition reactive_links (w : World) (tgo : TgoRef) (g : GroupRef)
  : list GroupRef :=
  if Qlt_bool (reactive_distance w g tgo) (range_of w tgo)
     && same_side w g tgo
  then participating_groups w tgo else [].

(** [cn'] is [cn] with new connections to the groups [gs]. *)
Definition gains (gs : list GroupRef) (cn cn' : IadsNetworkNode) : Prop :=
  exists k, cn' = attach cn k gs.

(** The connection [entry] leads to a group of [tgo]. *)
Definition to_tgo (tgo : TgoRef) (entry : UUID * GroupRef) : bool :=
  Nat.eqb (ground_object (snd entry)) tgo.

Definition not_to_tgo (tgo : TgoRef) (entry : UUID * GroupRef) : bool :=
  negb (to_tgo tgo entry).

(** A node after the scan of [_update_iads_comms_and_power] for [tgo]: as
    it was when [tgo] is on its side, without its connections to [tgo]
    otherwise. *)
Definition scanned (w : World) (tgo : TgoRef) (cn : IadsNetworkNode)
  : IadsNetworkNode :=
  if same_side w (group cn) tgo then cn
  else {| group := group cn;
          connections := filter (not_to_tgo tgo) (connections cn) |}.

(** The notifications of that scan: one per connection to [tgo]. *)
Definition scan_events (w : World) (tgo : TgoRef) (cn : IadsNetworkNode)
  : list GameUpdateEvent :=
  map (fun entry =>
         if same_side w (group cn) tgo then update_iads_node (group cn)
         else delete_iads_connection (fst entry))
      (filter (to_tgo tgo) (connections cn)).

(** The connection identifiers of a list of nodes. *)
Definition all_ids (ns : list IadsNetworkNode) : list UUID :=
  flat_map (fun cn => Dict.keys (connections cn)) ns.

(** The identifiers carried by the deletion notifications of a list of
    events. *)
Definition deleted_ids (ev : list GameUpdateEvent) : list UUID :=
  flat_map (fun e =>
              match e with
              | delete_iads_connection cID => [cID]
              | update_iads_node _ => []
              end)
           ev.

(** What [IadsNetwork.__init__] leaves: no ground object, no node. *)
Definition fresh_network (self : IadsNetwork) : Prop :=
  ground_objects self = [] /\ nodes self = [].

(** The registry holds every ground object under its own name. *)
Definition registry_consistent (self : IadsNetwork) : Prop :=
  forall k t,
    Dict.get String.eqb k (ground_objects self) = Some t ->
    original_name t = k.

(** Between two points of a run, at [n] and then [n'] draws, the
    identifiers [ids'] in use are identifiers of [ids] or identifiers drawn
    in between, each as often as there at most. *)
Definition ids_step (n : nat) (ids : list UUID) (n' : nat)
  (ids' : list UUID) : Prop :=
  n <= n'
  /\ forall k,
      count_occ Nat.eq_dec ids' k
      <= count_occ Nat.eq_dec ids k + count_occ Nat.eq_dec (seq n (n' - n)) k.

(** The connection identifiers of a network are pairwise distinct and older
    than the [n]-th draw. *)
Definition ids_wf (n : nat) (ns : list IadsNetworkNode) : Prop :=
  Forall (node_fresh n) ns /\ NoDup (all_ids ns).

(** A method of a node under which its identifiers make an [ids_step]. *)
Definition node_steps (f : IadsNetworkNode -> M IadsNetworkNode) : Prop :=
  forall cn n,
    ids_step n (Dict.keys (connections cn))
             (supply (f cn n))
             (Dict.keys (connections (result (f cn n)))).

(** The same for two networks. *)
Definition net_step (n : nat) (self : IadsNetwork) (n' : nat)
  (self' : IadsNetwork) : Prop :=
  ids_step n (all_ids (nodes self)) n' (all_ids (nodes self')).

(** An element of the campaign data that [IadsNetwork.__init__] accepts. *)
Definition valid_element (element : IadsDataElement) : bool :=
  match element with
  | ElementOther => false
  | _ => true
  end.

(** The entries an element of the campaign data stores, in order. *)
Definition entries_of (element : IadsDataElement)
  : list (string * list string) :=
  match element with
  | ElementStr primary => [(primary, [])]
  | ElementDict d => d
  | ElementOther => []
  end.

(** The keys of a list of entries, each at its first occurrence. *)
Definition first_occurrences (l : list string) : list string :=
  rev (nodup string_dec (rev l)).

(** The last ground object of [tgos] that carries the name [k]. *)
Definition last_named (k : string) (tgos : list TgoRef) : option TgoRef :=
  find (fun t => String.eqb (original_name t) k) (rev tgos).

(** The names the configuration lists for [primary]: none when [primary]
    is not a key. *)
Definition configured (self : IadsNetwork) (primary : string) : list string :=
  match Dict.get String.eqb primary (iads_config self) with
  | Some l => l
  | None => []
  end.

(** The groups the configuration connects to the node of primary group
    [g]: the participating groups of the objects the registry holds under
    the configured names, in the order of the configuration. *)
Definition config_links (w : World) (self : IadsNetwork) (g : GroupRef)
  : list GroupRef :=
  flat_map (fun secondary =>
              match Dict.get String.eqb secondary (ground_objects self) with
              | Some tgo => participating_groups w tgo
              | None => []
              end)
           (configured self (original_name (ground_object g))).

(** The node at position [i] replaced by [cn]. *)
Definition replace_node (i : nat) (cn : IadsNetworkNode)
  (ns : list IadsNetworkNode) : list IadsNetworkNode :=
  firstn i ns ++ cn :: skipn (S i) ns.

(** The connections of a node that lead to a group of [tgo]. *)
Definition links_to (tgo : TgoRef) (cn : IadsNetworkNode)
  : list (UUID * GroupRef) :=
  filter (to_tgo tgo) (connections cn).

(** [g] is the first group of its ground object that can be a primary
    group. *)
Definition first_candidate (w : World) (g : GroupRef) : Prop :=
  exists later,
    scan_primary w (groups_of w (ground_object g)) = Some (g, later).

(** The groups [update_tgo] connects to the node of primary group [g] when
    it resolves the connections of that node: those of the configuration
    when there is one, those in range otherwise, none in basic mode. *)
Definition resolved_links (w : World) (self : IadsNetwork) (g : GroupRef)
  : list GroupRef :=
  if advanced_iads self then
    if Dict.truthy (iads_config self) then config_links w self g
    else flat_map (range_links w g) (Dict.values (ground_objects self))
  else [].

(** The configuration once [update_tgo] has resolved the connections of
    the node of the ground object named [primary]: read at a key it did
    not have, the [defaultdict] holds an empty list under it. *)
Definition config_read (self : IadsNetwork) (primary : string)
  : Dict.t string (list string) :=
  if advanced_iads self && Dict.truthy (iads_config self) then
    match Dict.get String.eqb primary (iads_config self) with
    | Some _ => iads_config self
    | None => iads_config self ++ [(primary, [])]
    end
  else iads_config self.

(** The groups a node is connected to, in the order of its connections. *)
Definition connected_groups (cn : IadsNetworkNode) : list GroupRef :=
  Dict.values (connections cn).

(** The node [cn] as a construction builds it: its primary group is the
    first group of its ground object that can be one, and it is connected
    to the living point defenses that follow, then to the groups [links]
    gives for its primary group, in this order. *)
Definition built_with (w : World) (links : GroupRef -> list GroupRef)
  (cn : IadsNetworkNode) : Prop :=
  exists later,
    scan_primary w (groups_of w (ground_object (group cn)))
    = Some (group cn, later)
    /\ connected_groups cn
       = filter (living_point_defense w) later ++ links (group cn).

(** [c] with the entry [kv] stored. *)
Definition store_entry (c : Dict.t string (list string))
  (kv : string * list string) : Dict.t string (list string) :=
  Dict.set String.eqb (fst kv) (snd kv) c.

(** From [a] to [b] the registry [reg0] is kept, and the primary groups of
    [b] are those of [a] or satisfy [P]. *)
Definition grows_by (P : GroupRef -> Prop) (reg0 : Dict.t string TgoRef)
  (a b : IadsNetwork) : Prop :=
  ground_objects a = reg0 ->
  ground_objects b = reg0
  /\ forall g,
      In g (map group (nodes b)) -> In g (map group (nodes a)) \/ P g.

End Vocabulary.

(** * Properties *)

(** ** Dictionaries *)

Module DictFacts.
Section Facts.
Context {K V : Type} (eqb : K -> K -> bool).
Hypothesis eqb_eq : forall a b, eqb a b = true <-> a = b.

Lemma eqb_refl k : eqb k k = true.
Proof. now apply eqb_eq. Qed.

Lemma eqb_neq a b : a <> b -> eqb a b = false.
Proof.
  intros Hab. destruct (eqb a b) eqn:E; [|reflexivity].
  apply eqb_eq in E. contradiction.
Qed.

Lemma set_fresh k (v : V) d :
  ~ In k (Dict.keys d) -> Dict.set eqb k v d = d ++ [(k, v)].
Proof.
  induction d as [|[k' v'] d IH]; simpl; intros Hk; [reflexivity|].
  rewrite eqb_neq by (intros ->; apply Hk; now left).
  f_equal. apply IH. intros Hin. apply Hk. now right.
Qed.

Lemma del_last k (v : V) d :
  ~ In k (Dict.keys d) -> Dict.del eqb k (d ++ [(k, v)]) = d.
Proof.
  induction d as [|[k' v'] d IH]; simpl; intros Hk.
  - now rewrite eqb_refl.
  - rewrite eqb_neq by (intros ->; apply Hk; now left).
    f_equal. apply IH. intros Hin. apply Hk. now right.
Qed.

Lemma get_last k (v : V) d :
  ~ In k (Dict.keys d) -> Dict.get eqb k (d ++ [(k, v)]) = Some v.
Proof.
  induction d as [|[k' v'] d IH]; simpl; intros Hk.
  - now rewrite eqb_refl.
  - rewrite eqb_neq by (intros ->; apply Hk; now left).
    apply IH. intros Hin. apply Hk. now right.
Qed.

Lemma get_set_same k (v : V) d : Dict.get eqb k (Dict.set eqb k v d) = Some v.
Proof.
  induction d as [|[k' v'] d IH]; simpl.
  - now rewrite eqb_refl.
  - destruct (eqb k k') eqn:E; simpl; rewrite E; [reflexivity|apply IH].
Qed.

Lemma get_set_other k k' (v : V) d :
  k' <> k -> Dict.get eqb k' (Dict.set eqb k v d) = Dict.get eqb k' d.
Proof.
  intros Hne. induction d as [|[k0 v0] d IH]; simpl.
  - now rewrite eqb_neq.
  - destruct (eqb k k0) eqn:E; simpl.
    + apply eqb_eq in E. subst k0. now rewrite (eqb_neq Hne).
    + destruct (eqb k' k0); [reflexivity|apply IH].
Qed.

Lemma get_In k (v : V) d : Dict.get eqb k d = Some v -> In (k, v) d.
Proof.
  induction d as [|[k' v'] d IH]; simpl; [discriminate|].
  destruct (eqb k k') eqn:E.
  - apply eqb_eq in E. intros [= ->]. subst. now left.
  - intros H. right. now apply IH.
Qed.

Lemma In_get k (v : V) d :
  NoDup (Dict.keys d) -> In (k, v) d -> Dict.get eqb k d = Some v.
Proof.
  induction d as [|[k' v'] d IH]; simpl; [easy|].
  intros Hnd [Heq|Hin].
  - injection Heq as -> ->. now rewrite eqb_refl.
  - inversion Hnd as [|? ? Hk' Hnd']; subst.
    rewrite eqb_neq.
    + now apply IH.
    + intros ->. apply Hk'. change (In k' (map fst d)).
      apply (in_map fst) in Hin. exact Hin.
Qed.

Lemma get_None k (d : Dict.t K V) :
  Dict.get eqb k d = None <-> ~ In k (Dict.keys d).
Proof.
  induction d as [|[k' v'] d IH]; simpl; [tauto|].
  destruct (eqb k k') eqn:E.
  - apply eqb_eq in E. subst. split; [discriminate|]. intros H. exfalso. apply H. now left.
  - rewrite IH. split.
    + intros H [->|Hin]; [|now apply H]. rewrite eqb_refl in E. discriminate.
    + intros H Hin. apply H. now right.
Qed.
End Facts.
End DictFacts.

(** ** Identity names *)

(** Outside the empty group, the name follows the rule of the source:
    unit name of the first alive unit, else of a static first unit, else
    the error of the network; group name for the other roles. *)
Lemma dcs_name_for_group_nonempty (g : TheaterGroup) (u0 : TheaterUnit)
  (rest : list TheaterUnit) :
  units g = u0 :: rest ->
  dcs_name_for_group g =
    if uses_unit_name (iads_role g) then
      match find alive (units g) with
      | Some u => Ok (unit_name u)
      | None =>
          if is_static u0 then Ok (unit_name u0)
          else Raise (IadsNetworkException
                        (name g ++ " has no skynet usable units"))
      end
    else Ok (group_name g).
Proof.
  intros Hu. unfold dcs_name_for_group, first_unit. rewrite Hu.
  destruct (uses_unit_name (iads_role g)); [|reflexivity].
  destruct (find alive (u0 :: rest)); reflexivity.
Qed.

(** C7 (the code departs from the claim): an early-warning radar group
    without units has no alive unit and no static first unit, yet the name
    derivation ends in an out-of-bounds access on [units[0]] and not in the
    error of the network. *)
Theorem dcs_name_for_group_empty_ewr :
  find alive (units empty_ewr_group) = None /\
  dcs_name_for_group empty_ewr_group = Raise IndexError /\
  forall message,
    dcs_name_for_group empty_ewr_group
    <> Raise (IadsNetworkException message).
Proof.
  repeat split; try reflexivity. intros message. discriminate.
Qed.

(** C10: the name derivation and the projection of a group read
    [units[0]].  On a group without units the derivation for the roles that
    use a unit name, and [from_group] for every role, end in an
    out-of-bounds access; on a group with a unit neither does, and whatever
    [from_group] returns comes from a group that has a unit. *)
Theorem first_unit_access (w : World) (r : GroupRef) :
  let g := group_at w r in
  (units g = [] ->
     (uses_unit_name (iads_role g) = true ->
      dcs_name_for_group g = Raise IndexError)
     /\ from_group w r = Raise IndexError)
  /\ (units g <> [] ->
      dcs_name_for_group g <> Raise IndexError
      /\ from_group w r <> Raise IndexError)
  /\ (forall sk, from_group w r = Ok sk -> units g <> []).
Proof.
  intros g. unfold from_group. fold g.
  unfold dcs_name_for_group, first_unit.
  destruct (units g) as [|u0 rest] eqn:Hu; simpl.
  - split; [intros _|split; [congruence|]].
    + split.
      * intros ->. reflexivity.
      * destruct (uses_unit_name (iads_role g)); reflexivity.
    + intros sk. destruct (uses_unit_name (iads_role g)); discriminate.
  - split; [discriminate|]. split; [intros _|intros; discriminate].
    destruct (uses_unit_name (iads_role g)); simpl.
    + destruct (alive u0); simpl.
      * split; [discriminate|]. destruct (unit_type u0) as [[|]|]; discriminate.
      * destruct (find alive rest); simpl.
        -- split; [discriminate|]. destruct (unit_type u0) as [[|]|]; discriminate.
        -- destruct (is_static u0); simpl; split; try discriminate.
           destruct (unit_type u0) as [[|]|]; discriminate.
    + split; [discriminate|]. destruct (unit_type u0) as [[|]|]; discriminate.
Qed.

(** ** Connections of a node *)

(** C9: a connection added under an identifier the node does not use yet
    is stored under the drawn identifier, and deleting that entry gives the
    connections of the node back. *)
Theorem add_then_delete_connection (node : IadsNetworkNode) (g : GroupRef)
  (n : nat) :
  ~ In n (Dict.keys (connections node)) ->
  let node' := result (add_connection_for_group node g n) in
  group node' = group node
  /\ Dict.get Nat.eqb n (connections node') = Some g
  /\ Dict.del Nat.eqb n (connections node') = connections node.
Proof.
  intros Hfresh. cbn.
  rewrite (DictFacts.set_fresh Nat.eqb Nat.eqb_eq) by exact Hfresh.
  repeat split.
  - now apply (DictFacts.get_last Nat.eqb Nat.eqb_eq).
  - now apply (DictFacts.del_last Nat.eqb Nat.eqb_eq).
Qed.

(** ** Projection *)

Section Projection.
Context {catalog : RoleCatalog} {theater : Theater}.
Variables (w : World) (culling : TgoRef -> bool).

Lemma alive_group_has_name (g : TheaterGroup) :
  existsb alive (units g) = true ->
  exists nm, dcs_name_for_group g = Ok nm /\ skynet_name g = Some nm.
Proof.
  intros Ha. unfold dcs_name_for_group, skynet_name.
  assert (Hf : exists u, find alive (units g) = Some u).
  { destruct (find alive (units g)) as [u|] eqn:Hf; [eauto|].
    apply existsb_exists in Ha. destruct Ha as [u [Hin Hu]].
    apply (find_none _ _ Hf) in Hin. congruence. }
  destruct Hf as [u Hf]. rewrite Hf.
  destruct (iads_role g); simpl; eauto.
Qed.

Lemma alive_group_from_group (r : GroupRef) :
  existsb alive (units (group_at w r)) = true ->
  exists sk,
    from_group w r = Ok sk
    /\ skynet_name (group_at w r) = Some (dcs_name sk)
    /\ player sk = is_friendly (tgo_at w (ground_object r)) true
    /\ sk_iads_role sk = iads_role (group_at w r)
    /\ properties sk = first_unit_properties (group_at w r)
    /\ sk_connections sk = [].
Proof.
  intros Ha. destruct (alive_group_has_name _ Ha) as [nm [Hnm Hsk]].
  unfold from_group, first_unit_properties. rewrite Hnm. simpl.
  unfold first_unit.
  destruct (units (group_at w r)) as [|u0 rest]; [discriminate|]. simpl.
  destruct (unit_type u0) as [[props|]|]; eexists; repeat split;
    exact Hsk.
Qed.

Lemma connections_under_append (sk : SkynetNode) (key nm tag : string) :
  connections_under tag (add_skynet_connection sk key nm) =
  connections_under tag sk ++ (if String.eqb key tag then [nm] else []).
Proof.
  unfold connections_under, add_skynet_connection, defaultdict_append. simpl.
  destruct (String.eqb key tag) eqn:E.
  - apply String.eqb_eq in E. subst tag.
    destruct (Dict.get String.eqb key (sk_connections sk));
      now rewrite (DictFacts.get_set_same String.eqb String.eqb_eq).
  - assert (Hne : tag <> key).
    { intros ->. rewrite String.eqb_refl in E. discriminate. }
    destruct (Dict.get String.eqb key (sk_connections sk));
      rewrite (DictFacts.get_set_other String.eqb String.eqb_eq) by exact Hne;
      now rewrite app_nil_r.
Qed.

Lemma skynet_connections_fold (conns : list GroupRef) :
  forall sk0, exists sk,
    foldR (skynet_connection w culling) sk0 conns = Ok sk
    /\ dcs_name sk = dcs_name sk0 /\ player sk = player sk0
    /\ sk_iads_role sk = sk_iads_role sk0
    /\ properties sk = properties sk0
    /\ forall tag, exists names,
        connections_under tag sk = connections_under tag sk0 ++ names
        /\ Forall2 (fun g nm => skynet_name (group_at w g) = Some nm)
             (filter (fun g =>
                        connection_projected w culling (player sk0) g
                        && String.eqb (value (iads_role (group_at w g))) tag)
                     conns)
             names.
Proof.
  induction conns as [|g conns IH]; intros sk0; simpl.
  - exists sk0. repeat split; try reflexivity.
    intros tag. exists []. now rewrite app_nil_r.
  - unfold skynet_connection at 1. unfold connection_projected at 1.
    destruct (existsb alive (units (group_at w g))) eqn:Ha; simpl.
    + destruct (is_friendly (tgo_at w (ground_object g)) (player sk0)
                && negb (culling (ground_object g))) eqn:Hf; simpl.
      * destruct (alive_group_has_name _ Ha) as [nm [Hnm Hsk]].
        rewrite Hnm. simpl.
        destruct (IH (add_skynet_connection sk0
                        (value (iads_role (group_at w g))) nm))
          as [sk [Hrun [H1 [H2 [H3 [H4 H5]]]]]].
        exists sk. repeat split; try assumption.
        intros tag. destruct (H5 tag) as [names [Hu Hall]].
        rewrite connections_under_append in Hu.
        simpl in Hall.
        destruct (String.eqb (value (iads_role (group_at w g))) tag).
        -- exists (nm :: names). split.
           ++ rewrite Hu. now rewrite <- app_assoc.
           ++ constructor; assumption.
        -- exists names. split; [|assumption].
           rewrite Hu. now rewrite app_nil_r.
      * destruct (IH sk0) as [sk [Hrun H]]. exists sk. split; assumption.
    + destruct (IH sk0) as [sk [Hrun H]]. exists sk. split; assumption.
Qed.

Lemma skynet_nodes_fold (ns : list IadsNetworkNode) :
  forall acc, exists out,
    foldR (skynet_nodes_step w culling) acc ns = Ok (acc ++ out)
    /\ Forall2 (projects w culling)
         (filter (node_projected w culling) ns) out.
Proof.
  induction ns as [|cn ns IH]; intros acc; simpl.
  - exists []. now rewrite app_nil_r.
  - unfold node_projected at 1. unfold skynet_nodes_step at 1.
    destruct (culling (ground_object (group cn))); simpl.
    + apply IH.
    + destruct (existsb alive (units (group_at w (group cn)))) eqn:Ha; simpl.
      * destruct (alive_group_from_group _ Ha)
          as [base [Hbase [Hname [Hside [Hrole [Hprops Hnil]]]]]].
        rewrite Hbase. simpl.
        destruct (skynet_connections_fold (Dict.values (connections cn)) base)
          as [sk [Hrun [H1 [H2 [H3 [H4 H5]]]]]].
        rewrite Hrun. simpl.
        destruct (IH (acc ++ [sk])) as [out [Hout Hall]].
        exists (sk :: out). split.
        -- rewrite Hout. now rewrite <- app_assoc.
        -- constructor; [|assumption].
           unfold projects, node_side.
           rewrite H1, H2, H3, H4.
           repeat split; try assumption.
           intros tag. destruct (H5 tag) as [names [Hu Hnames]].
           unfold connections_under at 2 in Hu. rewrite Hnil in Hu.
           simpl in Hu. rewrite Hu, <- Hside. exact Hnames.
      * apply IH.
Qed.

(** C8: the projection never raises; it returns, in order, one Skynet
    node for each node that is not culled and whose primary group has an
    alive unit, with the [player] flag of the side of the node, and lists
    under each role tag the connections of that role whose group has an
    alive unit and whose ground object is friendly to the side of the node
    and not culled.  Whether a node is projected does not depend on its
    connections. *)
Theorem skynet_nodes_filter (self : IadsNetwork) :
  exists out,
    skynet_nodes w culling self = Ok out
    /\ Forall2 (projects w culling)
         (filter (node_projected w culling) (nodes self)) out.
Proof.
  destruct (skynet_nodes_fold (nodes self) []) as [out H].
  exists out. exact H.
Qed.

End Projection.

(** ** Fields of an updated network *)

Lemma nodes_set_nodes self ns : nodes (set_nodes self ns) = ns.
Proof. reflexivity. Qed.

Lemma set_nodes_set_nodes self ns ns' :
  set_nodes (set_nodes self ns) ns' = set_nodes self ns'.
Proof. reflexivity. Qed.

Lemma set_nodes_nodes self : set_nodes self (nodes self) = self.
Proof. now destruct self. Qed.

Lemma advanced_set_nodes self ns :
  advanced_iads (set_nodes self ns) = advanced_iads self.
Proof. reflexivity. Qed.

Lemma ground_objects_set_nodes self ns :
  ground_objects (set_nodes self ns) = ground_objects self.
Proof. reflexivity. Qed.

Lemma iads_config_set_nodes self ns :
  iads_config (set_nodes self ns) = iads_config self.
Proof. reflexivity. Qed.

Lemma nodes_set_iads_config self c :
  nodes (set_iads_config self c) = nodes self.
Proof. reflexivity. Qed.

Lemma advanced_set_iads_config self c :
  advanced_iads (set_iads_config self c) = advanced_iads self.
Proof. reflexivity. Qed.

Lemma ground_objects_set_iads_config self c :
  ground_objects (set_iads_config self c) = ground_objects self.
Proof. reflexivity. Qed.

Lemma iads_config_set_iads_config self c :
  iads_config (set_iads_config self c) = c.
Proof. reflexivity. Qed.

Lemma nodes_set_ground_objects self d :
  nodes (set_ground_objects self d) = nodes self.
Proof. reflexivity. Qed.

Lemma advanced_set_ground_objects self d :
  advanced_iads (set_ground_objects self d) = advanced_iads self.
Proof. reflexivity. Qed.

Lemma iads_config_set_ground_objects self d :
  iads_config (set_ground_objects self d) = iads_config self.
Proof. reflexivity. Qed.

Lemma ground_objects_set_ground_objects self d :
  ground_objects (set_ground_objects self d) = d.
Proof. reflexivity. Qed.

Create Rewrite HintDb net.
#[export] Hint Rewrite nodes_set_nodes set_nodes_set_nodes set_nodes_nodes
  advanced_set_nodes ground_objects_set_nodes iads_config_set_nodes
  nodes_set_iads_config advanced_set_iads_config
  ground_objects_set_iads_config iads_config_set_iads_config
  nodes_set_ground_objects advanced_set_ground_objects
  iads_config_set_ground_objects ground_objects_set_ground_objects : net.

Arguments set_nodes : simpl never.
Arguments set_iads_config : simpl never.
Arguments set_ground_objects : simpl never.

(** ** Running computations *)

Lemma bind_run {A B} (m : M A) (k : A -> M B) (n : nat) :
  bind m k n =
  let '(a, n1, ev1) := m n in
  let '(b, n2, ev2) := k a n1 in (b, n2, ev1 ++ ev2).
Proof. reflexivity. Qed.

Lemma bind_run_eq {A B} (m : M A) (k : A -> M B) (n n1 : nat) (a : A)
  (ev1 : list GameUpdateEvent) :
  m n = (a, n1, ev1) ->
  bind m k n = (result (k a n1), supply (k a n1), ev1 ++ emitted (k a n1)).
Proof.
  intros H. unfold bind. rewrite H. now destruct (k a n1) as [[b n2] ev2].
Qed.

Lemma run_eta {A} (r : A * nat * list GameUpdateEvent) :
  r = (result r, supply r, emitted r).
Proof. now destruct r as [[a n] ev]. Qed.

Lemma foldM_cons {A B} (f : A -> B -> M A) (a : A) (b : B) (l : list B)
  (n : nat) :
  foldM f a (b :: l) n =
  let '(a', n1, ev1) := f a b n in
  let '(r, n2, ev2) := foldM f a' l n1 in (r, n2, ev1 ++ ev2).
Proof. reflexivity. Qed.

Lemma mapM_cons {A B} (f : A -> M B) (a : A) (l : list A) (n : nat) :
  mapM f (a :: l) n =
  let '(b, n1, ev1) := f a n in
  let '(bs, n2, ev2) := mapM f l n1 in (b :: bs, n2, ev1 ++ ev2).
Proof.
  simpl. unfold bind, ret. destruct (f a n) as [[b n1] ev1].
  destruct (mapM f l n1) as [[bs n2] ev2]. now rewrite app_nil_r.
Qed.

Ltac run := cbn [result supply emitted fst snd app].

Lemma attach_nil (cn : IadsNetworkNode) (n : nat) : attach cn n [] = cn.
Proof. destruct cn. unfold attach. simpl. now rewrite app_nil_r. Qed.

Lemma combine_seq_app (n : nat) (gs1 gs2 : list GroupRef) :
  combine (seq n (List.length (gs1 ++ gs2))) (gs1 ++ gs2) =
  combine (seq n (List.length gs1)) gs1
  ++ combine (seq (n + List.length gs1) (List.length gs2)) gs2.
Proof.
  revert n. induction gs1 as [|g gs1 IH]; intros n; simpl.
  - now rewrite Nat.add_0_r.
  - f_equal. rewrite IH. now rewrite Nat.add_succ_r.
Qed.

Lemma attach_attach (cn : IadsNetworkNode) (n : nat) (gs1 gs2 : list GroupRef) :
  attach (attach cn n gs1) (n + List.length gs1) gs2 = attach cn n (gs1 ++ gs2).
Proof.
  unfold attach. simpl. now rewrite combine_seq_app, app_assoc.
Qed.

Lemma keys_combine_seq (n : nat) (gs : list GroupRef) :
  Dict.keys (combine (seq n (List.length gs)) gs) = seq n (List.length gs).
Proof.
  revert n. induction gs as [|g gs IH]; intros n; simpl; [reflexivity|].
  f_equal. apply IH.
Qed.

Lemma values_combine_seq (n : nat) (gs : list GroupRef) :
  Dict.values (combine (seq n (List.length gs)) gs) = gs.
Proof.
  revert n. induction gs as [|g gs IH]; intros n; simpl; [reflexivity|].
  f_equal. apply IH.
Qed.

Lemma keys_attach (cn : IadsNetworkNode) (n : nat) (gs : list GroupRef) :
  Dict.keys (connections (attach cn n gs)) =
  Dict.keys (connections cn) ++ seq n (List.length gs).
Proof.
  unfold attach, Dict.keys. simpl. rewrite map_app.
  f_equal. apply keys_combine_seq.
Qed.

Lemma values_attach (cn : IadsNetworkNode) (n : nat) (gs : list GroupRef) :
  Dict.values (connections (attach cn n gs)) =
  Dict.values (connections cn) ++ gs.
Proof.
  unfold attach, Dict.values. simpl. rewrite map_app.
  f_equal. apply values_combine_seq.
Qed.

Lemma node_fresh_attach (cn : IadsNetworkNode) (n : nat) (gs : list GroupRef) :
  node_fresh n cn -> node_fresh (n + List.length gs) (attach cn n gs).
Proof.
  unfold node_fresh. rewrite keys_attach. intros H.
  apply Forall_app. split.
  - eapply Forall_impl; [|exact H]. simpl. intros; lia.
  - apply Forall_forall. intros k Hk. apply in_seq in Hk. lia.
Qed.

Lemma node_fresh_not_in (cn : IadsNetworkNode) (n : nat) :
  node_fresh n cn -> ~ In n (Dict.keys (connections cn)).
Proof.
  unfold node_fresh. rewrite Forall_forall. intros H Hin.
  apply H in Hin. lia.
Qed.

Lemma add_connection_for_group_attach (cn : IadsNetworkNode) (g : GroupRef)
  (n : nat) :
  node_fresh n cn ->
  add_connection_for_group cn g n = (attach cn n [g], n + 1, []).
Proof.
  intros Hf. unfold add_connection_for_group, bind, uuid4, ret, attach. simpl.
  rewrite (DictFacts.set_fresh Nat.eqb Nat.eqb_eq)
    by now apply node_fresh_not_in.
  now rewrite Nat.add_1_r.
Qed.

(** A loop whose body attaches to a node the groups [sel] picks for the
    element at hand attaches the groups picked for all the elements. *)
Lemma foldM_attach {B} (f : IadsNetworkNode -> B -> M IadsNetworkNode)
  (sel : GroupRef -> B -> list GroupRef) :
  (forall cn b n, node_fresh n cn ->
     f cn b n = (attach cn n (sel (group cn) b),
                 n + List.length (sel (group cn) b), [])) ->
  forall l cn n, node_fresh n cn ->
    foldM f cn l n =
    (attach cn n (flat_map (sel (group cn)) l),
     n + List.length (flat_map (sel (group cn)) l), []).
Proof.
  intros Hf l. induction l as [|b l IH]; intros cn n Hn; simpl.
  - unfold ret. now rewrite attach_nil, Nat.add_0_r.
  - unfold bind. rewrite (Hf _ _ _ Hn).
    rewrite IH by now apply node_fresh_attach.
    simpl. rewrite attach_attach, length_app, Nat.add_assoc. reflexivity.
Qed.

Lemma flat_map_singleton_filter {A} (c : A -> bool) (l : list A) :
  flat_map (fun a => if c a then [a] else []) l = filter c l.
Proof.
  induction l as [|a l IH]; simpl; [reflexivity|].
  rewrite IH. now destruct (c a).
Qed.

Lemma find_index_None {A} (p : A -> bool) (l : list A) :
  find_index p l = None <-> forall a, In a l -> p a = false.
Proof.
  induction l as [|a l IH]; simpl.
  - split; [intros _ a []|reflexivity].
  - destruct (p a) eqn:Hp.
    + split; [discriminate|]. intros H. specialize (H a (or_introl eq_refl)).
      congruence.
    + destruct (find_index p l) as [i|]; simpl.
      * split; [discriminate|]. intros H.
        assert (Hn : Some i = None); [|discriminate].
        apply IH. intros b Hb. apply H. now right.
      * split; [|reflexivity]. intros _ b [<-|Hb]; [exact Hp|].
        now apply (proj1 IH).
Qed.

Lemma find_index_Some {A} (p : A -> bool) (l : list A) (i : nat) :
  find_index p l = Some i ->
  exists a, nth_error l i = Some a /\ p a = true
            /\ forall b, In b (firstn i l) -> p b = false.
Proof.
  revert i. induction l as [|a l IH]; simpl; intros i; [discriminate|].
  destruct (p a) eqn:Hp.
  - intros [= <-]. exists a. simpl. repeat split; [exact Hp|]. intros b [].
  - destruct (find_index p l) as [j|]; simpl; [|discriminate].
    intros [= <-]. destruct (IH j eq_refl) as [b [Hn [Hb Hfirst]]].
    exists b. simpl. repeat split; try assumption.
    intros c [<-|Hc]; [exact Hp|now apply Hfirst].
Qed.

Lemma on_node_at (i : nat) (f : IadsNetworkNode -> M IadsNetworkNode)
  (ns : list IadsNetworkNode) (cn cn' : IadsNetworkNode) (n n' : nat)
  (ev : list GameUpdateEvent) :
  nth_error ns i = Some cn -> f cn n = (cn', n', ev) ->
  on_node i f ns n = (firstn i ns ++ cn' :: skipn (S i) ns, n', ev).
Proof.
  intros Hi Hf. unfold on_node. rewrite Hi. unfold bind. rewrite Hf.
  simpl. now rewrite app_nil_r.
Qed.

Lemma on_node_last (f : IadsNetworkNode -> M IadsNetworkNode)
  (ns : list IadsNetworkNode) (cn cn' : IadsNetworkNode) (n n' : nat)
  (ev : list GameUpdateEvent) :
  f cn n = (cn', n', ev) ->
  on_node (List.length ns) f (ns ++ [cn]) n = (ns ++ [cn'], n', ev).
Proof.
  intros Hf. erewrite on_node_at; [|now rewrite nth_error_app2, Nat.sub_diag by lia|exact Hf].
  rewrite skipn_all2 by (rewrite length_app; simpl; lia).
  rewrite firstn_app, firstn_all, Nat.sub_diag. simpl.
  now rewrite app_nil_r.
Qed.

(** ** Nodes of a ground object *)

Section NodeForTgo.
Context {catalog : RoleCatalog} {theater : Theater}.
Variable w : World.

Lemma add_connection_for_tgo_attach (cn : IadsNetworkNode) (tgo : TgoRef)
  (n : nat) :
  node_fresh n cn ->
  add_connection_for_tgo w cn tgo n =
  (attach cn n (participating_groups w tgo),
   n + List.length (participating_groups w tgo), []).
Proof.
  intros Hn. unfold add_connection_for_tgo, participating_groups.
  rewrite <- flat_map_singleton_filter.
  apply (foldM_attach
           (fun self g =>
              if is_iads_ground_group (group_at w g)
                 && participate (iads_role (group_at w g))
              then add_connection_for_group self g else ret self)
           (fun _ g =>
              if is_iads_ground_group (group_at w g)
                 && participate (iads_role (group_at w g))
              then [g] else [])); [|exact Hn].
  intros cn0 g n0 Hn0.
  destruct (is_iads_ground_group (group_at w g)
            && participate (iads_role (group_at w g))).
  - now apply add_connection_for_group_attach.
  - unfold ret. now rewrite attach_nil, Nat.add_0_r.
Qed.

Lemma groups_of_ground_object (tgo : TgoRef) (g : GroupRef) :
  In g (groups_of w tgo) -> ground_object g = tgo.
Proof.
  unfold groups_of. intros Hin. apply in_map_iff in Hin.
  destruct Hin as [k [<- _]]. reflexivity.
Qed.

Lemma node_for_tgo_existing (self : IadsNetwork) (tgo : TgoRef) (i n : nat) :
  find_index (anchored_on tgo) (nodes self) = Some i ->
  node_for_tgo w self tgo n = ((self, Some i), n, []).
Proof. intros H. unfold node_for_tgo. now rewrite H. Qed.

Lemma node_for_group_new (self : IadsNetwork) (g : GroupRef) :
  find_index (anchored_on (ground_object g)) (nodes self) = None ->
  node_for_group self g =
  (set_nodes self (nodes self ++ [IadsNetworkNode_init g]),
   List.length (nodes self)).
Proof.
  intros Hnone. unfold node_for_group.
  replace (find_index (fun cn => GroupRef_eqb (group cn) g) (nodes self))
    with (@None nat); [reflexivity|].
  symmetry. apply find_index_None. intros cn Hcn.
  apply (proj1 (find_index_None _ _) Hnone) in Hcn.
  unfold anchored_on in Hcn. unfold GroupRef_eqb. now rewrite Hcn.
Qed.

Lemma node_for_tgo_step_none (self : IadsNetwork) (g : GroupRef) (n : nat) :
  node_for_tgo_step w (self, None) g n =
  if primary_candidate w g
  then ((fst (node_for_group self g), Some (snd (node_for_group self g))),
        n, [])
  else ((self, None), n, []).
Proof.
  unfold node_for_tgo_step, primary_candidate, usable_group.
  destruct (is_iads_ground_group (group_at w g)
            && (0 <? alive_units (group_at w g))); simpl; [|reflexivity].
  destruct (participate (iads_role (group_at w g))); [|reflexivity].
  now destruct (node_for_group self g).
Qed.

Lemma node_for_tgo_step_some (self : IadsNetwork) (i : nat) (g : GroupRef)
  (n : nat) :
  node_for_tgo_step w (self, Some i) g n =
  if living_point_defense w g
  then (ns <- on_node i (fun cn => add_connection_for_group cn g)
                      (nodes self) ;;
        ret (set_nodes self ns, Some i)) n
  else ((self, Some i), n, []).
Proof.
  unfold node_for_tgo_step, living_point_defense, usable_group.
  destruct (is_iads_ground_group (group_at w g)
            && (0 <? alive_units (group_at w g))); simpl; [|reflexivity].
  now destruct (IadsRole_eqb (iads_role (group_at w g)) POINT_DEFENSE).
Qed.

(** Once the primary node is found, the loop attaches the living point
    defenses to it. *)
Lemma node_for_tgo_attach_phase (self : IadsNetwork)
  (ns : list IadsNetworkNode) (later : list GroupRef) :
  forall cn n, node_fresh n cn ->
    foldM (node_for_tgo_step w)
          (set_nodes self (ns ++ [cn]), Some (List.length ns)) later n =
    ((set_nodes self
        (ns ++ [attach cn n (filter (living_point_defense w) later)]),
      Some (List.length ns)),
     n + List.length (filter (living_point_defense w) later), []).
Proof.
  induction later as [|g later IH]; intros cn n Hn.
  - simpl. unfold ret. now rewrite attach_nil, Nat.add_0_r.
  - rewrite foldM_cons, node_for_tgo_step_some. simpl filter.
    destruct (living_point_defense w g).
    + rewrite nodes_set_nodes.
      erewrite bind_run_eq
        by (apply on_node_last; apply add_connection_for_group_attach;
            exact Hn).
      unfold ret. run. rewrite set_nodes_set_nodes.
      rewrite IH by now apply (node_fresh_attach [g]).
      rewrite (attach_attach cn n [g]). simpl.
      now rewrite <- Nat.add_assoc.
    + run. rewrite IH by exact Hn. reflexivity.
Qed.

Lemma node_fresh_init (g : GroupRef) (n : nat) :
  node_fresh n (IadsNetworkNode_init g).
Proof. constructor. Qed.

(** Closed form of [node_for_tgo] for a ground object without node. *)
Lemma node_for_tgo_new_groups (self : IadsNetwork) (tgo : TgoRef)
  (gs : list GroupRef) (n : nat) :
  find_index (anchored_on tgo) (nodes self) = None ->
  (forall g, In g gs -> ground_object g = tgo) ->
  foldM (node_for_tgo_step w) (self, None) gs n =
  match scan_primary w gs with
  | None => ((self, None), n, [])
  | Some (g, later) =>
      let pds := filter (living_point_defense w) later in
      ((set_nodes self
          (nodes self ++ [attach (IadsNetworkNode_init g) n pds]),
        Some (List.length (nodes self))),
       n + List.length pds, [])
  end.
Proof.
  intros Hnone. induction gs as [|g gs IH]; intros Hgs; [reflexivity|].
  rewrite foldM_cons, node_for_tgo_step_none. simpl scan_primary.
  destruct (primary_candidate w g).
  - rewrite node_for_group_new
      by (rewrite (Hgs g (or_introl eq_refl)); exact Hnone).
    run. simpl fst. simpl snd.
    rewrite (node_for_tgo_attach_phase self (nodes self) gs
               (node_fresh_init g n)).
    reflexivity.
  - run. rewrite IH by (intros; apply Hgs; now right).
    destruct (scan_primary w gs) as [[g0 later]|]; reflexivity.
Qed.

Lemma node_for_tgo_new (self : IadsNetwork) (tgo : TgoRef) (n : nat) :
  find_index (anchored_on tgo) (nodes self) = None ->
  node_for_tgo w self tgo n =
  match scan_primary w (groups_of w tgo) with
  | None => ((self, None), n, [])
  | Some (g, later) =>
      let pds := filter (living_point_defense w) later in
      ((set_nodes self
          (nodes self ++ [attach (IadsNetworkNode_init g) n pds]),
        Some (List.length (nodes self))),
       n + List.length pds, [])
  end.
Proof.
  intros Hnone. unfold node_for_tgo. rewrite Hnone.
  apply node_for_tgo_new_groups with (tgo := tgo); [exact Hnone|].
  intros g Hg. now apply groups_of_ground_object.
Qed.

Lemma scan_primary_None (gs : list GroupRef) :
  scan_primary w gs = None <->
  forall g, In g gs -> primary_candidate w g = false.
Proof.
  induction gs as [|g gs IH]; simpl.
  - split; [intros _ g []|reflexivity].
  - destruct (primary_candidate w g) eqn:Hg.
    + split; [discriminate|]. intros H.
      rewrite (H g (or_introl eq_refl)) in Hg. discriminate.
    + rewrite IH. split.
      * intros H g' [<-|Hin]; [exact Hg|now apply H].
      * intros H g' Hin. apply H. now right.
Qed.

Lemma scan_primary_split (before : list GroupRef) (g : GroupRef)
  (later : list GroupRef) :
  (forall g', In g' before -> primary_candidate w g' = false) ->
  primary_candidate w g = true ->
  scan_primary w (before ++ g :: later) = Some (g, later).
Proof.
  induction before as [|b before IH]; simpl; intros Hb Hg.
  - now rewrite Hg.
  - rewrite (Hb b (or_introl eq_refl)). apply IH; [|exact Hg].
    intros; apply Hb; now right.
Qed.

(** C6 (amended): for a ground object without node, [node_for_tgo] returns no
    node, and changes nothing, when no IADS group of the object has an alive
    unit and a participating role; otherwise it appends one node whose
    primary group is the first such group and whose connections are, in
    order and under distinct identifiers, the later IADS groups of the
    object that have the point-defense role and an alive unit.  No event is
    emitted and nothing is raised. *)
Theorem node_for_tgo_scans_groups (self : IadsNetwork) (tgo : TgoRef)
  (n : nat) :
  find_index (anchored_on tgo) (nodes self) = None ->
  let r := node_for_tgo w self tgo n in
  ((forall g, In g (groups_of w tgo) -> primary_candidate w g = false) ->
   r = ((self, None), n, []))
  /\ (forall before g later,
        groups_of w tgo = before ++ g :: later ->
        (forall g', In g' before -> primary_candidate w g' = false) ->
        primary_candidate w g = true ->
        exists cn,
          result r = (set_nodes self (nodes self ++ [cn]),
                      Some (List.length (nodes self)))
          /\ emitted r = []
          /\ group cn = g
          /\ Dict.values (connections cn)
             = filter (living_point_defense w) later
          /\ NoDup (Dict.keys (connections cn))).
Proof.
  intros Hnone r. subst r. rewrite (@node_for_tgo_new self tgo n Hnone). split.
  - intros Hno. apply scan_primary_None in Hno. now rewrite Hno.
  - intros before g later Hsplit Hbefore Hg.
    rewrite Hsplit, (@scan_primary_split before g later Hbefore Hg). cbv zeta.
    eexists. repeat split.
    + apply values_attach.
    + rewrite keys_attach. simpl. apply seq_NoDup.
Qed.

End NodeForTgo.

(** C6, as stated, fails: the point defense of site [C] follows the primary
    group, but has no alive unit and is not connected. *)
Lemma node_for_tgo_skips_dead_point_defense :
  let w := Scenario.dead_point_defense in
  let r := @node_for_tgo Scenario.catalog w (Scenario.network false []) 2 0 in
  groups_of w 2 = [Scenario.ref 2 0; Scenario.ref 2 1]
  /\ iads_role (group_at w (Scenario.ref 2 1)) = POINT_DEFENSE
  /\ nodes (fst (result r))
     = [{| group := Scenario.ref 2 0; connections := [] |}].
Proof. repeat split. Qed.

Lemma node_for_tgo_scans_groups_witness :
  let w := Scenario.peace in
  let self := Scenario.network false [] in
  exists cn,
    result (@node_for_tgo Scenario.catalog w self 2 0)
    = (set_nodes self (nodes self ++ [cn]), Some 0)
    /\ emitted (@node_for_tgo Scenario.catalog w self 2 0) = []
    /\ group cn = Scenario.ref 2 0
    /\ Dict.values (connections cn) = [Scenario.ref 2 1]
    /\ NoDup (Dict.keys (connections cn)).
Proof.
  intros w self.
  exact (proj2 (@node_for_tgo_scans_groups Scenario.catalog w self 2 0
                  eq_refl)
               [] (Scenario.ref 2 0) [Scenario.ref 2 1] eq_refl
               (fun g' (H : In g' []) => match H with end) eq_refl).
Defined.

(** ** Shape of the network under its operations *)

Lemma result_bind_M {A B} (m : M A) (k : A -> M B) (n : nat) :
  result (bind m k n) = result (k (result (m n)) (supply (m n))).
Proof.
  unfold bind, result, supply, emitted.
  destruct (m n) as [[a n1] ev1]. simpl.
  now destruct (k a n1) as [[b n2] ev2].
Qed.

Lemma supply_bind_M {A B} (m : M A) (k : A -> M B) (n : nat) :
  supply (bind m k n) = supply (k (result (m n)) (supply (m n))).
Proof.
  unfold bind, result, supply, emitted.
  destruct (m n) as [[a n1] ev1]. simpl.
  now destruct (k a n1) as [[b n2] ev2].
Qed.

Lemma emitted_bind_M {A B} (m : M A) (k : A -> M B) (n : nat) :
  emitted (bind m k n) =
  emitted (m n) ++ emitted (k (result (m n)) (supply (m n))).
Proof.
  unfold bind, result, supply, emitted.
  destruct (m n) as [[a n1] ev1]. simpl.
  now destruct (k a n1) as [[b n2] ev2].
Qed.

Lemma result_foldM_cons {A B} (f : A -> B -> M A) a b l n :
  result (foldM f a (b :: l) n) =
  result (foldM f (result (f a b n)) l (supply (f a b n))).
Proof. exact (result_bind_M (f a b) (fun a' => foldM f a' l) n). Qed.

Lemma supply_foldM_cons {A B} (f : A -> B -> M A) a b l n :
  supply (foldM f a (b :: l) n) =
  supply (foldM f (result (f a b n)) l (supply (f a b n))).
Proof. exact (supply_bind_M (f a b) (fun a' => foldM f a' l) n). Qed.

Lemma emitted_foldM_cons {A B} (f : A -> B -> M A) a b l n :
  emitted (foldM f a (b :: l) n) =
  emitted (f a b n)
  ++ emitted (foldM f (result (f a b n)) l (supply (f a b n))).
Proof. exact (emitted_bind_M (f a b) (fun a' => foldM f a' l) n). Qed.

(** A relation every step of a loop respects holds between the state
    before the loop and the state after it. *)
Lemma foldM_rel {A B} (R : A -> A -> Prop) (f : A -> B -> M A) (l : list B) :
  (forall a, R a a) ->
  (forall a b c, R a b -> R b c -> R a c) ->
  (forall a b n, In b l -> R a (result (f a b n))) ->
  forall a n, R a (result (foldM f a l n)).
Proof.
  intros Hrefl Htrans. induction l as [|b l IH]; intros Hstep a n.
  - apply Hrefl.
  - rewrite result_foldM_cons. eapply Htrans.
    + apply Hstep. now left.
    + apply IH. intros; apply Hstep; now right.
Qed.

(** What each step establishes for its element and later steps keep holds
    for every element after the loop. *)
Lemma foldM_covers {A B} (R : A -> A -> Prop) (Q : B -> A -> Prop)
  (f : A -> B -> M A) (l : list B) :
  (forall a, R a a) ->
  (forall a b c, R a b -> R b c -> R a c) ->
  (forall a b n, R a (result (f a b n))) ->
  (forall a a' b, R a a' -> Q b a -> Q b a') ->
  (forall a b n, Q b (result (f a b n))) ->
  forall a n b, In b l -> Q b (result (foldM f a l n)).
Proof.
  intros Hrefl Htrans Hstep Hmono Hq.
  induction l as [|b0 l IH]; intros a n b Hin; [destruct Hin|].
  rewrite result_foldM_cons. destruct Hin as [<-|Hin].
  - eapply Hmono; [|apply Hq].
    apply (foldM_rel R f l Hrefl Htrans). intros; apply Hstep.
  - now apply IH.
Qed.

Lemma anchors_map_group (ns : list IadsNetworkNode) :
  anchors ns = map ground_object (map group ns).
Proof. unfold anchors. now rewrite map_map. Qed.

Lemma extends_refl (self : IadsNetwork) : extends self self.
Proof.
  repeat split. exists []. now rewrite app_nil_r.
Qed.

Lemma extends_trans (a b c : IadsNetwork) :
  extends a b -> extends b c -> extends a c.
Proof.
  intros [Ha [Hg [e1 [He1 Hn1]]]] [Ha' [Hg' [e2 [He2 Hn2]]]].
  repeat split; try congruence.
  exists (e1 ++ e2). split.
  - now rewrite He2, He1, app_assoc.
  - auto.
Qed.

Lemma extends_same_groups (self self' : IadsNetwork) :
  advanced_iads self' = advanced_iads self ->
  ground_objects self' = ground_objects self ->
  map group (nodes self') = map group (nodes self) ->
  extends self self'.
Proof.
  intros Ha Hg Hm. repeat split; try assumption.
  exists []. rewrite app_nil_r. split; [assumption|].
  now rewrite !anchors_map_group, Hm.
Qed.

Lemma extends_registry (self self' : IadsNetwork) :
  extends self self' -> ground_objects self' = ground_objects self.
Proof. now intros [_ [H _]]. Qed.

Lemma extends_anchored (self self' : IadsNetwork) (t : TgoRef) :
  extends self self' ->
  In t (anchors (nodes self)) -> In t (anchors (nodes self')).
Proof.
  intros [_ [_ [extra [He _]]]]. rewrite !anchors_map_group, He, map_app, in_app_iff.
  now left.
Qed.

Lemma keeps_group_add_connection_for_group (g : GroupRef) :
  keeps_group (fun cn => add_connection_for_group cn g).
Proof. intros cn n. reflexivity. Qed.

Lemma keeps_group_ret : keeps_group (fun cn => ret cn).
Proof. intros cn n. reflexivity. Qed.

Lemma keeps_group_foldM {B} (f : IadsNetworkNode -> B -> M IadsNetworkNode)
  (l : list B) :
  (forall b, keeps_group (fun cn => f cn b)) ->
  keeps_group (fun cn => foldM f cn l).
Proof.
  intros Hf. induction l as [|b l IH]; intros cn n.
  - reflexivity.
  - rewrite result_foldM_cons, IH. apply Hf.
Qed.

Lemma replace_groups (ns : list IadsNetworkNode) (i : nat)
  (cn cn' : IadsNetworkNode) :
  nth_error ns i = Some cn -> group cn' = group cn ->
  map group (firstn i ns ++ cn' :: skipn (S i) ns) = map group ns.
Proof.
  revert i. induction ns as [|a ns IH]; intros [|i]; simpl; try discriminate.
  - intros [= ->] ->. reflexivity.
  - intros Hi Hg. f_equal. now apply IH.
Qed.

Lemma on_node_groups (i : nat) (f : IadsNetworkNode -> M IadsNetworkNode)
  (ns : list IadsNetworkNode) (n : nat) :
  keeps_group f ->
  map group (result (on_node i f ns n)) = map group ns.
Proof.
  intros Hf. unfold on_node.
  destruct (nth_error ns i) as [cn|] eqn:Hi; [|reflexivity].
  rewrite result_bind_M. unfold ret, result at 1. simpl.
  eapply replace_groups; [exact Hi|apply Hf].
Qed.

Lemma mapM_groups (f : IadsNetworkNode -> M IadsNetworkNode)
  (ns : list IadsNetworkNode) :
  keeps_group f ->
  forall n, map group (result (mapM f ns n)) = map group ns.
Proof.
  intros Hf. induction ns as [|cn ns IH]; intros n; [reflexivity|].
  simpl mapM. rewrite result_bind_M, result_bind_M.
  unfold ret, result at 1. simpl. f_equal; [apply Hf|apply IH].
Qed.

Lemma NoDup_snoc {A} (l : list A) (a : A) :
  NoDup l -> ~ In a l -> NoDup (l ++ [a]).
Proof.
  intros Hl Ha. apply NoDup_app.
  - exact Hl.
  - constructor; [intros []|constructor].
  - intros b Hb [<-|[]]. contradiction.
Qed.

Section Shape.
Context {catalog : RoleCatalog} {theater : Theater}.
Variable w : World.

Lemma keeps_group_add_connection_for_tgo (tgo : TgoRef) :
  keeps_group (fun cn => add_connection_for_tgo w cn tgo).
Proof.
  unfold add_connection_for_tgo. apply keeps_group_foldM. intros g cn n.
  destruct (is_iads_ground_group (group_at w g)
            && participate (iads_role (group_at w g))); reflexivity.
Qed.

Lemma scan_primary_Some (gs : list GroupRef) (g : GroupRef)
  (later : list GroupRef) :
  scan_primary w gs = Some (g, later) ->
  exists before,
    gs = before ++ g :: later
    /\ (forall g', In g' before -> primary_candidate w g' = false)
    /\ primary_candidate w g = true.
Proof.
  induction gs as [|g0 gs IH]; simpl; [discriminate|].
  destruct (primary_candidate w g0) eqn:Hg0.
  - intros [= -> ->]. exists []. repeat split; [intros g' []|exact Hg0].
  - intros H. destruct (IH H) as [before [-> [Hb Hg]]].
    exists (g0 :: before). repeat split; [|exact Hg].
    intros g' [<-|Hin]; [exact Hg0|now apply Hb].
Qed.

Lemma find_index_anchored_None (ns : list IadsNetworkNode) (tgo : TgoRef) :
  find_index (anchored_on tgo) ns = None <-> ~ In tgo (anchors ns).
Proof.
  rewrite find_index_None. unfold anchors, anchored_on. split.
  - intros H Hin. apply in_map_iff in Hin. destruct Hin as [cn [<- Hcn]].
    apply H in Hcn. rewrite Nat.eqb_refl in Hcn. discriminate.
  - intros H cn Hcn. apply Nat.eqb_neq. intros Heq. apply H.
    apply in_map_iff. now exists cn.
Qed.

(** What [node_for_tgo] returns and leaves behind. *)
Lemma node_for_tgo_cases (self : IadsNetwork) (tgo : TgoRef) (n : nat) :
  let r := node_for_tgo w self tgo n in
  (exists i cn,
      result r = (self, Some i) /\ supply r = n
      /\ nth_error (nodes self) i = Some cn
      /\ ground_object (group cn) = tgo)
  \/ (~ In tgo (anchors (nodes self))
      /\ scan_primary w (groups_of w tgo) = None
      /\ result r = (self, None) /\ supply r = n)
  \/ (~ In tgo (anchors (nodes self))
      /\ exists g later,
        scan_primary w (groups_of w tgo) = Some (g, later)
        /\ ground_object g = tgo
        /\ result r =
           (set_nodes self
              (nodes self
               ++ [attach (IadsNetworkNode_init g) n
                     (filter (living_point_defense w) later)]),
            Some (List.length (nodes self)))
        /\ supply r
           = n + List.length (filter (living_point_defense w) later)).
Proof.
  intros r. subst r.
  destruct (find_index (anchored_on tgo) (nodes self)) as [i|] eqn:Hfind.
  - left. rewrite (node_for_tgo_existing w self tgo n Hfind).
    destruct (find_index_Some _ _ Hfind) as [cn [Hi [Hcn _]]].
    exists i, cn. repeat split; [exact Hi|].
    now apply Nat.eqb_eq.
  - right. rewrite (@node_for_tgo_new _ w self tgo n Hfind).
    apply find_index_anchored_None in Hfind.
    destruct (scan_primary w (groups_of w tgo)) as [[g later]|] eqn:Hscan.
    + right. split; [exact Hfind|]. exists g, later. repeat split.
      destruct (scan_primary_Some _ Hscan) as [before [Hsplit _]].
      apply (groups_of_ground_object w tgo). rewrite Hsplit.
      apply in_or_app. right. now left.
    + left. repeat split. exact Hfind.
Qed.

Lemma emitted_node_for_tgo (self : IadsNetwork) (tgo : TgoRef) (n : nat) :
  emitted (node_for_tgo w self tgo n) = [].
Proof.
  destruct (find_index (anchored_on tgo) (nodes self)) as [i|] eqn:Hfind.
  - now rewrite (node_for_tgo_existing w self tgo n Hfind).
  - rewrite (@node_for_tgo_new _ w self tgo n Hfind).
    now destruct (scan_primary w (groups_of w tgo)) as [[g later]|].
Qed.

Lemma node_for_tgo_extends (self : IadsNetwork) (tgo : TgoRef) (n : nat) :
  extends self (fst (result (node_for_tgo w self tgo n))).
Proof.
  destruct (node_for_tgo_cases self tgo n)
    as [[i [cn [-> _]]]|[[_ [_ [-> _]]]|[Hnot [g [later [_ [Hg [-> _]]]]]]]];
    try apply extends_refl.
  simpl fst. repeat split. exists [g]. split.
  - rewrite nodes_set_nodes, map_app. reflexivity.
  - intros Hnd. rewrite nodes_set_nodes. unfold anchors. rewrite map_app.
    simpl. rewrite Hg. now apply NoDup_snoc.
Qed.

Lemma node_for_tgo_config (self : IadsNetwork) (tgo : TgoRef) (n : nat) :
  iads_config (fst (result (node_for_tgo w self tgo n))) = iads_config self.
Proof.
  destruct (node_for_tgo_cases self tgo n)
    as [[i [cn [-> _]]]|[[_ [_ [-> _]]]|[Hnot [g [later [_ [Hg [-> _]]]]]]]];
    reflexivity.
Qed.

(** A ground object with a primary candidate has a node once
    [node_for_tgo] has run on it. *)
Lemma node_for_tgo_anchors (self : IadsNetwork) (tgo : TgoRef) (n : nat) :
  scan_primary w (groups_of w tgo) <> None ->
  In tgo (anchors (nodes (fst (result (node_for_tgo w self tgo n))))).
Proof.
  intros Hscan.
  destruct (node_for_tgo_cases self tgo n)
    as [[i [cn [-> [_ [Hi Hcn]]]]]
       |[[_ [Hnone _]]|[Hnot [g [later [_ [Hg [-> _]]]]]]]].
  - simpl. unfold anchors. apply in_map_iff. exists cn. split; [exact Hcn|].
    eapply nth_error_In. exact Hi.
  - contradiction.
  - simpl fst. rewrite nodes_set_nodes. unfold anchors. rewrite map_app.
    apply in_or_app. right. simpl. now left.
Qed.

Lemma result_bind_ret {A B} (m : M A) (g : A -> B) (n : nat) :
  result (bind m (fun a => ret (g a)) n) = g (result (m n)).
Proof. now rewrite result_bind_M. Qed.

Lemma range_step_keeps_group (registry : list TgoRef) :
  keeps_group
    (fun cn =>
       let tgo := ground_object (group cn) in
       foldM (fun cn nearby_go =>
                let iads_role :=
                  for_category (category (tgo_at w nearby_go)) in
                if negb (is_comms_or_power iads_role) || Nat.eqb nearby_go tgo
                then ret cn
                else
                  let dist :=
                    distance_to_point (position (tgo_at w nearby_go))
                                      (position (tgo_at w tgo)) in
                  let in_range :=
                    Qle_bool dist (connection_range_meters iads_role) in
                  if in_range && _is_friendly w cn nearby_go
                  then add_connection_for_tgo w cn nearby_go
                  else ret cn)
             cn registry).
Proof.
  intros cn n. cbv zeta.
  apply (keeps_group_foldM
           (fun cn0 nearby_go =>
              if negb (is_comms_or_power
                         (for_category (category (tgo_at w nearby_go))))
                 || Nat.eqb nearby_go (ground_object (group cn))
              then ret cn0
              else
                if Qle_bool
                     (distance_to_point (position (tgo_at w nearby_go))
                        (position (tgo_at w (ground_object (group cn)))))
                     (connection_range_meters
                        (for_category (category (tgo_at w nearby_go))))
                   && _is_friendly w cn0 nearby_go
                then add_connection_for_tgo w cn0 nearby_go
                else ret cn0)).
  intros go cn0 n0.
  destruct (negb _ || _); [reflexivity|].
  destruct (_ && _); [apply keeps_group_add_connection_for_tgo|reflexivity].
Qed.

Lemma _make_advanced_connections_by_range_extends (self : IadsNetwork)
  (node n : nat) :
  extends self (result (_make_advanced_connections_by_range w self node n)).
Proof.
  unfold _make_advanced_connections_by_range.
  rewrite result_bind_ret.
  apply extends_same_groups; try reflexivity.
  rewrite nodes_set_nodes. apply on_node_groups.
  apply range_step_keeps_group.
Qed.

Lemma _make_advanced_connections_by_range_config (self : IadsNetwork)
  (node n : nat) :
  iads_config (result (_make_advanced_connections_by_range w self node n))
  = iads_config self.
Proof.
  unfold _make_advanced_connections_by_range.
  now rewrite result_bind_ret.
Qed.

Lemma config_step_keeps_group (registry : Dict.t string TgoRef)
  (names : list string) :
  keeps_group
    (fun cn =>
       foldM (fun cn secondary_node =>
                match Dict.get String.eqb secondary_node registry with
                | Some tgo => add_connection_for_tgo w cn tgo
                | None => ret cn
                end)
             cn names).
Proof.
  apply keeps_group_foldM. intros nm cn n.
  destruct (Dict.get String.eqb nm registry);
    [apply keeps_group_add_connection_for_tgo|reflexivity].
Qed.

Lemma _add_connections_from_config_extends (self : IadsNetwork)
  (node n : nat) :
  extends self (result (_add_connections_from_config w self node n)).
Proof.
  unfold _add_connections_from_config.
  destruct (nth_error (nodes self) node) as [cn|]; [|apply extends_refl].
  destruct (Dict.get String.eqb _ (iads_config self)) as [l|];
    rewrite result_bind_ret;
    (apply extends_same_groups; try reflexivity;
     rewrite nodes_set_iads_config, nodes_set_nodes;
     apply on_node_groups; apply config_step_keeps_group).
Qed.

End Shape.

(** ** Construction *)

Lemma filter_none {A} (p : A -> bool) (l : list A) :
  (forall a, In a l -> p a = false) -> filter p l = [].
Proof.
  induction l as [|a l IH]; simpl; intros H; [reflexivity|].
  rewrite (H a (or_introl eq_refl)). apply IH. intros; apply H; now right.
Qed.

Lemma nodes_on_unique (self : IadsNetwork) (t : TgoRef) :
  NoDup (anchors (nodes self)) -> nodes_on self t <= 1.
Proof.
  unfold nodes_on. induction (nodes self) as [|cn ns IH]; simpl; [lia|].
  intros Hnd. inversion Hnd as [|? ? Hnot Hnd']; subst.
  unfold anchored_on at 1. destruct (Nat.eqb_spec (ground_object (group cn)) t).
  - simpl. subst t.
    replace (filter (anchored_on (ground_object (group cn))) ns) with
      (@nil IadsNetworkNode); [simpl; lia|].
    symmetry. apply filter_none. intros cn' Hcn'.
    unfold anchored_on. apply Nat.eqb_neq. intros Heq. apply Hnot.
    unfold anchors. apply in_map_iff. now exists cn'.
  - now apply IH.
Qed.

Lemma nodes_on_anchored (self : IadsNetwork) (t : TgoRef) :
  In t (anchors (nodes self)) -> 1 <= nodes_on self t.
Proof.
  unfold nodes_on, anchors. intros Hin. apply in_map_iff in Hin.
  destruct Hin as [cn [Hcn Hin]].
  assert (Hf : In cn (filter (anchored_on t) (nodes self))).
  { apply filter_In. split; [exact Hin|]. unfold anchored_on.
    now apply Nat.eqb_eq. }
  destruct (filter (anchored_on t) (nodes self)); [destruct Hf|simpl; lia].
Qed.

Section Construction.
Context {catalog : RoleCatalog} {theater : Theater}.
Variable w : World.

Lemma basic_step_extends (self : IadsNetwork) (go : TgoRef) (n : nat) :
  extends self
    (result
       ((if is_iads_ground_object (tgo_at w go) then
           found <- node_for_tgo w self go ;; ret (fst found)
         else ret self) n)).
Proof.
  destruct (is_iads_ground_object (tgo_at w go)); [|apply extends_refl].
  rewrite result_bind_ret. apply node_for_tgo_extends.
Qed.

Lemma initialize_basic_iads_extends (self : IadsNetwork) (n : nat) :
  extends self (result (initialize_basic_iads w self n)).
Proof.
  unfold initialize_basic_iads.
  apply (foldM_rel extends); auto using extends_refl.
  - apply extends_trans.
  - intros a b n0 _. apply basic_step_extends.
Qed.

Lemma initialize_basic_iads_covers (self : IadsNetwork) (n : nat)
  (t : TgoRef) :
  In t (Dict.values (ground_objects self)) ->
  is_iads_ground_object (tgo_at w t) = true ->
  scan_primary w (groups_of w t) <> None ->
  In t (anchors (nodes (result (initialize_basic_iads w self n)))).
Proof.
  intros Hin Hclass Hscan. unfold initialize_basic_iads.
  apply (foldM_covers extends
           (fun go self' =>
              is_iads_ground_object (tgo_at w go) = true ->
              scan_primary w (groups_of w go) <> None ->
              In go (anchors (nodes self'))));
    auto using extends_refl.
  - apply extends_trans.
  - intros a b n0. apply basic_step_extends.
  - intros a a' b Hext Hq Hc Hs. eapply extends_anchored; eauto.
  - intros a b n0 Hc Hs. rewrite Hc, result_bind_ret.
    now apply node_for_tgo_anchors.
Qed.

Lemma range_pass_step_extends (self : IadsNetwork) (sel : bool)
  (go : TgoRef) (n : nat) :
  extends self
    (result
       ((if sel then
           found <- node_for_tgo w self go ;;
           let '(self, node) := found in
           match node with
           | None => ret self
           | Some node => _make_advanced_connections_by_range w self node
           end
         else ret self) n)).
Proof.
  destruct sel; [|apply extends_refl]. rewrite result_bind_M.
  pose proof (node_for_tgo_extends w self go n) as Hext.
  destruct (result (node_for_tgo w self go n)) as [self1 [node|]];
    simpl fst in Hext; [|exact Hext].
  eapply extends_trans; [exact Hext|].
  apply _make_advanced_connections_by_range_extends.
Qed.

Lemma initialize_network_from_range_extends (self : IadsNetwork) (n : nat) :
  extends self (result (initialize_network_from_range w self n)).
Proof.
  unfold initialize_network_from_range.
  apply (foldM_rel extends); auto using extends_refl.
  - apply extends_trans.
  - intros a b n0 _. cbv zeta. apply range_pass_step_extends.
Qed.

Lemma initialize_network_from_range_covers (self : IadsNetwork) (n : nat)
  (t : TgoRef) :
  In t (Dict.values (ground_objects self)) ->
  selected_by_range w t = true ->
  scan_primary w (groups_of w t) <> None ->
  In t (anchors (nodes (result (initialize_network_from_range w self n)))).
Proof.
  intros Hin Hsel Hscan. unfold initialize_network_from_range.
  apply (foldM_covers extends
           (fun go self' =>
              selected_by_range w go = true ->
              scan_primary w (groups_of w go) <> None ->
              In go (anchors (nodes self'))));
    auto using extends_refl.
  - apply extends_trans.
  - intros a b n0. cbv zeta. apply range_pass_step_extends.
  - intros a a' b Hext Hq Hc Hs. eapply extends_anchored; eauto.
  - intros a b n0 Hc Hs. cbv zeta. unfold selected_by_range in Hc.
    rewrite Hc, result_bind_M.
    pose proof (node_for_tgo_anchors w a b n0 Hs) as Hanchor.
    destruct (result (node_for_tgo w a b n0)) as [self1 [node|]];
      simpl fst in Hanchor; [|exact Hanchor].
    eapply extends_anchored; [|exact Hanchor].
    apply _make_advanced_connections_by_range_extends.
Qed.

Lemma config_pass_step_extends (self : IadsNetwork) (key : string)
  (n : nat) :
  extends self
    (result
       ((found <-
           match Dict.get String.eqb key (ground_objects self) with
           | Some tgo => node_for_tgo w self tgo
           | None => ret (self, None)
           end ;;
         let '(self, node) := found in
         match node with
         | None => ret self
         | Some node => _add_connections_from_config w self node
         end) n)).
Proof.
  rewrite result_bind_M.
  destruct (Dict.get String.eqb key (ground_objects self)) as [tgo|].
  - pose proof (node_for_tgo_extends w self tgo n) as Hext.
    destruct (result (node_for_tgo w self tgo n)) as [self1 [node|]];
      simpl fst in Hext; [|exact Hext].
    eapply extends_trans; [exact Hext|].
    apply _add_connections_from_config_extends.
  - apply extends_refl.
Qed.

Lemma initialize_network_from_config_extends (self : IadsNetwork) (n : nat) :
  extends self (result (initialize_network_from_config w self n)).
Proof.
  unfold initialize_network_from_config.
  apply (foldM_rel extends); auto using extends_refl.
  - apply extends_trans.
  - intros a b n0 _. apply config_pass_step_extends.
Qed.

Lemma initialize_network_from_config_covers (self : IadsNetwork) (n : nat)
  (key : string) (t : TgoRef) :
  In key (Dict.keys (iads_config self)) ->
  Dict.get String.eqb key (ground_objects self) = Some t ->
  scan_primary w (groups_of w t) <> None ->
  In t (anchors (nodes (result (initialize_network_from_config w self n)))).
Proof.
  intros Hin Hget Hscan.
  assert (Hq :
    forall t0,
      Dict.get String.eqb key
        (ground_objects (result (initialize_network_from_config w self n)))
      = Some t0 ->
      scan_primary w (groups_of w t0) <> None ->
      In t0 (anchors
               (nodes (result (initialize_network_from_config w self n))))).
  { unfold initialize_network_from_config.
    apply (foldM_covers extends
             (fun key self' =>
                forall t0,
                  Dict.get String.eqb key (ground_objects self') = Some t0 ->
                  scan_primary w (groups_of w t0) <> None ->
                  In t0 (anchors (nodes self'))));
      auto using extends_refl.
    - apply extends_trans.
    - intros a b n0. apply config_pass_step_extends.
    - intros a a' b Hext Hq t0 Hg Hs.
      eapply extends_anchored; [exact Hext|].
      apply Hq; [|exact Hs]. destruct Hext as [_ [Hreg _]]. congruence.
    - intros a b n0 t0 Hg Hs.
      pose proof (config_pass_step_extends a b n0) as Hext.
      destruct Hext as [_ [Hreg _]]. rewrite Hreg in Hg.
      rewrite result_bind_M, Hg.
      pose proof (node_for_tgo_anchors w a t0 n0 Hs) as Hanchor.
      destruct (result (node_for_tgo w a t0 n0)) as [self1 [node|]];
        simpl fst in Hanchor; [|exact Hanchor].
      eapply extends_anchored; [|exact Hanchor].
      apply _add_connections_from_config_extends. }
  apply Hq; [|exact Hscan].
  destruct (initialize_network_from_config_extends self n) as [_ [Hreg _]].
  congruence.
Qed.

Lemma initialize_advanced_extends (self : IadsNetwork) (n : nat) :
  extends self (result (initialize_advanced w self n)).
Proof.
  unfold initialize_advanced.
  destruct (advanced_iads self); [|apply extends_refl].
  destruct (Dict.truthy (iads_config self)).
  - apply initialize_network_from_config_extends.
  - apply initialize_network_from_range_extends.
Qed.

Lemma register_ground_objects_nodes (self : IadsNetwork) (tgos : list TgoRef) :
  nodes (register_ground_objects self tgos) = nodes self
  /\ advanced_iads (register_ground_objects self tgos) = advanced_iads self
  /\ iads_config (register_ground_objects self tgos) = iads_config self.
Proof.
  unfold register_ground_objects. revert self.
  induction tgos as [|t tgos IH]; intros self; simpl; [auto|].
  destruct (IH (set_ground_objects self
                  (Dict.set String.eqb (original_name t) t
                     (ground_objects self)))) as [H1 [H2 H3]].
  rewrite H1, H2, H3. auto.
Qed.

(** The network [initialize_network] returns, from the network the
    advanced block leaves. *)
Lemma result_initialize_network (self : IadsNetwork) (tgos : list TgoRef)
  (n : nat) :
  let r1 := initialize_advanced w (register_ground_objects self tgos) n in
  result (initialize_network w self tgos n) =
  match nodes (result r1) with
  | [] => result (initialize_basic_iads w (result r1) (supply r1))
  | _ :: _ => result r1
  end.
Proof.
  intros r1. unfold initialize_network. rewrite result_bind_M. fold r1.
  now destruct (nodes (result r1)).
Qed.

Lemma initialize_network_extends (self : IadsNetwork) (tgos : list TgoRef)
  (n : nat) :
  extends (register_ground_objects self tgos)
          (result (initialize_network w self tgos n)).
Proof.
  rewrite result_initialize_network. cbv zeta.
  pose proof (initialize_advanced_extends
                (register_ground_objects self tgos) n) as Hext.
  destruct (nodes (result (initialize_advanced w
                             (register_ground_objects self tgos) n)));
    [|exact Hext].
  eapply extends_trans; [exact Hext|]. apply initialize_basic_iads_extends.
Qed.

Lemma mem_keys {V} (k : string) (d : Dict.t string V) :
  Dict.mem String.eqb k d = true -> In k (Dict.keys d).
Proof.
  unfold Dict.mem. intros H.
  destruct (Dict.get String.eqb k d) as [v|] eqn:Hget; [|discriminate].
  apply (DictFacts.get_In String.eqb String.eqb_eq) in Hget.
  unfold Dict.keys. apply in_map_iff. now exists (k, v).
Qed.

Lemma get_values {V} (k : string) (v : V) (d : Dict.t string V) :
  Dict.get String.eqb k d = Some v -> In v (Dict.values d).
Proof.
  intros Hget. apply (DictFacts.get_In String.eqb String.eqb_eq) in Hget.
  unfold Dict.values. apply in_map_iff. now exists (k, v).
Qed.

(** The ground objects selected by the construction in force and held by
    the registry have a node after [initialize_network] on a network
    without nodes. *)
Lemma initialize_network_covers (self : IadsNetwork) (tgos : list TgoRef)
  (n : nat) (t : TgoRef) :
  nodes self = [] ->
  registered (register_ground_objects self tgos) t ->
  selected w self t = true ->
  scan_primary w (groups_of w t) <> None ->
  In t (anchors (nodes (result (initialize_network w self tgos n)))).
Proof.
  intros Hnil Hreg Hsel Hscan.
  destruct (register_ground_objects_nodes self tgos) as [Hn [Ha Hc]].
  set (self0 := register_ground_objects self tgos) in *.
  rewrite result_initialize_network. cbv zeta. fold self0.
  assert (Hin : In t (Dict.values (ground_objects self0)))
    by (eapply get_values; exact Hreg).
  unfold selected in Hsel. rewrite <- Ha, <- Hc in Hsel.
  unfold initialize_advanced.
  destruct (advanced_iads self0).
  - assert (Hcov :
      In t (anchors
              (nodes
                 (result
                    ((if Dict.truthy (iads_config self0)
                      then initialize_network_from_config w self0
                      else initialize_network_from_range w self0) n))))).
    { destruct (Dict.truthy (iads_config self0)).
      - eapply initialize_network_from_config_covers;
          [apply mem_keys; exact Hsel|exact Hreg|exact Hscan].
      - now apply initialize_network_from_range_covers. }
    set (self1 := result
                    ((if Dict.truthy (iads_config self0)
                      then initialize_network_from_config w self0
                      else initialize_network_from_range w self0) n)) in *.
    destruct (nodes self1) eqn:Hnodes; [destruct Hcov|].
    change (In t (anchors (nodes self1))). now rewrite Hnodes.
  - unfold ret at 1 2. unfold result at 1 2. simpl fst.
    rewrite Hn, Hnil.
    now apply initialize_basic_iads_covers.
Qed.

(** *** The registry and the configuration *)

Lemma IadsNetwork_init_fresh (advanced : bool)
  (iads_data : list IadsDataElement) (self : IadsNetwork) :
  IadsNetwork_init advanced iads_data = Ok self -> fresh_network self.
Proof.
  unfold IadsNetwork_init.
  destruct (load_iads_config iads_data []); simpl; [|discriminate].
  intros [= <-]. split; reflexivity.
Qed.

Lemma fresh_network_consistent (self : IadsNetwork) :
  fresh_network self -> registry_consistent self.
Proof. intros [Hreg _] k t. rewrite Hreg. discriminate. Qed.

Lemma register_ground_objects_consistent (self : IadsNetwork)
  (tgos : list TgoRef) :
  registry_consistent self ->
  registry_consistent (register_ground_objects self tgos).
Proof.
  unfold register_ground_objects. revert self.
  induction tgos as [|t tgos IH]; intros self Hc; [exact Hc|].
  simpl. apply IH. intros k t0. rewrite ground_objects_set_ground_objects.
  destruct (String.eqb_spec k (original_name t)) as [->|Hne].
  - rewrite (DictFacts.get_set_same String.eqb String.eqb_eq).
    now intros [= <-].
  - rewrite (DictFacts.get_set_other String.eqb String.eqb_eq) by exact Hne.
    apply Hc.
Qed.

Lemma extends_consistent (self self' : IadsNetwork) :
  extends self self' -> registry_consistent self ->
  registry_consistent self'.
Proof. intros [_ [Hreg _]] Hc k t. rewrite Hreg. apply Hc. Qed.

Lemma _add_connections_from_config_keeps (self : IadsNetwork) (node n : nat)
  (cn : IadsNetworkNode) :
  nth_error (nodes self) node = Some cn ->
  In (original_name (ground_object (group cn)))
     (Dict.keys (iads_config self)) ->
  iads_config (result (_add_connections_from_config w self node n))
  = iads_config self.
Proof.
  intros Hi Hkey. unfold _add_connections_from_config. rewrite Hi.
  destruct (Dict.get String.eqb _ (iads_config self)) as [l|] eqn:Hget.
  - now rewrite result_bind_ret.
  - apply (DictFacts.get_None String.eqb String.eqb_eq) in Hget.
    contradiction.
Qed.

(** On a registry that holds its objects under their names, the loop of
    [initialize_network_from_config] reads the configuration at keys it
    has: the [defaultdict] is not resized while its keys are iterated. *)
Lemma initialize_network_from_config_keeps_config (self : IadsNetwork)
  (n : nat) :
  registry_consistent self ->
  iads_config (result (initialize_network_from_config w self n))
  = iads_config self.
Proof.
  intros Hc.
  assert (H :
    ground_objects self = ground_objects self
    /\ iads_config self = iads_config self ->
    ground_objects (result (initialize_network_from_config w self n))
    = ground_objects self
    /\ iads_config (result (initialize_network_from_config w self n))
       = iads_config self); [|now apply H].
  unfold initialize_network_from_config.
  apply (foldM_rel
           (fun a b =>
              ground_objects a = ground_objects self
              /\ iads_config a = iads_config self ->
              ground_objects b = ground_objects self
              /\ iads_config b = iads_config self)); auto.
  intros a key n0 Hkey [Hreg Hcfg]. rewrite result_bind_M.
  destruct (Dict.get String.eqb key (ground_objects a)) as [t|] eqn:Hget;
    [|now split].
  assert (Hname : original_name t = key)
    by (apply Hc; now rewrite <- Hreg).
  destruct (node_for_tgo_cases w a t n0)
    as [[i [cn [Hr [_ [Hi Hcn]]]]]
       |[[_ [_ [Hr _]]]|[_ [g [later [_ [Hg [Hr _]]]]]]]];
    rewrite Hr.
  - split.
    + destruct (_add_connections_from_config_extends w a i
                  (supply (node_for_tgo w a t n0))) as [_ [H _]].
      congruence.
    + rewrite (@_add_connections_from_config_keeps a i _ cn Hi); [exact Hcfg|].
      rewrite Hcn, Hname, Hcfg. exact Hkey.
  - now split.
  - split.
    + destruct (_add_connections_from_config_extends w
                  (set_nodes a
                     (nodes a
                      ++ [attach (IadsNetworkNode_init g) n0
                            (filter (living_point_defense w) later)]))
                  (List.length (nodes a))
                  (supply (node_for_tgo w a t n0))) as [_ [H _]].
      rewrite H. exact Hreg.
    + rewrite (@_add_connections_from_config_keeps _ _ _
                 (attach (IadsNetworkNode_init g) n0
                    (filter (living_point_defense w) later))).
      * exact Hcfg.
      * rewrite nodes_set_nodes, nth_error_app2, Nat.sub_diag by lia.
        reflexivity.
      * simpl group. rewrite Hg, Hname, iads_config_set_nodes, Hcfg.
        exact Hkey.
Qed.

End Construction.

(** ** Silent computations *)

Lemma silent_ret {A} (a : A) : silent (ret a).
Proof. intros n. reflexivity. Qed.

Lemma silent_bind {A B} (m : M A) (k : A -> M B) :
  silent m -> (forall a, silent (k a)) -> silent (bind m k).
Proof.
  intros Hm Hk n. rewrite emitted_bind_M, Hm, Hk. reflexivity.
Qed.

Lemma silent_foldM {A B} (f : A -> B -> M A) (l : list B) :
  (forall a b, silent (f a b)) -> forall a, silent (foldM f a l).
Proof.
  intros Hf. induction l as [|b l IH]; intros a n; [reflexivity|].
  rewrite emitted_foldM_cons, Hf, IH. reflexivity.
Qed.

Lemma silent_on_node (i : nat) (f : IadsNetworkNode -> M IadsNetworkNode)
  (ns : list IadsNetworkNode) :
  (forall cn, silent (f cn)) -> silent (on_node i f ns).
Proof.
  intros Hf. unfold on_node.
  destruct (nth_error ns i) as [cn|]; [|apply silent_ret].
  apply silent_bind; [apply Hf|intros; apply silent_ret].
Qed.

Lemma silent_add_connection_for_group cn g :
  silent (add_connection_for_group cn g).
Proof. intros n. reflexivity. Qed.

Section Silent.
Context {catalog : RoleCatalog} {theater : Theater}.
Variable w : World.

Lemma silent_add_connection_for_tgo cn tgo :
  silent (add_connection_for_tgo w cn tgo).
Proof.
  unfold add_connection_for_tgo. apply silent_foldM. intros a g.
  destruct (_ && _);
    [apply silent_add_connection_for_group|apply silent_ret].
Qed.

Lemma silent__make_advanced_connections_by_range self node :
  silent (_make_advanced_connections_by_range w self node).
Proof.
  unfold _make_advanced_connections_by_range.
  apply silent_bind; [|intros; apply silent_ret].
  apply silent_on_node. intros cn. cbv zeta. apply silent_foldM.
  intros a go. cbv zeta. destruct (negb _ || _); [apply silent_ret|].
  destruct (_ && _); [apply silent_add_connection_for_tgo|apply silent_ret].
Qed.

Lemma silent__add_connections_from_config self node :
  silent (_add_connections_from_config w self node).
Proof.
  unfold _add_connections_from_config.
  destruct (nth_error (nodes self) node) as [cn|]; [|apply silent_ret].
  destruct (Dict.get String.eqb _ (iads_config self)) as [l|];
    (apply silent_bind; [|intros; apply silent_ret];
     apply silent_on_node; intros cn0; apply silent_foldM; intros a nm;
     destruct (Dict.get String.eqb nm (ground_objects self));
     [apply silent_add_connection_for_tgo|apply silent_ret]).
Qed.

End Silent.

(** ** Updates *)

Lemma emit_deletions (ids : list UUID) (n : nat) :
  foldM (fun _ cID => emit (delete_iads_connection cID)) tt ids n =
  (tt, n, map delete_iads_connection ids).
Proof.
  induction ids as [|cID ids IH]; [reflexivity|].
  rewrite foldM_cons. unfold emit at 1. run. now rewrite IH.
Qed.

Lemma remove_existing_nodes_none (tgo : TgoRef)
  (ns : list IadsNetworkNode) (n : nat) :
  (forall cn, In cn ns -> anchored_on tgo cn = false) ->
  remove_existing_nodes tgo ns n = (ns, n, []).
Proof.
  induction ns as [|cn ns IH]; intros Hns; [reflexivity|].
  simpl. rewrite (Hns cn (or_introl eq_refl)).
  unfold bind. rewrite IH by (intros; apply Hns; now right).
  reflexivity.
Qed.

Lemma deletions_for_none (tgo : TgoRef) (ns : list IadsNetworkNode) :
  (forall cn, In cn ns -> anchored_on tgo cn = false) ->
  deletions_for tgo ns = [].
Proof.
  induction ns as [|cn ns IH]; intros Hns; [reflexivity|].
  unfold deletions_for. simpl. rewrite (Hns cn (or_introl eq_refl)).
  apply IH. intros; apply Hns; now right.
Qed.

Lemma filter_all {A} (p : A -> bool) (l : list A) :
  (forall a, In a l -> p a = true) -> filter p l = l.
Proof.
  induction l as [|a l IH]; simpl; intros H; [reflexivity|].
  rewrite (H a (or_introl eq_refl)). f_equal. apply IH.
  intros; apply H; now right.
Qed.

(** With at most one node per ground object, the loop of [update_tgo]
    removes the node of [tgo], if any, and notifies the deletion of each of
    its connections. *)
Lemma remove_existing_nodes_unique (tgo : TgoRef)
  (ns : list IadsNetworkNode) (n : nat) :
  NoDup (anchors ns) ->
  remove_existing_nodes tgo ns n =
  (filter (not_anchored_on tgo) ns, n, deletions_for tgo ns).
Proof.
  induction ns as [|cn ns IH]; intros Hnd; [reflexivity|].
  inversion Hnd as [|? ? Hnot Hnd']; subst.
  simpl remove_existing_nodes. unfold deletions_for. simpl.
  unfold not_anchored_on at 1.
  destruct (anchored_on tgo cn) eqn:Hcn; simpl.
  - assert (Hrest : forall cn', In cn' ns -> anchored_on tgo cn' = false).
    { intros cn' Hin. unfold anchored_on in *. apply Nat.eqb_eq in Hcn.
      apply Nat.eqb_neq. intros Heq. apply Hnot. unfold anchors.
      apply in_map_iff. exists cn'. split; [congruence|exact Hin]. }
    fold (deletions_for tgo ns). rewrite (deletions_for_none _ _ Hrest).
    rewrite filter_all
      by (intros a Ha; unfold not_anchored_on; now rewrite (Hrest a Ha)).
    unfold bind. rewrite emit_deletions.
    destruct ns as [|unvisited rest]; [reflexivity|].
    rewrite remove_existing_nodes_none
      by (intros; apply Hrest; now right).
    reflexivity.
  - unfold bind. rewrite (IH Hnd'). unfold ret. run.
    now rewrite app_nil_r.
Qed.

Lemma anchors_filter_In (p : IadsNetworkNode -> bool)
  (ns : list IadsNetworkNode) (t : TgoRef) :
  In t (anchors (filter p ns)) -> In t (anchors ns).
Proof.
  unfold anchors. rewrite !in_map_iff. intros [cn [Hcn Hin]].
  exists cn. split; [exact Hcn|]. apply filter_In in Hin. tauto.
Qed.

Lemma anchors_filter_NoDup (p : IadsNetworkNode -> bool)
  (ns : list IadsNetworkNode) :
  NoDup (anchors ns) -> NoDup (anchors (filter p ns)).
Proof.
  induction ns as [|cn ns IH]; simpl; intros Hnd; [constructor|].
  inversion Hnd as [|? ? Hnot Hnd']; subst.
  destruct (p cn); simpl; [|now apply IH].
  constructor; [|now apply IH].
  intros Hin. apply Hnot. eapply anchors_filter_In. exact Hin.
Qed.

Lemma not_anchored_after_removal (tgo : TgoRef) (ns : list IadsNetworkNode) :
  find_index (anchored_on tgo) (filter (not_anchored_on tgo) ns) = None.
Proof.
  apply find_index_None. intros cn Hcn. apply filter_In in Hcn.
  destruct Hcn as [_ Hcn]. unfold not_anchored_on in Hcn.
  now destruct (anchored_on tgo cn).
Qed.

Section Update.
Context {catalog : RoleCatalog} {theater : Theater}.
Variable w : World.

(** The path of [update_tgo] that rebuilds the node of a ground object. *)
Lemma update_tgo_primary (self : IadsNetwork) (tgo : TgoRef) (n : nat) :
  advanced_iads self
  && is_comms_or_power (for_category (category (tgo_at w tgo))) = false ->
  NoDup (anchors (nodes self)) ->
  let kept := filter (not_anchored_on tgo) (nodes self) in
  let deletions := deletions_for tgo (nodes self) in
  match scan_primary w (groups_of w tgo) with
  | None => update_tgo w self tgo n = (Ok (set_nodes self kept), n, deletions)
  | Some (g, later) =>
      let pds := filter (living_point_defense w) later in
      let self1 :=
        set_nodes self (kept ++ [attach (IadsNetworkNode_init g) n pds]) in
      let resolve :=
        if advanced_iads self then
          if Dict.truthy (iads_config self)
          then _add_connections_from_config w self1 (List.length kept)
          else _make_advanced_connections_by_range w self1 (List.length kept)
        else ret self1 in
      let r := resolve (n + List.length pds) in
      update_tgo w self tgo n =
      (Ok (result r), supply r, deletions ++ [update_iads_node g])
  end.
Proof.
  intros Hpath Hnd kept deletions.
  assert (Hnew := @node_for_tgo_new _ w (set_nodes self kept) tgo n
                    (not_anchored_after_removal tgo (nodes self))).
  rewrite nodes_set_nodes in Hnew.
  destruct (scan_primary w (groups_of w tgo)) as [[g later]|];
    cbv zeta in *; unfold update_tgo; rewrite Hpath;
    (erewrite bind_run_eq
       by (apply remove_existing_nodes_unique; exact Hnd));
    fold kept; fold deletions;
    (erewrite bind_run_eq by exact Hnew).
  - rewrite set_nodes_set_nodes, !nodes_set_nodes.
    rewrite nth_error_app2, Nat.sub_diag by lia. simpl nth_error.
    rewrite advanced_set_nodes, iads_config_set_nodes. simpl group.
    erewrite bind_run_eq by reflexivity.
    destruct (advanced_iads self).
    + destruct (Dict.truthy (iads_config self)).
      * rewrite result_bind_ret, supply_bind_M, emitted_bind_M.
        rewrite silent__add_connections_from_config. reflexivity.
      * rewrite result_bind_ret, supply_bind_M, emitted_bind_M.
        rewrite silent__make_advanced_connections_by_range. reflexivity.
    + reflexivity.
  - unfold ret. run. now rewrite app_nil_r.
Qed.

Lemma keeps_group_scan_connections (tgo : TgoRef) :
  keeps_group (scan_connections w tgo).
Proof.
  intros cn n. unfold scan_connections.
  now rewrite result_bind_ret.
Qed.

Lemma _update_network_shape (self : IadsNetwork) (tgo : TgoRef) (n : nat) :
  let self' := result (_update_network w self tgo n) in
  map group (nodes self') = map group (nodes self)
  /\ advanced_iads self' = advanced_iads self
  /\ ground_objects self' = ground_objects self
  /\ iads_config self' = iads_config self.
Proof.
  unfold _update_network.
  destruct (is_dead (tgo_at w tgo)); [now repeat split|].
  cbv zeta.
  destruct (negb (is_comms_or_power
                    (for_category (category (tgo_at w tgo)))));
    [now repeat split|].
  rewrite result_bind_ret. repeat split.
  rewrite nodes_set_nodes. apply mapM_groups. intros cn n0.
  destruct (_ && _); [|reflexivity].
  rewrite result_bind_M, result_bind_M. unfold ret, result at 1. simpl fst.
  apply keeps_group_add_connection_for_tgo.
Qed.

Lemma _update_iads_comms_and_power_shape (self self' : IadsNetwork)
  (tgo : TgoRef) (n : nat) :
  result (_update_iads_comms_and_power w self tgo n) = Ok self' ->
  map group (nodes self') = map group (nodes self)
  /\ advanced_iads self' = advanced_iads self
  /\ ground_objects self' = ground_objects self
  /\ iads_config self' = iads_config self.
Proof.
  unfold _update_iads_comms_and_power.
  destruct (negb (advanced_iads self)); [discriminate|].
  cbv zeta.
  destruct (negb (is_comms_or_power
                    (for_category (category (tgo_at w tgo)))));
    [discriminate|].
  rewrite result_bind_M. rewrite iads_config_set_nodes.
  assert (Hscan :
    map group (result (mapM (scan_connections w tgo) (nodes self) n))
    = map group (nodes self))
    by (apply mapM_groups; apply keeps_group_scan_connections).
  destruct (negb (Dict.truthy (iads_config self))).
  - rewrite result_bind_ret. intros [= <-].
    destruct (_update_network_shape
                (set_nodes self
                   (result (mapM (scan_connections w tgo) (nodes self) n)))
                tgo
                (supply (mapM (scan_connections w tgo) (nodes self) n)))
      as [H1 [H2 [H3 H4]]].
    rewrite H1, H2, H3, H4, nodes_set_nodes. now repeat split.
  - intros [= <-]. rewrite nodes_set_nodes. now repeat split.
Qed.

(** [update_tgo] returns: the assertions of
    [_update_iads_comms_and_power] hold where it is called. *)
Lemma update_tgo_returns (self : IadsNetwork) (tgo : TgoRef) (n : nat) :
  exists self', result (update_tgo w self tgo n) = Ok self'.
Proof.
  unfold update_tgo.
  destruct (advanced_iads self
            && is_comms_or_power (for_category (category (tgo_at w tgo))))
    eqn:Hpath.
  - apply andb_true_iff in Hpath. destruct Hpath as [Hadv Hrole].
    unfold _update_iads_comms_and_power. rewrite Hadv, Hrole. cbn [negb].
    cbv zeta. rewrite result_bind_M.
    destruct (negb (Dict.truthy _)).
    + rewrite result_bind_ret. eexists. reflexivity.
    + eexists. reflexivity.
  - rewrite result_bind_M, result_bind_M.
    destruct (result (node_for_tgo w _ tgo _)) as [self1 [node|]].
    + rewrite result_bind_M. destruct (advanced_iads self1).
      * destruct (Dict.truthy (iads_config self1));
          rewrite result_bind_ret; eexists; reflexivity.
      * eexists. reflexivity.
    + eexists. reflexivity.
Qed.

(** [update_tgo] keeps at most one node per ground object. *)
Lemma update_tgo_unique (self self' : IadsNetwork) (tgo : TgoRef) (n : nat) :
  NoDup (anchors (nodes self)) ->
  result (update_tgo w self tgo n) = Ok self' ->
  NoDup (anchors (nodes self')).
Proof.
  intros Hnd.
  destruct (advanced_iads self
            && is_comms_or_power (for_category (category (tgo_at w tgo))))
    eqn:Hpath.
  - unfold update_tgo. rewrite Hpath. intros Hres.
    apply _update_iads_comms_and_power_shape in Hres.
    destruct Hres as [Hg _]. now rewrite anchors_map_group, Hg,
      <- anchors_map_group.
  - pose proof (update_tgo_primary self tgo n Hpath Hnd) as Hup.
    cbv zeta in Hup.
    pose proof (node_for_tgo_extends w
                  (set_nodes self (filter (not_anchored_on tgo) (nodes self)))
                  tgo n) as Hext.
    rewrite (@node_for_tgo_new _ w
               (set_nodes self (filter (not_anchored_on tgo) (nodes self)))
               tgo n)
      in Hext
      by (rewrite nodes_set_nodes; apply not_anchored_after_removal).
    assert (Hkept :
      NoDup (anchors
               (nodes (set_nodes self
                         (filter (not_anchored_on tgo) (nodes self))))))
      by (rewrite nodes_set_nodes; now apply anchors_filter_NoDup).
    destruct (scan_primary w (groups_of w tgo)) as [[g later]|].
    + rewrite Hup. unfold result at 1. simpl fst. intros [= <-].
      cbv zeta in Hext. simpl fst in Hext.
      rewrite ?nodes_set_nodes, set_nodes_set_nodes in Hext.
      destruct Hext as [_ [_ [extra [_ Hnd1]]]]. specialize (Hnd1 Hkept).
      destruct (advanced_iads self).
      * destruct (Dict.truthy (iads_config self)).
        -- destruct (_add_connections_from_config_extends w
                       (set_nodes self
                          (filter (not_anchored_on tgo) (nodes self)
                           ++ [attach (IadsNetworkNode_init g) n
                                 (filter (living_point_defense w) later)]))
                       (List.length
                          (filter (not_anchored_on tgo) (nodes self)))
                       (n + List.length
                              (filter (living_point_defense w) later)))
             as [_ [_ [e [_ Hnd2]]]].
           now apply Hnd2.
        -- destruct (_make_advanced_connections_by_range_extends w
                       (set_nodes self
                          (filter (not_anchored_on tgo) (nodes self)
                           ++ [attach (IadsNetworkNode_init g) n
                                 (filter (living_point_defense w) later)]))
                       (List.length
                          (filter (not_anchored_on tgo) (nodes self)))
                       (n + List.length
                              (filter (living_point_defense w) later)))
             as [_ [_ [e [_ Hnd2]]]].
           now apply Hnd2.
      * exact Hnd1.
    + rewrite Hup. unfold result at 1. simpl fst. intros [= <-].
      exact Hkept.
Qed.

End Update.

Section Histories.
Context {catalog : RoleCatalog} {theater : Theater}.

Lemma perform_unique (op : Operation) (st : IadsNetwork * nat) :
  NoDup (anchors (nodes (fst st))) ->
  NoDup (anchors (nodes (fst (perform op st)))).
Proof.
  intros Hnd. destruct op as [w0 tgos|w0 tgo]; simpl.
  - destruct (initialize_network_extends w0 (fst st) tgos (snd st))
      as [_ [_ [e [_ Hnd']]]].
    apply Hnd'.
    destruct (register_ground_objects_nodes (fst st) tgos) as [-> _].
    exact Hnd.
  - destruct (result (update_tgo w0 (fst st) tgo (snd st))) as [self'|e]
      eqn:Hres; [|exact Hnd].
    simpl. eapply update_tgo_unique; eassumption.
Qed.

Lemma perform_all_unique (ops : list Operation) (st : IadsNetwork * nat) :
  NoDup (anchors (nodes (fst st))) ->
  NoDup (anchors (nodes (fst (perform_all ops st)))).
Proof.
  unfold perform_all. revert st.
  induction ops as [|op ops IH]; intros st Hnd; [exact Hnd|].
  simpl. apply IH. now apply perform_unique.
Qed.

Lemma scan_primary_exists (w : World) (gs : list GroupRef) :
  (exists g, In g gs /\ primary_candidate w g = true) ->
  scan_primary w gs <> None.
Proof.
  intros [g [Hin Hg]] Hnone.
  rewrite (proj1 (scan_primary_None w gs) Hnone g Hin) in Hg.
  discriminate.
Qed.

(** C1 (amended): after [initialize_network] on a network just
    constructed, every ground object that the registry holds, that the
    construction in force selects ([selected]) and that has an IADS group
    with a participating role and an alive unit is the ground object of
    exactly one node; and after any sequence of initializations and
    updates, each in a world of its own, no ground object has more than one
    node. *)
Theorem one_node_per_ground_object (w : World) (self : IadsNetwork)
  (tgos : list TgoRef) (n : nat) :
  fresh_network self ->
  (forall t,
      registered (result (initialize_network w self tgos n)) t ->
      selected w self t = true ->
      (exists g, In g (groups_of w t) /\ primary_candidate w g = true) ->
      nodes_on (result (initialize_network w self tgos n)) t = 1)
  /\ (forall ops t, nodes_on (fst (perform_all ops (self, n))) t <= 1).
Proof.
  intros [_ Hnil]. split.
  - intros t Hreg Hsel Hgroup.
    pose proof (initialize_network_extends w self tgos n) as Hext.
    assert (Hle : nodes_on (result (initialize_network w self tgos n)) t <= 1).
    { apply nodes_on_unique. destruct Hext as [_ [_ [e [_ Hnd]]]].
      apply Hnd.
      destruct (register_ground_objects_nodes self tgos) as [-> _].
      rewrite Hnil. constructor. }
    assert (Hge : 1 <= nodes_on (result (initialize_network w self tgos n)) t).
    { apply nodes_on_anchored. apply initialize_network_covers;
        [exact Hnil| |exact Hsel|now apply scan_primary_exists].
      unfold registered in *. destruct Hext as [_ [Hg _]]. congruence. }
    lia.
  - intros ops t. apply nodes_on_unique. apply perform_all_unique.
    simpl. rewrite Hnil. constructor.
Qed.

Lemma basic_step_basic_nodes (w : World) (self : IadsNetwork) (go : TgoRef)
  (n : nat) :
  Forall (basic_node w) (nodes self) ->
  Forall (basic_node w)
    (nodes (result
              ((if is_iads_ground_object (tgo_at w go) then
                  found <- node_for_tgo w self go ;; ret (fst found)
                else ret self) n))).
Proof.
  intros Hall.
  destruct (is_iads_ground_object (tgo_at w go)) eqn:Hclass;
    [|exact Hall].
  rewrite result_bind_ret.
  destruct (node_for_tgo_cases w self go n)
    as [[i [cn [-> _]]]|[[_ [_ [-> _]]]|[Hnot [g [later [Hs [Hg [-> _]]]]]]]];
    try exact Hall.
  simpl fst. rewrite nodes_set_nodes. apply Forall_app. split; [exact Hall|].
  constructor; [|constructor]. unfold basic_node. simpl group.
  rewrite Hg. split; [exact Hclass|]. exists later. split; [exact Hs|].
  now rewrite values_attach.
Qed.

Lemma initialize_basic_iads_basic_nodes (w : World) (self : IadsNetwork)
  (n : nat) :
  Forall (basic_node w) (nodes self) ->
  Forall (basic_node w) (nodes (result (initialize_basic_iads w self n))).
Proof.
  unfold initialize_basic_iads.
  apply (foldM_rel
           (fun a b => Forall (basic_node w) (nodes a) ->
                       Forall (basic_node w) (nodes b))); auto.
  intros a b n0 _. apply basic_step_basic_nodes.
Qed.

(** C5 (amended): when the advanced block of [initialize_network] leaves no
    node, the network returned is the one [initialize_basic_iads] builds
    from there: it has exactly one node for every registered IADS ground
    object that has an IADS group with a participating role and an alive
    unit, no ground object has two, and every node belongs to such an
    object, has its first such group as primary group, and is connected to
    the living point defenses that follow that group in the same object and
    to nothing else. *)
Theorem basic_fallback (w : World) (self : IadsNetwork) (tgos : list TgoRef)
  (n : nat) :
  let r1 := initialize_advanced w (register_ground_objects self tgos) n in
  nodes (result r1) = [] ->
  let final := result (initialize_network w self tgos n) in
  final = result (initialize_basic_iads w (result r1) (supply r1))
  /\ (forall t,
        In t (Dict.values (ground_objects final)) ->
        is_iads_ground_object (tgo_at w t) = true ->
        (exists g, In g (groups_of w t) /\ primary_candidate w g = true) ->
        nodes_on final t = 1)
  /\ (forall cn, In cn (nodes final) -> basic_node w cn)
  /\ (forall t, nodes_on final t <= 1).
Proof.
  intros r1 Hnil final.
  assert (Hfinal :
    final = result (initialize_basic_iads w (result r1) (supply r1))).
  { unfold final. rewrite result_initialize_network. fold r1.
    now rewrite Hnil. }
  pose proof (initialize_basic_iads_extends w (result r1) (supply r1))
    as Hext.
  rewrite <- Hfinal in Hext.
  assert (Hnd : NoDup (anchors (nodes final))).
  { destruct Hext as [_ [_ [e [_ Hnd]]]]. apply Hnd. rewrite Hnil.
    constructor. }
  split; [exact Hfinal|]. split; [|split].
  - intros t Hin Hclass Hgroup.
    assert (Hge : 1 <= nodes_on final t).
    { apply nodes_on_anchored. rewrite Hfinal.
      apply initialize_basic_iads_covers;
        [|exact Hclass|now apply scan_primary_exists].
      destruct Hext as [_ [Hg _]]. now rewrite <- Hg. }
    pose proof (nodes_on_unique final t Hnd). lia.
  - apply Forall_forall. rewrite Hfinal.
    apply initialize_basic_iads_basic_nodes. rewrite Hnil. constructor.
  - intros t. now apply nodes_on_unique.
Qed.

End Histories.

(** C1, as stated, fails.  In range mode the power station [B] has a
    participating group with an alive unit (the very group the radar site
    is connected to) and no node; under a configuration that names [A]
    only, the missile site [C] has none either. *)
Lemma infrastructure_has_no_node :
  let w := Scenario.peace in
  let by_range :=
    result (@initialize_network Scenario.catalog Scenario.theater w
              (Scenario.network true []) [0; 1; 2] 0) in
  let by_config :=
    result (@initialize_network Scenario.catalog Scenario.theater w
              (Scenario.network true [("A", ["B"])]) [0; 1; 2] 0) in
  (In (Scenario.ref 1 0) (groups_of w 1)
   /\ @primary_candidate Scenario.catalog w (Scenario.ref 1 0) = true
   /\ nodes_on by_range 1 = 0)
  /\ (In (Scenario.ref 2 0) (groups_of w 2)
      /\ @primary_candidate Scenario.catalog w (Scenario.ref 2 0) = true
      /\ nodes_on by_config 2 = 0).
Proof. repeat split; simpl; auto. Qed.

Lemma one_node_per_ground_object_witness :
  let w := Scenario.peace in
  let self := Scenario.network true [] in
  nodes_on (result (@initialize_network Scenario.catalog Scenario.theater
                      w self [0; 1; 2] 0)) 0 = 1
  /\ nodes_on (fst (@perform_all Scenario.catalog Scenario.theater
                      [Initialize w [0; 1; 2]; Update Scenario.captured 1;
                       Update w 0]
                      (self, 0))) 0 <= 1.
Proof.
  intros w self.
  destruct (@one_node_per_ground_object Scenario.catalog Scenario.theater
              w self [0; 1; 2] 0 (conj eq_refl eq_refl)) as [H1 H2].
  split.
  - apply H1; [reflexivity|reflexivity|].
    exists (Scenario.ref 0 0). split; [now left|reflexivity].
  - apply H2.
Defined.

(** C5, as stated, fails: the configuration names an object that does not
    exist, the advanced block leaves no node, and the node the basic mode
    builds for the missile site [C] is connected to the point defense of
    the site. *)
Lemma basic_mode_connects_point_defense :
  let w := Scenario.peace in
  let self := Scenario.network true [("missing", [])] in
  nodes (result (@initialize_advanced Scenario.catalog Scenario.theater w
                   (@register_ground_objects Scenario.theater self
                      [0; 1; 2]) 0)) = []
  /\ nodes (result (@initialize_network Scenario.catalog Scenario.theater
                      w self [0; 1; 2] 0))
     = [{| group := Scenario.ref 0 0; connections := [] |};
        {| group := Scenario.ref 2 0;
           connections := [(0, Scenario.ref 2 1)] |}].
Proof. split; reflexivity. Qed.

Lemma basic_fallback_witness :
  let w := Scenario.peace in
  let self := Scenario.network true [("missing", [])] in
  let final :=
    result (@initialize_network Scenario.catalog Scenario.theater w self
              [0; 1; 2] 0) in
  nodes_on final 2 = 1
  /\ @basic_node Scenario.catalog w
       {| group := Scenario.ref 2 0;
          connections := [(0, Scenario.ref 2 1)] |}
  /\ nodes_on final 1 <= 1.
Proof.
  intros w self final.
  destruct (@basic_fallback Scenario.catalog Scenario.theater w self
              [0; 1; 2] 0 eq_refl) as [_ [H2 [H3 H4]]].
  split; [|split].
  - apply H2; [right; right; now left|reflexivity|].
    exists (Scenario.ref 2 0). split; [now left|reflexivity].
  - apply H3. right. now left.
  - apply H4.
Defined.

Lemma add_then_delete_connection_witness :
  let node := {| group := Scenario.ref 0 0;
                 connections := [(0, Scenario.ref 1 0)] |} in
  let node' := result (add_connection_for_group node (Scenario.ref 2 1) 1) in
  group node' = group node
  /\ Dict.get Nat.eqb 1 (connections node') = Some (Scenario.ref 2 1)
  /\ Dict.del Nat.eqb 1 (connections node') = connections node.
Proof.
  intros node.
  apply (@add_then_delete_connection node (Scenario.ref 2 1) 1).
  simpl. intros [H|[]]. discriminate.
Defined.

Lemma first_unit_access_witness :
  let w := Scenario.world_of [(Scenario.no_tgo, [empty_ewr_group])] in
  dcs_name_for_group (group_at w (Scenario.ref 0 0)) = Raise IndexError
  /\ from_group w (Scenario.ref 0 0) = Raise IndexError
  /\ from_group Scenario.peace (Scenario.ref 0 0) <> Raise IndexError.
Proof.
  intros w.
  destruct (first_unit_access w (Scenario.ref 0 0)) as [Hempty _].
  destruct (first_unit_access Scenario.peace (Scenario.ref 0 0))
    as [_ [Hfull _]].
  destruct (Hempty eq_refl) as [Hname Hfrom].
  split; [exact (Hname eq_refl)|]. split; [exact Hfrom|].
  apply Hfull. discriminate.
Defined.

(** ** Range resolution *)

Lemma node_fresh_le (cn : IadsNetworkNode) (n m : nat) :
  n <= m -> node_fresh n cn -> node_fresh m cn.
Proof.
  intros Hle. unfold node_fresh. apply Forall_impl. intros; lia.
Qed.

Lemma Qlt_bool_iff (a b : Q) : Qlt_bool a b = true <-> (a < b)%Q.
Proof.
  unfold Qlt_bool. rewrite negb_true_iff. split.
  - intros H. apply Qnot_le_lt. intros Hle.
    apply Qle_bool_iff in Hle. congruence.
  - intros H. destruct (Qle_bool b a) eqn:E; [|reflexivity].
    apply Qle_bool_iff in E. exfalso. now apply (Qlt_not_le a b).
Qed.

Section Range.
Context {catalog : RoleCatalog} {theater : Theater}.
Variable w : World.

(** Closed form of the initial resolution for the node at position [i]. *)
Lemma _make_advanced_connections_by_range_attach (self : IadsNetwork)
  (i : nat) (cn : IadsNetworkNode) (n : nat) :
  nth_error (nodes self) i = Some cn ->
  node_fresh n cn ->
  let gs := flat_map (range_links w (group cn))
                     (Dict.values (ground_objects self)) in
  _make_advanced_connections_by_range w self i n =
  (set_nodes self
     (firstn i (nodes self) ++ attach cn n gs :: skipn (S i) (nodes self)),
   n + List.length gs, []).
Proof.
  intros Hi Hn gs. unfold _make_advanced_connections_by_range.
  erewrite bind_run_eq.
  2:{ eapply on_node_at; [exact Hi|]. cbv zeta.
      apply (foldM_attach
               (fun cn0 nearby_go =>
                  if negb (is_comms_or_power
                             (for_category (category (tgo_at w nearby_go))))
                     || Nat.eqb nearby_go (ground_object (group cn))
                  then ret cn0
                  else
                    if Qle_bool
                         (distance_to_point (position (tgo_at w nearby_go))
                            (position (tgo_at w (ground_object (group cn)))))
                         (connection_range_meters
                            (for_category (category (tgo_at w nearby_go))))
                       && _is_friendly w cn0 nearby_go
                    then add_connection_for_tgo w cn0 nearby_go
                    else ret cn0)
               (fun g go =>
                  if negb (is_comms_or_power
                             (for_category (category (tgo_at w go))))
                     || Nat.eqb go (ground_object (group cn))
                  then []
                  else
                    if Qle_bool
                         (distance_to_point (position (tgo_at w go))
                            (position (tgo_at w (ground_object (group cn)))))
                         (connection_range_meters
                            (for_category (category (tgo_at w go))))
                       && same_side w g go
                    then participating_groups w go
                    else [])); [|exact Hn].
      intros cn0 go n0 Hn0.
      destruct (negb _ || _).
      - unfold ret. now rewrite attach_nil, Nat.add_0_r.
      - change (_is_friendly w cn0 go) with (same_side w (group cn0) go).
        destruct (_ && _).
        + now apply add_connection_for_tgo_attach.
        + unfold ret. now rewrite attach_nil, Nat.add_0_r. }
  unfold ret. run.
  replace (flat_map _ (Dict.values (ground_objects self))) with gs;
    [reflexivity|].
  unfold gs. apply flat_map_ext. intros go.
  unfold range_links, candidate, initial_distance, range_of.
  destruct (is_comms_or_power (for_category (category (tgo_at w go))));
    simpl; [|reflexivity].
  destruct (Nat.eqb go (ground_object (group cn))); simpl; [reflexivity|].
  destruct (same_side w (group cn) go); simpl;
    [now rewrite andb_true_r|now rewrite andb_false_r].
Qed.

(** Closed form of the loop of [_update_network] over the nodes. *)
Lemma reactive_pass (tgo : TgoRef) (ns : list IadsNetworkNode) :
  forall n, Forall (node_fresh n) ns ->
    let r :=
      mapM (fun node =>
              let dist :=
                distance_to_point
                  (position (tgo_at w (ground_object (group node))))
                  (position (tgo_at w tgo)) in
              let in_range :=
                Qlt_bool dist
                  (connection_range_meters
                     (for_category (category (tgo_at w tgo)))) in
              if in_range && _is_friendly w node tgo then
                node' <- add_connection_for_tgo w node tgo ;;
                emit (update_iads_node (group node')) ;;
                ret node'
              else ret node)
           ns n in
    Forall2 (fun cn cn' => gains (reactive_links w tgo (group cn)) cn cn')
            ns (result r)
    /\ n <= supply r
    /\ Forall (node_fresh (supply r)) (result r)
    /\ Forall (fun e => exists g, e = update_iads_node g) (emitted r).
Proof.
  induction ns as [|cn ns IH]; intros n Hfresh.
  - simpl. repeat split; constructor.
  - inversion Hfresh as [|? ? Hcn Hns]; subst. cbv zeta.
    rewrite mapM_cons.
    assert (Hstep :
      (if Qlt_bool
            (distance_to_point
               (position (tgo_at w (ground_object (group cn))))
               (position (tgo_at w tgo)))
            (connection_range_meters
               (for_category (category (tgo_at w tgo))))
          && _is_friendly w cn tgo
       then
         node' <- add_connection_for_tgo w cn tgo ;;
         emit (update_iads_node (group node')) ;;
         ret node'
       else ret cn) n =
      (attach cn n (reactive_links w tgo (group cn)),
       n + List.length (reactive_links w tgo (group cn)),
       if Qlt_bool (reactive_distance w (group cn) tgo) (range_of w tgo)
          && same_side w (group cn) tgo
       then [update_iads_node (group cn)] else [])).
    { unfold reactive_links, reactive_distance, range_of.
      change (_is_friendly w cn tgo) with (same_side w (group cn) tgo).
      destruct (_ && _).
      - erewrite bind_run_eq
          by (apply add_connection_for_tgo_attach; exact Hcn).
        reflexivity.
      - unfold ret. now rewrite attach_nil, Nat.add_0_r. }
    rewrite Hstep. clear Hstep.
    set (n1 := n + List.length (reactive_links w tgo (group cn))).
    assert (Hns1 : Forall (node_fresh n1) ns).
    { eapply Forall_impl; [|exact Hns]. intros a. apply node_fresh_le.
      unfold n1. lia. }
    specialize (IH n1 Hns1). cbv zeta in IH.
    destruct (mapM _ ns n1) as [[ns' n2] ev2].
    unfold result, supply, emitted in *. simpl in *.
    destruct IH as [Hall [Hle [Hfresh' Hev]]].
    repeat split.
    + constructor; [now exists n|exact Hall].
    + unfold n1 in Hle. lia.
    + constructor; [|exact Hfresh'].
      apply (node_fresh_le (n := n1)); [exact Hle|].
      now apply node_fresh_attach.
    + apply Forall_app. split; [|exact Hev].
      destruct (_ && _); repeat constructor. now exists (group cn).
Qed.

Lemma _update_network_dead (self : IadsNetwork) (tgo : TgoRef) (n : nat) :
  is_dead (tgo_at w tgo) = true -> _update_network w self tgo n = (self, n, []).
Proof. intros Hdead. unfold _update_network. now rewrite Hdead. Qed.

Lemma _update_network_alive (self : IadsNetwork) (tgo : TgoRef) (n : nat) :
  is_dead (tgo_at w tgo) = false ->
  is_comms_or_power (for_category (category (tgo_at w tgo))) = true ->
  Forall (node_fresh n) (nodes self) ->
  let r := _update_network w self tgo n in
  Forall2 (fun cn cn' => gains (reactive_links w tgo (group cn)) cn cn')
          (nodes self) (nodes (result r))
  /\ n <= supply r
  /\ Forall (node_fresh (supply r)) (nodes (result r))
  /\ Forall (fun e => exists g, e = update_iads_node g) (emitted r)
  /\ result r = set_nodes self (nodes (result r)).
Proof.
  intros Hdead Hrole Hfresh r. subst r. unfold _update_network.
  rewrite Hdead. cbv zeta. rewrite Hrole. cbn [negb].
  rewrite result_bind_ret, supply_bind_M, emitted_bind_M.
  unfold ret at 1 2. unfold supply at 1, emitted at 2. simpl fst. simpl snd.
  rewrite nodes_set_nodes, app_nil_r.
  destruct (reactive_pass tgo Hfresh) as [H1 [H2 [H3 H4]]].
  repeat split; assumption.
Qed.

(** C3: with connection identifiers older than the next draw, the initial
    resolution gives the node at position [i] one connection per
    participating group of every candidate whose distance to the node is at
    most its range, the boundary included; the reactive pass for a living
    infrastructure object gives every node on its side one connection per
    participating group of the object when the distance is less than the
    range, the boundary excluded; and the reactive pass for a dead object
    changes nothing and emits nothing. *)
Theorem range_boundaries (self : IadsNetwork) (n : nat) :
  Forall (node_fresh n) (nodes self) ->
  (forall i cn,
      nth_error (nodes self) i = Some cn ->
      nodes (result (_make_advanced_connections_by_range w self i n)) =
      firstn i (nodes self)
      ++ attach cn n (flat_map (range_links w (group cn))
                               (Dict.values (ground_objects self)))
      :: skipn (S i) (nodes self))
  /\ (forall g go,
        candidate w g go = true ->
        ((initial_distance w g go <= range_of w go)%Q ->
         range_links w g go = participating_groups w go)
        /\ ((initial_distance w g go == range_of w go)%Q ->
            range_links w g go = participating_groups w go)
        /\ (~ (initial_distance w g go <= range_of w go)%Q ->
            range_links w g go = []))
  /\ (forall tgo,
        is_dead (tgo_at w tgo) = false ->
        is_comms_or_power (for_category (category (tgo_at w tgo))) = true ->
        Forall2 (fun cn cn' => gains (reactive_links w tgo (group cn)) cn cn')
                (nodes self) (nodes (result (_update_network w self tgo n))))
  /\ (forall tgo g,
        same_side w g tgo = true ->
        ((reactive_distance w g tgo < range_of w tgo)%Q ->
         reactive_links w tgo g = participating_groups w tgo)
        /\ ((reactive_distance w g tgo == range_of w tgo)%Q ->
            reactive_links w tgo g = [])
        /\ (~ (reactive_distance w g tgo < range_of w tgo)%Q ->
            reactive_links w tgo g = []))
  /\ (forall tgo,
        is_dead (tgo_at w tgo) = true ->
        _update_network w self tgo n = (self, n, [])).
Proof.
  intros Hfresh. repeat split.
  - intros i cn Hi.
    rewrite (@_make_advanced_connections_by_range_attach self i cn n Hi).
    + reflexivity.
    + rewrite Forall_forall in Hfresh. apply Hfresh.
      eapply nth_error_In. exact Hi.
  - intros Hle. unfold range_links. rewrite H. simpl.
    now rewrite (proj2 (Qle_bool_iff _ _) Hle).
  - intros Heq. unfold range_links. rewrite H. simpl.
    rewrite (proj2 (Qle_bool_iff _ _)); [reflexivity|].
    rewrite Heq. apply Qle_refl.
  - intros Hnle. unfold range_links. rewrite H. simpl.
    destruct (Qle_bool _ _) eqn:E; [|reflexivity].
    apply Qle_bool_iff in E. contradiction.
  - intros tgo Hdead Hrole.
    now destruct (_update_network_alive self tgo Hdead Hrole Hfresh).
  - intros Hlt. unfold reactive_links. rewrite H, andb_true_r.
    now rewrite (proj2 (Qlt_bool_iff _ _) Hlt).
  - intros Heq. unfold reactive_links. rewrite H, andb_true_r.
    destruct (Qlt_bool _ _) eqn:E; [|reflexivity].
    apply Qlt_bool_iff in E. rewrite Heq in E.
    exfalso. now apply (Qlt_irrefl (range_of w tgo)).
  - intros Hnlt. unfold reactive_links. rewrite H, andb_true_r.
    destruct (Qlt_bool _ _) eqn:E; [|reflexivity].
    apply Qlt_bool_iff in E. contradiction.
  - intros tgo Hdead. now apply _update_network_dead.
Qed.

End Range.

Lemma range_boundaries_witness :
  let w := Scenario.boundary in
  let self := Scenario.radar_only in
  nodes (result (@_make_advanced_connections_by_range Scenario.catalog
                   Scenario.theater w self 0 0))
  = [{| group := Scenario.ref 0 0;
        connections := [(0, Scenario.ref 1 0)] |}]
  /\ @reactive_links Scenario.catalog Scenario.theater w 1
       (Scenario.ref 0 0) = []
  /\ @_update_network Scenario.catalog Scenario.theater Scenario.destroyed
       self 1 0 = (self, 0, []).
Proof.
  intros w self.
  assert (Hfresh : Forall (node_fresh 0) (nodes self))
    by (repeat constructor).
  destruct (@range_boundaries Scenario.catalog Scenario.theater w self 0
              Hfresh) as [H1 [_ [_ [H4 _]]]].
  destruct (@range_boundaries Scenario.catalog Scenario.theater
              Scenario.destroyed self 0 Hfresh) as [_ [_ [_ [_ H5]]]].
  split; [|split].
  - exact (H1 0 _ eq_refl).
  - destruct (H4 1 (Scenario.ref 0 0) eq_refl) as [_ [Hb _]].
    apply Hb. reflexivity.
  - apply H5. reflexivity.
Defined.

(** ** Infrastructure updates *)

Lemma fold_del_skip (k : UUID) (v : GroupRef) (d : Dict.t UUID GroupRef)
  (ids : list UUID) :
  ~ In k ids ->
  fold_left (fun d cID => Dict.del Nat.eqb cID d) ids ((k, v) :: d) =
  (k, v) :: fold_left (fun d cID => Dict.del Nat.eqb cID d) ids d.
Proof.
  revert d. induction ids as [|cID ids IH]; intros d Hk; [reflexivity|].
  simpl. destruct (Nat.eqb_spec cID k) as [->|Hne].
  - exfalso. apply Hk. now left.
  - apply IH. intros Hin. apply Hk. now right.
Qed.

(** Deleting, one by one, the identifiers of the entries that satisfy [p]
    leaves the entries that do not. *)
Lemma fold_del_filter (p : UUID * GroupRef -> bool)
  (d : Dict.t UUID GroupRef) :
  NoDup (Dict.keys d) ->
  fold_left (fun d cID => Dict.del Nat.eqb cID d)
            (map fst (filter p d)) d =
  filter (fun e => negb (p e)) d.
Proof.
  induction d as [|[k v] d IH]; intros Hnd; [reflexivity|].
  inversion Hnd as [|? ? Hk Hnd']; subst. simpl filter.
  destruct (p (k, v)); simpl.
  - rewrite Nat.eqb_refl. now apply IH.
  - rewrite fold_del_skip.
    + f_equal. now apply IH.
    + intros Hin. apply Hk. apply in_map_iff in Hin.
      destruct Hin as [e [<- He]]. apply filter_In in He.
      unfold Dict.keys. apply in_map. tauto.
Qed.

Section Infrastructure.
Context {catalog : RoleCatalog} {theater : Theater}.
Variable w : World.

Lemma scan_loop (tgo : TgoRef) (node : IadsNetworkNode)
  (entries : list (UUID * GroupRef)) :
  forall to_delete n,
    foldM (fun to_delete entry =>
             let '(cID, g) := entry in
             if Nat.eqb (ground_object g) tgo then
               if _is_friendly w node tgo then
                 emit (update_iads_node (group node)) ;;
                 ret to_delete
               else
                 emit (delete_iads_connection cID) ;;
                 ret (to_delete ++ [cID])
             else ret to_delete)
          to_delete entries n =
    (to_delete
     ++ (if same_side w (group node) tgo then []
         else map fst (filter (to_tgo tgo) entries)),
     n,
     map (fun entry =>
            if same_side w (group node) tgo then update_iads_node (group node)
            else delete_iads_connection (fst entry))
         (filter (to_tgo tgo) entries)).
Proof.
  change (_is_friendly w node tgo) with (same_side w (group node) tgo).
  induction entries as [|[cID g] entries IH]; intros to_delete n.
  - simpl. unfold ret. destruct (same_side w (group node) tgo);
      now rewrite app_nil_r.
  - rewrite foldM_cons. simpl filter.
    assert (Hto : to_tgo tgo (cID, g) = Nat.eqb (ground_object g) tgo)
      by reflexivity.
    rewrite Hto. clear Hto.
    destruct (Nat.eqb (ground_object g) tgo).
    + destruct (same_side w (group node) tgo) eqn:Hside.
      * unfold bind, emit, ret. run. rewrite IH. reflexivity.
      * unfold bind, emit, ret. run. rewrite IH.
        simpl. now rewrite <- app_assoc.
    + unfold ret. run. rewrite IH. reflexivity.
Qed.

(** Closed form of the scan of one node. *)
Lemma scan_connections_closed (tgo : TgoRef) (cn : IadsNetworkNode)
  (n : nat) :
  NoDup (Dict.keys (connections cn)) ->
  scan_connections w tgo cn n = (scanned w tgo cn, n, scan_events w tgo cn).
Proof.
  intros Hnd. unfold scan_connections.
  erewrite bind_run_eq by apply scan_loop.
  unfold ret, scanned, scan_events. run. rewrite app_nil_r. simpl app.
  destruct (same_side w (group cn) tgo).
  - simpl. now destruct cn.
  - rewrite (@fold_del_filter (to_tgo tgo) (connections cn) Hnd).
    reflexivity.
Qed.

Lemma scan_pass (tgo : TgoRef) (ns : list IadsNetworkNode) (n : nat) :
  Forall (fun cn => NoDup (Dict.keys (connections cn))) ns ->
  mapM (scan_connections w tgo) ns n =
  (map (scanned w tgo) ns, n, flat_map (scan_events w tgo) ns).
Proof.
  induction ns as [|cn ns IH]; intros Hnd; [reflexivity|].
  inversion Hnd as [|? ? Hcn Hns]; subst.
  rewrite mapM_cons, (@scan_connections_closed tgo cn n Hcn), (IH Hns).
  reflexivity.
Qed.

Lemma all_ids_keys_NoDup (ns : list IadsNetworkNode) :
  NoDup (all_ids ns) ->
  Forall (fun cn => NoDup (Dict.keys (connections cn))) ns.
Proof.
  induction ns as [|cn ns IH]; intros Hnd; constructor.
  - unfold all_ids in Hnd. simpl in Hnd. now apply NoDup_app_remove_r in Hnd.
  - apply IH. unfold all_ids in Hnd. simpl in Hnd.
    now apply NoDup_app_remove_l in Hnd.
Qed.

Lemma keys_filter_In (p : UUID * GroupRef -> bool)
  (d : Dict.t UUID GroupRef) (k : UUID) :
  In k (Dict.keys (filter p d)) -> In k (Dict.keys d).
Proof.
  unfold Dict.keys. rewrite !in_map_iff. intros [e [He Hin]].
  exists e. split; [exact He|]. apply filter_In in Hin. tauto.
Qed.

Lemma node_fresh_scanned (tgo : TgoRef) (cn : IadsNetworkNode) (n : nat) :
  node_fresh n cn -> node_fresh n (scanned w tgo cn).
Proof.
  unfold scanned. destruct (same_side w (group cn) tgo); [auto|].
  unfold node_fresh. simpl. rewrite !Forall_forall. intros H k Hk.
  apply H. eapply keys_filter_In. exact Hk.
Qed.

Lemma group_scanned (tgo : TgoRef) (cn : IadsNetworkNode) :
  group (scanned w tgo cn) = group cn.
Proof. unfold scanned. now destruct (same_side w (group cn) tgo). Qed.

Lemma Forall2_map_left {A B C} (R : B -> C -> Prop) (f : A -> B)
  (l : list A) (l' : list C) :
  Forall2 R (map f l) l' -> Forall2 (fun a c => R (f a) c) l l'.
Proof.
  revert l'. induction l as [|a l IH]; intros l' H; inversion H; subst;
    constructor; auto.
Qed.

Lemma Forall2_map_self {A B} (R : A -> B -> Prop) (f : A -> B)
  (l : list A) :
  (forall a, R a (f a)) -> Forall2 R l (map f l).
Proof. intros H. induction l; constructor; auto. Qed.

Lemma Forall2_impl_In {A B} (R R' : A -> B -> Prop) (l : list A)
  (l' : list B) :
  (forall a b, In a l -> R a b -> R' a b) ->
  Forall2 R l l' -> Forall2 R' l l'.
Proof.
  intros Himp H. induction H as [|a b l l' Hab H IH]; constructor.
  - apply Himp; [now left|exact Hab].
  - apply IH. intros a0 b0 Hin. apply Himp. now right.
Qed.

(** Closed form of [update_tgo] on an infrastructure object in advanced
    mode: every node is scanned, then gains the reactive connections when
    there is no configuration. *)
Lemma update_tgo_infrastructure_closed (self : IadsNetwork) (tgo : TgoRef)
  (n : nat) :
  advanced_iads self = true ->
  is_comms_or_power (for_category (category (tgo_at w tgo))) = true ->
  Forall (node_fresh n) (nodes self) ->
  NoDup (all_ids (nodes self)) ->
  let r := update_tgo w self tgo n in
  exists ns' ev_new,
    result r = Ok (set_nodes self ns')
    /\ emitted r = flat_map (scan_events w tgo) (nodes self) ++ ev_new
    /\ Forall (fun e => exists g, e = update_iads_node g) ev_new
    /\ Forall2 (fun cn cn' =>
                  exists gs,
                    gains gs (scanned w tgo cn) cn'
                    /\ (same_side w (group cn) tgo = false -> gs = []))
               (nodes self) ns'
    /\ n <= supply r
    /\ Forall (node_fresh (supply r)) ns'.
Proof.
  intros Hadv Hrole Hfresh Hnd r. subst r.
  unfold update_tgo. rewrite Hadv, Hrole. cbn [andb].
  unfold _update_iads_comms_and_power. rewrite Hadv, Hrole. cbn [negb].
  cbv zeta.
  erewrite bind_run_eq
    by (apply scan_pass; now apply all_ids_keys_NoDup).
  rewrite iads_config_set_nodes.
  assert (Hfresh' : Forall (node_fresh n) (map (scanned w tgo) (nodes self))).
  { apply Forall_map. eapply Forall_impl; [|exact Hfresh].
    intros a. apply node_fresh_scanned. }
  destruct (Dict.truthy (iads_config self)); cbn [negb].
  - exists (map (scanned w tgo) (nodes self)), [].
    unfold ret. run. repeat split; auto.
    apply Forall2_map_self. intros cn.
    exists []. split; [|reflexivity]. exists 0. now rewrite attach_nil.
  - destruct (is_dead (tgo_at w tgo)) eqn:Hdead.
    + rewrite result_bind_ret, supply_bind_M, emitted_bind_M.
      rewrite _update_network_dead by exact Hdead.
      exists (map (scanned w tgo) (nodes self)), [].
      unfold ret. run. repeat split; auto.
      apply Forall2_map_self. intros cn.
      exists []. split; [|reflexivity]. exists 0. now rewrite attach_nil.
    + rewrite result_bind_ret, supply_bind_M, emitted_bind_M.
      destruct (@_update_network_alive _ _ w
                  (set_nodes self (map (scanned w tgo) (nodes self)))
                  tgo n Hdead Hrole)
        as [H1 [H2 [H3 [H4 H5]]]];
        [rewrite nodes_set_nodes; exact Hfresh'|].
      rewrite nodes_set_nodes in H1.
      set (r2 := _update_network w
                   (set_nodes self (map (scanned w tgo) (nodes self)))
                   tgo n) in *.
      exists (nodes (result r2)), (emitted r2).
      unfold ret. run. rewrite app_nil_r.
      repeat split; auto.
      * rewrite H5. now rewrite set_nodes_set_nodes, nodes_set_nodes.
      * apply Forall2_map_left in H1.
        eapply Forall2_impl; [|exact H1]. intros cn cn' Hg.
        cbv beta in Hg. rewrite group_scanned in Hg.
        exists (reactive_links w tgo (group cn)). split; [exact Hg|].
        intros Hside. unfold reactive_links.
        now rewrite Hside, andb_false_r.
Qed.

Lemma deleted_ids_app (ev1 ev2 : list GameUpdateEvent) :
  deleted_ids (ev1 ++ ev2) = deleted_ids ev1 ++ deleted_ids ev2.
Proof. unfold deleted_ids. apply flat_map_app. Qed.

Lemma deleted_ids_updates (ev : list GameUpdateEvent) :
  Forall (fun e => exists g, e = update_iads_node g) ev ->
  deleted_ids ev = [].
Proof.
  induction 1 as [|e ev [g ->] _ IH]; [reflexivity|exact IH].
Qed.

Lemma deleted_ids_scan_events (tgo : TgoRef) (cn : IadsNetworkNode) :
  deleted_ids (scan_events w tgo cn) =
  if same_side w (group cn) tgo then []
  else map fst (filter (to_tgo tgo) (connections cn)).
Proof.
  unfold scan_events.
  destruct (same_side w (group cn) tgo);
    induction (filter (to_tgo tgo) (connections cn)) as [|e l IH];
    simpl; try reflexivity; try exact IH.
  f_equal. exact IH.
Qed.

Lemma count_occ_keys_filter (p : UUID * GroupRef -> bool)
  (d : Dict.t UUID GroupRef) (k : UUID) :
  count_occ Nat.eq_dec (map fst (filter p d)) k
  <= count_occ Nat.eq_dec (Dict.keys d) k.
Proof.
  induction d as [|[k0 v0] d IH]; simpl; [lia|].
  destruct (p (k0, v0)); simpl; destruct (Nat.eq_dec k0 k); lia.
Qed.

Lemma count_occ_deleted_scan (tgo : TgoRef) (ns : list IadsNetworkNode)
  (k : UUID) :
  count_occ Nat.eq_dec (deleted_ids (flat_map (scan_events w tgo) ns)) k
  <= count_occ Nat.eq_dec (all_ids ns) k.
Proof.
  induction ns as [|cn ns IH]; simpl; [lia|].
  rewrite deleted_ids_app, !count_occ_app, deleted_ids_scan_events.
  pose proof (count_occ_keys_filter (to_tgo tgo) (connections cn) k).
  destruct (same_side w (group cn) tgo); apply Nat.add_le_mono;
    auto using Nat.le_0_l.
Qed.

Lemma get_app_left (d d' : Dict.t UUID GroupRef) (k : UUID) (g : GroupRef) :
  Dict.get Nat.eqb k d = Some g -> Dict.get Nat.eqb k (d ++ d') = Some g.
Proof.
  induction d as [|[k0 v0] d IH]; simpl; [discriminate|].
  destruct (Nat.eqb k k0); auto.
Qed.

Lemma get_filtered_out (p : UUID * GroupRef -> bool)
  (d : Dict.t UUID GroupRef) (k : UUID) (g : GroupRef) :
  NoDup (Dict.keys d) ->
  Dict.get Nat.eqb k d = Some g -> p (k, g) = false ->
  Dict.get Nat.eqb k (filter p d) = None.
Proof.
  induction d as [|[k0 v0] d IH]; simpl; [discriminate|].
  intros Hnd. inversion Hnd as [|? ? Hk0 Hnd']; subst.
  destruct (Nat.eqb_spec k k0) as [->|Hne].
  - intros [= ->] Hp. rewrite Hp.
    apply (DictFacts.get_None Nat.eqb Nat.eqb_eq). intros Hin.
    apply Hk0. eapply keys_filter_In. exact Hin.
  - intros Hget Hp. destruct (p (k0, v0)); simpl.
    + rewrite (proj2 (Nat.eqb_neq k k0) Hne). now apply IH.
    + now apply IH.
Qed.

(** C2: in advanced mode, with connection identifiers that are distinct and
    older than the next draw, [update_tgo] on an infrastructure object
    returns a network with the same nodes in the same order; a connection
    of a node to a group of the object is still there, under its
    identifier, and an update of the node is notified, when the object is
    on the side of the node; it is gone, and exactly one deletion carrying
    its identifier is notified, when it is not. *)
Theorem infrastructure_update (self : IadsNetwork) (tgo : TgoRef) (n : nat) :
  advanced_iads self = true ->
  is_comms_or_power (for_category (category (tgo_at w tgo))) = true ->
  Forall (node_fresh n) (nodes self) ->
  NoDup (all_ids (nodes self)) ->
  let r := update_tgo w self tgo n in
  exists self',
    result r = Ok self'
    /\ Forall2
         (fun cn cn' =>
            group cn' = group cn
            /\ forall cID g,
                Dict.get Nat.eqb cID (connections cn) = Some g ->
                ground_object g = tgo ->
                if same_side w (group cn) tgo
                then Dict.get Nat.eqb cID (connections cn') = Some g
                     /\ In (update_iads_node (group cn)) (emitted r)
                else Dict.get Nat.eqb cID (connections cn') = None
                     /\ count_occ Nat.eq_dec (deleted_ids (emitted r)) cID
                        = 1)
         (nodes self) (nodes self').
Proof.
  intros Hadv Hrole Hfresh Hnd r.
  destruct (update_tgo_infrastructure_closed self tgo Hadv Hrole Hfresh Hnd)
    as [ns' [ev_new [Hres [Hev [Hupd [Hall _]]]]]].
  fold r in Hres, Hev. exists (set_nodes self ns'). split; [exact Hres|].
  rewrite nodes_set_nodes. rewrite Hev.
  eapply Forall2_impl_In; [|exact Hall].
  intros cn cn' Hin [gs [[k ->] Hgs]]. split.
  - simpl. apply group_scanned.
  - intros cID g Hget Hg.
    assert (Hentry : In (cID, g) (filter (to_tgo tgo) (connections cn))).
    { apply filter_In. split.
      - now apply (DictFacts.get_In Nat.eqb Nat.eqb_eq).
      - unfold to_tgo. simpl. now apply Nat.eqb_eq. }
    unfold scanned in *. destruct (same_side w (group cn) tgo) eqn:Hside.
    + split.
      * simpl. now apply get_app_left.
      * apply in_or_app. left. apply in_flat_map. exists cn.
        split; [exact Hin|]. unfold scan_events. rewrite Hside.
        apply in_map_iff. now exists (cID, g).
    + rewrite (Hgs eq_refl), attach_nil. simpl. split.
      * apply get_filtered_out with (g := g).
        -- pose proof (@all_ids_keys_NoDup (nodes self) Hnd) as Hk.
           rewrite Forall_forall in Hk. now apply Hk.
        -- exact Hget.
        -- unfold not_to_tgo, to_tgo. simpl.
           now rewrite (proj2 (Nat.eqb_eq _ _) Hg).
      * rewrite deleted_ids_app, (deleted_ids_updates Hupd), app_nil_r.
        assert (Hle :
          count_occ Nat.eq_dec
            (deleted_ids (flat_map (scan_events w tgo) (nodes self))) cID
          <= 1).
        { etransitivity; [apply count_occ_deleted_scan|].
          now apply NoDup_count_occ. }
        assert (Hge :
          count_occ Nat.eq_dec
            (deleted_ids (flat_map (scan_events w tgo) (nodes self))) cID
          > 0).
        { apply count_occ_In. unfold deleted_ids. apply in_flat_map.
          exists (delete_iads_connection cID). split; [|now left].
          apply in_flat_map. exists cn. split; [exact Hin|].
          unfold scan_events. rewrite Hside. apply in_map_iff.
          now exists (cID, g). }
        lia.
Qed.

End Infrastructure.

Lemma infrastructure_update_witness :
  let w := Scenario.captured in
  let self :=
    result (@initialize_network Scenario.catalog Scenario.theater
              Scenario.peace (Scenario.network true []) [0; 1; 2] 0) in
  let r := @update_tgo Scenario.catalog Scenario.theater w self 1 2 in
  emitted r = [delete_iads_connection 0]
  /\ exists self',
      result r = Ok self'
      /\ Forall2
           (fun cn cn' =>
              group cn' = group cn
              /\ forall cID g,
                  Dict.get Nat.eqb cID (connections cn) = Some g ->
                  ground_object g = 1 ->
                  if same_side w (group cn) 1
                  then Dict.get Nat.eqb cID (connections cn') = Some g
                       /\ In (update_iads_node (group cn)) (emitted r)
                  else Dict.get Nat.eqb cID (connections cn') = None
                       /\ count_occ Nat.eq_dec (deleted_ids (emitted r)) cID
                          = 1)
           (nodes self) (nodes self').
Proof.
  intros w self r. split; [reflexivity|].
  apply (@infrastructure_update Scenario.catalog Scenario.theater w self
           1 2).
  - reflexivity.
  - reflexivity.
  - repeat constructor.
  - repeat constructor; simpl; intuition discriminate.
Defined.

(** ** Connection identifiers along a run *)

Lemma ids_step_refl (n : nat) (ids : list UUID) : ids_step n ids n ids.
Proof.
  split; [lia|]. intros k. rewrite Nat.sub_diag. simpl. lia.
Qed.

Lemma count_occ_seq_split (n m p k : nat) :
  n <= m -> m <= p ->
  count_occ Nat.eq_dec (seq n (p - n)) k =
  count_occ Nat.eq_dec (seq n (m - n)) k
  + count_occ Nat.eq_dec (seq m (p - m)) k.
Proof.
  intros Hnm Hmp. replace (p - n) with ((m - n) + (p - m)) by lia.
  rewrite seq_app, count_occ_app. replace (n + (m - n)) with m by lia.
  reflexivity.
Qed.

Lemma ids_step_trans (n1 n2 n3 : nat) (a b c : list UUID) :
  ids_step n1 a n2 b -> ids_step n2 b n3 c -> ids_step n1 a n3 c.
Proof.
  intros [H12 Hab] [H23 Hbc]. split; [lia|]. intros k.
  rewrite (count_occ_seq_split k H12 H23).
  specialize (Hab k). specialize (Hbc k).
  eapply Nat.le_trans; [exact Hbc|].
  rewrite Nat.add_assoc. apply Nat.add_le_mono_r. exact Hab.
Qed.

Lemma all_ids_fresh (n : nat) (ns : list IadsNetworkNode) :
  Forall (node_fresh n) ns <-> Forall (fun k => k < n) (all_ids ns).
Proof.
  unfold all_ids, node_fresh. induction ns as [|cn ns IH]; simpl.
  - split; constructor.
  - rewrite Forall_app, <- IH. split.
    + intros H. inversion H; subst. now split.
    + intros [H1 H2]. now constructor.
Qed.

Lemma count_occ_seq_le (n m k : nat) :
  count_occ Nat.eq_dec (seq n m) k <= 1.
Proof. apply NoDup_count_occ. apply seq_NoDup. Qed.

Lemma count_occ_seq_out (n m k : nat) :
  k < n \/ n + m <= k -> count_occ Nat.eq_dec (seq n m) k = 0.
Proof.
  intros Hk. apply count_occ_not_In. intros Hin. apply in_seq in Hin. lia.
Qed.

(** Well-formedness of the identifiers is carried along a step. *)
Lemma ids_step_wf (n n' : nat) (ns ns' : list IadsNetworkNode) :
  ids_wf n ns ->
  ids_step n (all_ids ns) n' (all_ids ns') ->
  ids_wf n' ns'.
Proof.
  intros [Hfresh Hnd] [Hle Hcount].
  apply all_ids_fresh in Hfresh.
  assert (Hold : forall k, n <= k -> count_occ Nat.eq_dec (all_ids ns) k = 0).
  { intros k Hk. apply count_occ_not_In. intros Hin.
    rewrite Forall_forall in Hfresh. apply Hfresh in Hin. lia. }
  assert (Hone : forall k, count_occ Nat.eq_dec (all_ids ns) k <= 1)
    by now apply NoDup_count_occ.
  split.
  - apply all_ids_fresh. apply Forall_forall. intros k Hin.
    apply (count_occ_In Nat.eq_dec) in Hin.
    destruct (Nat.lt_ge_cases k n') as [Hlt|Hge]; [exact Hlt|].
    specialize (Hcount k).
    rewrite (Hold k), count_occ_seq_out in Hcount by lia.
    apply Nat.le_0_r in Hcount. rewrite Hcount in Hin. inversion Hin.
  - apply (NoDup_count_occ Nat.eq_dec). intros k.
    specialize (Hcount k). eapply Nat.le_trans; [exact Hcount|].
    destruct (Nat.lt_ge_cases k n) as [Hlt|Hge].
    + rewrite count_occ_seq_out by lia. rewrite Nat.add_0_r. apply Hone.
    + rewrite (Hold k Hge). apply count_occ_seq_le.
Qed.

Lemma count_occ_keys_set (k : UUID) (v : GroupRef)
  (d : Dict.t UUID GroupRef) (x : nat) :
  count_occ Nat.eq_dec (Dict.keys (Dict.set Nat.eqb k v d)) x
  <= count_occ Nat.eq_dec (Dict.keys d) x + count_occ Nat.eq_dec [k] x.
Proof.
  induction d as [|[k0 v0] d IH].
  - simpl. destruct (Nat.eq_dec k x); auto.
  - simpl Dict.set. destruct (Nat.eqb k k0).
    + simpl. apply Nat.le_add_r.
    + change (Dict.keys ((k0, v0) :: Dict.set Nat.eqb k v d))
        with (k0 :: Dict.keys (Dict.set Nat.eqb k v d)).
      change (Dict.keys ((k0, v0) :: d)) with (k0 :: Dict.keys d).
      cbn [count_occ] in *. destruct (Nat.eq_dec k0 x).
      * apply le_n_S in IH. exact IH.
      * exact IH.
Qed.

Lemma count_occ_keys_del (k : UUID) (d : Dict.t UUID GroupRef) (x : nat) :
  count_occ Nat.eq_dec (Dict.keys (Dict.del Nat.eqb k d)) x
  <= count_occ Nat.eq_dec (Dict.keys d) x.
Proof.
  induction d as [|[k0 v0] d IH]; [apply Nat.le_refl|].
  simpl Dict.del. destruct (Nat.eqb k k0).
  - change (Dict.keys ((k0, v0) :: d)) with (k0 :: Dict.keys d).
    cbn [count_occ]. destruct (Nat.eq_dec k0 x); auto.
  - change (Dict.keys ((k0, v0) :: Dict.del Nat.eqb k d))
      with (k0 :: Dict.keys (Dict.del Nat.eqb k d)).
    change (Dict.keys ((k0, v0) :: d)) with (k0 :: Dict.keys d).
    cbn [count_occ]. destruct (Nat.eq_dec k0 x).
    + now apply le_n_S.
    + exact IH.
Qed.

(** A relation every step of a loop respects, draws included, holds
    between the start and the end of the loop. *)
Lemma foldM_step {A B} (R : nat -> A -> nat -> A -> Prop)
  (f : A -> B -> M A) (l : list B) :
  (forall n a, R n a n a) ->
  (forall n1 a1 n2 a2 n3 a3,
      R n1 a1 n2 a2 -> R n2 a2 n3 a3 -> R n1 a1 n3 a3) ->
  (forall a b n, R n a (supply (f a b n)) (result (f a b n))) ->
  forall a n, R n a (supply (foldM f a l n)) (result (foldM f a l n)).
Proof.
  intros Hrefl Htrans Hstep. induction l as [|b l IH]; intros a n.
  - apply Hrefl.
  - rewrite result_foldM_cons, supply_foldM_cons.
    eapply Htrans; [apply Hstep|apply IH].
Qed.

Lemma ids_step_app (n n1 n2 : nat) (a a' b b' : list UUID) :
  ids_step n a n1 a' -> ids_step n1 b n2 b' ->
  ids_step n (a ++ b) n2 (a' ++ b').
Proof.
  intros [H1 Ha] [H2 Hb]. split; [lia|]. intros k.
  rewrite !count_occ_app, (count_occ_seq_split k H1 H2).
  specialize (Ha k). specialize (Hb k).
  eapply Nat.le_trans; [apply Nat.add_le_mono; eassumption|].
  apply Nat.eq_le_incl. rewrite !Nat.add_assoc. f_equal.
  rewrite <- !Nat.add_assoc. f_equal. apply Nat.add_comm.
Qed.

Lemma ids_step_shrink (n : nat) (a a' : list UUID) :
  (forall k, count_occ Nat.eq_dec a' k <= count_occ Nat.eq_dec a k) ->
  ids_step n a n a'.
Proof.
  intros H. split; [lia|]. intros k. rewrite Nat.sub_diag. simpl.
  rewrite Nat.add_0_r. apply H.
Qed.

Lemma all_ids_app (ns ns' : list IadsNetworkNode) :
  all_ids (ns ++ ns') = all_ids ns ++ all_ids ns'.
Proof. unfold all_ids. apply flat_map_app. Qed.

Lemma nth_error_firstn_skipn {A} (l : list A) (i : nat) (a : A) :
  nth_error l i = Some a -> l = firstn i l ++ a :: skipn (S i) l.
Proof.
  revert i. induction l as [|b l IH]; intros [|i]; simpl; try discriminate.
  - now intros [= ->].
  - intros Hi. f_equal. now apply IH.
Qed.

Lemma node_steps_ret : node_steps (fun cn => ret cn).
Proof. intros cn n. apply ids_step_refl. Qed.

Lemma node_steps_add_connection_for_group (g : GroupRef) :
  node_steps (fun cn => add_connection_for_group cn g).
Proof.
  intros cn n. unfold add_connection_for_group, bind, uuid4, ret.
  unfold supply, result. simpl. split; [lia|]. intros k.
  replace (S n - n) with 1 by lia. apply count_occ_keys_set.
Qed.

Lemma node_steps_foldM {B} (f : IadsNetworkNode -> B -> M IadsNetworkNode)
  (l : list B) :
  (forall b, node_steps (fun cn => f cn b)) ->
  node_steps (fun cn => foldM f cn l).
Proof.
  intros Hf cn n.
  apply (foldM_step
           (fun n cn n' cn' =>
              ids_step n (Dict.keys (connections cn)) n'
                       (Dict.keys (connections cn')))).
  - intros; apply ids_step_refl.
  - intros; eapply ids_step_trans; eassumption.
  - intros a b n0. apply Hf.
Qed.

Lemma on_node_steps (i : nat) (f : IadsNetworkNode -> M IadsNetworkNode)
  (ns : list IadsNetworkNode) (n : nat) :
  node_steps f ->
  ids_step n (all_ids ns) (supply (on_node i f ns n))
           (all_ids (result (on_node i f ns n))).
Proof.
  intros Hf. unfold on_node.
  destruct (nth_error ns i) as [cn|] eqn:Hi; [|apply ids_step_refl].
  rewrite result_bind_ret, supply_bind_M. unfold ret at 1.
  unfold supply at 1. simpl snd.
  pose proof (nth_error_firstn_skipn _ _ Hi) as Hns.
  remember (firstn i ns) as l1. remember (skipn (S i) ns) as l2.
  rewrite Hns at 1. clear Hns Heql1 Heql2.
  rewrite !all_ids_app.
  apply ids_step_app with (n1 := n); [apply ids_step_refl|].
  change (all_ids (cn :: l2))
    with (Dict.keys (connections cn) ++ all_ids l2).
  change (all_ids (result (f cn n) :: l2))
    with (Dict.keys (connections (result (f cn n))) ++ all_ids l2).
  apply ids_step_app with (n1 := supply (f cn n));
    [apply Hf|apply ids_step_refl].
Qed.

Lemma mapM_steps (f : IadsNetworkNode -> M IadsNetworkNode)
  (ns : list IadsNetworkNode) :
  node_steps f ->
  forall n,
    ids_step n (all_ids ns) (supply (mapM f ns n))
             (all_ids (result (mapM f ns n))).
Proof.
  intros Hf. induction ns as [|cn ns IH]; intros n; [apply ids_step_refl|].
  rewrite mapM_cons. specialize (Hf cn n). specialize (IH (supply (f cn n))).
  destruct (f cn n) as [[cn' n1] ev1].
  unfold result, supply in *. simpl in *.
  destruct (mapM f ns n1) as [[ns' n2] ev2]. simpl in *.
  change (all_ids (cn :: ns))
    with (Dict.keys (connections cn) ++ all_ids ns).
  change (all_ids (cn' :: ns'))
    with (Dict.keys (connections cn') ++ all_ids ns').
  eapply ids_step_app; eassumption.
Qed.

Lemma count_occ_fold_del (ids : list UUID) (d : Dict.t UUID GroupRef)
  (x : nat) :
  count_occ Nat.eq_dec
    (Dict.keys (fold_left (fun d cID => Dict.del Nat.eqb cID d) ids d)) x
  <= count_occ Nat.eq_dec (Dict.keys d) x.
Proof.
  revert d. induction ids as [|k ids IH]; intros d; [apply Nat.le_refl|].
  simpl. eapply Nat.le_trans; [apply IH|apply count_occ_keys_del].
Qed.

Section Identifiers.
Context {catalog : RoleCatalog} {theater : Theater}.

Lemma node_steps_add_connection_for_tgo (w : World) (tgo : TgoRef) :
  node_steps (fun cn => add_connection_for_tgo w cn tgo).
Proof.
  unfold add_connection_for_tgo. apply node_steps_foldM. intros g cn n.
  destruct (_ && _);
    [apply node_steps_add_connection_for_group|apply ids_step_refl].
Qed.

Lemma node_steps_scan_connections (w : World) (tgo : TgoRef) :
  node_steps (scan_connections w tgo).
Proof.
  intros cn n. unfold scan_connections.
  erewrite bind_run_eq by apply scan_loop.
  unfold ret, supply, result. simpl.
  apply ids_step_shrink. intros k. apply count_occ_fold_del.
Qed.

Lemma node_for_tgo_net_step (w : World) (self : IadsNetwork) (tgo : TgoRef)
  (n : nat) :
  net_step n self (supply (node_for_tgo w self tgo n))
           (fst (result (node_for_tgo w self tgo n))).
Proof.
  unfold net_step.
  destruct (node_for_tgo_cases w self tgo n)
    as [[i [cn [-> [-> _]]]]
       |[[_ [_ [-> ->]]]|[_ [g [later [_ [_ [-> ->]]]]]]]];
    try apply ids_step_refl.
  simpl fst. rewrite nodes_set_nodes, all_ids_app.
  rewrite <- (app_nil_r (all_ids (nodes self))) at 1.
  apply ids_step_app with (n1 := n); [apply ids_step_refl|].
  split; [lia|]. intros k. unfold all_ids. simpl. rewrite app_nil_r.
  rewrite keys_combine_seq.
  replace (n + List.length (filter (living_point_defense w) later) - n)
    with (List.length (filter (living_point_defense w) later)) by lia.
  apply Nat.le_refl.
Qed.

Lemma _make_advanced_connections_by_range_net_step (w : World)
  (self : IadsNetwork) (node n : nat) :
  net_step n self
    (supply (_make_advanced_connections_by_range w self node n))
    (result (_make_advanced_connections_by_range w self node n)).
Proof.
  unfold net_step, _make_advanced_connections_by_range.
  rewrite result_bind_ret, supply_bind_M. unfold ret at 1.
  unfold supply at 1. simpl snd. rewrite nodes_set_nodes.
  apply on_node_steps. intros cn n0. cbv zeta.
  apply (node_steps_foldM
           (fun cn0 nearby_go =>
              if negb (is_comms_or_power
                         (for_category (category (tgo_at w nearby_go))))
                 || Nat.eqb nearby_go (ground_object (group cn))
              then ret cn0
              else
                if Qle_bool
                     (distance_to_point (position (tgo_at w nearby_go))
                        (position (tgo_at w (ground_object (group cn)))))
                     (connection_range_meters
                        (for_category (category (tgo_at w nearby_go))))
                   && _is_friendly w cn0 nearby_go
                then add_connection_for_tgo w cn0 nearby_go
                else ret cn0)).
  intros go cn0 n1. destruct (negb _ || _); [apply ids_step_refl|].
  destruct (_ && _);
    [apply node_steps_add_connection_for_tgo|apply ids_step_refl].
Qed.

Lemma _add_connections_from_config_net_step (w : World)
  (self : IadsNetwork) (node n : nat) :
  net_step n self
    (supply (_add_connections_from_config w self node n))
    (result (_add_connections_from_config w self node n)).
Proof.
  unfold net_step, _add_connections_from_config.
  destruct (nth_error (nodes self) node) as [cn|]; [|apply ids_step_refl].
  destruct (Dict.get String.eqb _ (iads_config self)) as [l|];
    rewrite result_bind_ret, supply_bind_M; unfold ret at 1;
    unfold supply at 1; simpl snd;
    rewrite nodes_set_iads_config, nodes_set_nodes;
    apply on_node_steps; apply node_steps_foldM; intros nm cn0 n0;
    (destruct (Dict.get String.eqb nm (ground_objects self));
     [apply node_steps_add_connection_for_tgo|apply ids_step_refl]).
Qed.

Lemma net_step_refl (n : nat) (self : IadsNetwork) : net_step n self n self.
Proof. apply ids_step_refl. Qed.

Lemma net_step_trans (n1 n2 n3 : nat) (a b c : IadsNetwork) :
  net_step n1 a n2 b -> net_step n2 b n3 c -> net_step n1 a n3 c.
Proof. apply ids_step_trans. Qed.

Lemma initialize_basic_iads_net_step (w : World) (self : IadsNetwork)
  (n : nat) :
  net_step n self (supply (initialize_basic_iads w self n))
           (result (initialize_basic_iads w self n)).
Proof.
  unfold initialize_basic_iads.
  apply (foldM_step net_step);
    [apply net_step_refl|intros; eapply net_step_trans; eassumption|].
  intros a go n0.
  destruct (is_iads_ground_object (tgo_at w go)); [|apply net_step_refl].
  rewrite result_bind_ret, supply_bind_M. apply node_for_tgo_net_step.
Qed.

Lemma initialize_network_from_range_net_step (w : World)
  (self : IadsNetwork) (n : nat) :
  net_step n self (supply (initialize_network_from_range w self n))
           (result (initialize_network_from_range w self n)).
Proof.
  unfold initialize_network_from_range.
  apply (foldM_step net_step);
    [apply net_step_refl|intros; eapply net_step_trans; eassumption|].
  intros a go n0. cbv zeta.
  destruct (_ || _); [|apply net_step_refl].
  rewrite result_bind_M, supply_bind_M.
  pose proof (node_for_tgo_net_step w a go n0) as Hstep.
  destruct (result (node_for_tgo w a go n0)) as [self1 [node|]];
    simpl fst in Hstep; [|exact Hstep].
  eapply net_step_trans; [exact Hstep|].
  apply _make_advanced_connections_by_range_net_step.
Qed.

Lemma initialize_network_from_config_net_step (w : World)
  (self : IadsNetwork) (n : nat) :
  net_step n self (supply (initialize_network_from_config w self n))
           (result (initialize_network_from_config w self n)).
Proof.
  unfold initialize_network_from_config.
  apply (foldM_step net_step);
    [apply net_step_refl|intros; eapply net_step_trans; eassumption|].
  intros a key n0. rewrite result_bind_M, supply_bind_M.
  destruct (Dict.get String.eqb key (ground_objects a)) as [t|];
    [|apply net_step_refl].
  pose proof (node_for_tgo_net_step w a t n0) as Hstep.
  destruct (result (node_for_tgo w a t n0)) as [self1 [node|]];
    simpl fst in Hstep; [|exact Hstep].
  eapply net_step_trans; [exact Hstep|].
  apply _add_connections_from_config_net_step.
Qed.

Lemma initialize_network_net_step (w : World) (self : IadsNetwork)
  (tgos : list TgoRef) (n : nat) :
  net_step n self (supply (initialize_network w self tgos n))
           (result (initialize_network w self tgos n)).
Proof.
  unfold initialize_network. rewrite result_bind_M, supply_bind_M.
  set (self0 := register_ground_objects self tgos).
  assert (H0 : net_step n self n self0).
  { unfold net_step, self0.
    destruct (register_ground_objects_nodes self tgos) as [-> _].
    apply ids_step_refl. }
  assert (H1 : net_step n self0 (supply (initialize_advanced w self0 n))
                        (result (initialize_advanced w self0 n))).
  { unfold initialize_advanced.
    destruct (advanced_iads self0); [|apply net_step_refl].
    destruct (Dict.truthy (iads_config self0)).
    - apply initialize_network_from_config_net_step.
    - apply initialize_network_from_range_net_step. }
  eapply net_step_trans; [exact H0|]. eapply net_step_trans; [exact H1|].
  destruct (nodes (result (initialize_advanced w self0 n)));
    [apply initialize_basic_iads_net_step|apply net_step_refl].
Qed.

Lemma remove_existing_nodes_shrinks (tgo : TgoRef) (m : nat) :
  forall ns n,
    List.length ns <= m ->
    supply (remove_existing_nodes tgo ns n) = n
    /\ forall k,
        count_occ Nat.eq_dec
          (all_ids (result (remove_existing_nodes tgo ns n))) k
        <= count_occ Nat.eq_dec (all_ids ns) k.
Proof.
  induction m as [|m IH]; intros ns n Hlen.
  - destruct ns; [|simpl in Hlen; lia]. split; [reflexivity|].
    intros k. apply Nat.le_refl.
  - destruct ns as [|cn rest];
      [split; [reflexivity|intros; apply Nat.le_refl]|].
    simpl in Hlen. simpl remove_existing_nodes.
    destruct (anchored_on tgo cn).
    + unfold bind. rewrite emit_deletions.
      destruct rest as [|unvisited rest'].
      * unfold ret, supply, result. simpl. split; [reflexivity|].
        intros k. apply Nat.le_0_l.
      * destruct (IH rest' n) as [Hs Hc]; [simpl in Hlen; lia|].
        unfold bind, ret.
        destruct (remove_existing_nodes tgo rest' n) as [[kept n'] ev].
        unfold supply, result, all_ids in *. simpl in *.
        split; [exact Hs|]. intros k. specialize (Hc k).
        rewrite !count_occ_app.
        eapply Nat.le_trans; [|apply Nat.le_add_l].
        apply Nat.add_le_mono_l. exact Hc.
    + destruct (IH rest n) as [Hs Hc]; [lia|].
      unfold bind, ret.
      destruct (remove_existing_nodes tgo rest n) as [[kept n'] ev].
      unfold supply, result, all_ids in *. simpl in *.
      split; [exact Hs|]. intros k. specialize (Hc k).
      rewrite !count_occ_app. apply Nat.add_le_mono_l. exact Hc.
Qed.

Lemma _update_network_net_step (w : World) (self : IadsNetwork)
  (tgo : TgoRef) (n : nat) :
  net_step n self (supply (_update_network w self tgo n))
           (result (_update_network w self tgo n)).
Proof.
  unfold _update_network.
  destruct (is_dead (tgo_at w tgo)); [apply net_step_refl|]. cbv zeta.
  destruct (negb _); [apply net_step_refl|].
  rewrite result_bind_ret, supply_bind_M. unfold ret at 1.
  unfold supply at 1. simpl snd. unfold net_step.
  rewrite nodes_set_nodes. apply mapM_steps. intros cn n0.
  destruct (_ && _); [|apply ids_step_refl].
  rewrite result_bind_M, supply_bind_M, result_bind_M, supply_bind_M.
  unfold emit, ret. unfold result at 1 2, supply at 1 2. simpl.
  apply node_steps_add_connection_for_tgo.
Qed.

Lemma update_tgo_net_step (w : World) (self self' : IadsNetwork)
  (tgo : TgoRef) (n : nat) :
  result (update_tgo w self tgo n) = Ok self' ->
  net_step n self (supply (update_tgo w self tgo n)) self'
  /\ ground_objects self' = ground_objects self.
Proof.
  unfold update_tgo.
  destruct (advanced_iads self
            && is_comms_or_power (for_category (category (tgo_at w tgo)))).
  - unfold _update_iads_comms_and_power.
    destruct (negb (advanced_iads self)); [discriminate|]. cbv zeta.
    destruct (negb (is_comms_or_power _)); [discriminate|].
    rewrite result_bind_M, supply_bind_M, iads_config_set_nodes.
    pose proof (mapM_steps (nodes self) (node_steps_scan_connections w tgo) n)
      as Hscan.
    set (r1 := mapM (scan_connections w tgo) (nodes self) n) in *.
    destruct (negb (Dict.truthy (iads_config self))).
    + rewrite result_bind_ret, supply_bind_M. unfold ret at 1.
      unfold supply at 1. simpl snd. intros [= <-]. split.
      * eapply net_step_trans;
          [|apply _update_network_net_step].
        unfold net_step. now rewrite nodes_set_nodes.
      * destruct (_update_network_shape w
                    (set_nodes self (result r1)) tgo (snd (fst r1)))
          as [_ [_ [H _]]].
        exact H.
    + unfold ret. unfold result at 1, supply at 1. simpl.
      intros [= <-]. split; [|reflexivity].
      unfold net_step. now rewrite nodes_set_nodes.
  - rewrite result_bind_M, supply_bind_M.
    destruct (@remove_existing_nodes_shrinks tgo (List.length (nodes self))
                (nodes self) n (le_n _)) as [Hs Hc].
    rewrite Hs.
    set (ns := result (remove_existing_nodes tgo (nodes self) n)) in *.
    assert (H0 : net_step n self n (set_nodes self ns)).
    { unfold net_step. rewrite nodes_set_nodes.
      now apply ids_step_shrink. }
    rewrite result_bind_M, supply_bind_M.
    pose proof (node_for_tgo_net_step w (set_nodes self ns) tgo n) as H1.
    pose proof (node_for_tgo_extends w (set_nodes self ns) tgo n) as E1.
    destruct (result (node_for_tgo w (set_nodes self ns) tgo n))
      as [self1 [node|]]; simpl fst in H1, E1.
    + rewrite result_bind_M, supply_bind_M.
      assert (Hsup :
        supply
          (match nth_error (nodes self1) node with
           | Some cn => emit (update_iads_node (group cn))
           | None => ret tt
           end (supply (node_for_tgo w (set_nodes self ns) tgo n)))
        = supply (node_for_tgo w (set_nodes self ns) tgo n))
        by (destruct (nth_error (nodes self1) node); reflexivity).
      rewrite Hsup. clear Hsup.
      destruct (advanced_iads self1).
      * destruct (Dict.truthy (iads_config self1)).
        -- rewrite result_bind_ret, supply_bind_M. unfold ret at 1.
           unfold supply at 1. simpl snd. intros [= <-]. split.
           ++ eapply net_step_trans; [exact H0|].
              eapply net_step_trans; [exact H1|].
              apply _add_connections_from_config_net_step.
           ++ etransitivity;
                [apply (extends_registry
                          (_add_connections_from_config_extends w self1
                             node _))|].
              now destruct E1 as [_ [-> _]].
        -- rewrite result_bind_ret, supply_bind_M. unfold ret at 1.
           unfold supply at 1. simpl snd. intros [= <-]. split.
           ++ eapply net_step_trans; [exact H0|].
              eapply net_step_trans; [exact H1|].
              apply _make_advanced_connections_by_range_net_step.
           ++ etransitivity;
                [apply (extends_registry
                          (_make_advanced_connections_by_range_extends w
                             self1 node _))|].
              now destruct E1 as [_ [-> _]].
      * unfold ret. unfold result at 1, supply at 1. simpl.
        intros [= <-]. split.
        -- eapply net_step_trans; [exact H0|exact H1].
        -- now destruct E1 as [_ [-> _]].
    + unfold ret. unfold result at 1, supply at 1. simpl.
      intros [= <-]. split.
      * eapply net_step_trans; [exact H0|exact H1].
      * now destruct E1 as [_ [-> _]].
Qed.

(** Every state of a history that starts from a network just constructed
    has at most one node per ground object, connection identifiers that are
    pairwise distinct and older than the next draw, and a registry that
    holds its objects under their names. *)
Lemma perform_invariants (op : Operation) (st : IadsNetwork * nat) :
  ids_wf (snd st) (nodes (fst st)) /\ registry_consistent (fst st) ->
  ids_wf (snd (perform op st)) (nodes (fst (perform op st)))
  /\ registry_consistent (fst (perform op st)).
Proof.
  intros [Hwf Hreg]. destruct op as [w tgos|w tgo]; simpl.
  - split.
    + eapply ids_step_wf; [exact Hwf|].
      apply initialize_network_net_step.
    + eapply extends_consistent; [apply initialize_network_extends|].
      now apply register_ground_objects_consistent.
  - destruct (result (update_tgo w (fst st) tgo (snd st))) as [self'|e]
      eqn:Hres; [|now split].
    destruct (update_tgo_net_step w (fst st) tgo (snd st) Hres)
      as [Hstep Hg].
    simpl. split.
    + eapply ids_step_wf; [exact Hwf|exact Hstep].
    + intros k t. rewrite Hg. apply Hreg.
Qed.

Lemma perform_all_invariants (ops : list Operation) (self : IadsNetwork)
  (n : nat) :
  fresh_network self ->
  let st := perform_all ops (self, n) in
  NoDup (anchors (nodes (fst st)))
  /\ ids_wf (snd st) (nodes (fst st))
  /\ registry_consistent (fst st).
Proof.
  intros Hfresh st. split.
  - apply perform_all_unique. simpl. destruct Hfresh as [_ ->]. constructor.
  - subst st. unfold perform_all.
    assert (H0 : ids_wf (snd (self, n)) (nodes (fst (self, n)))
                 /\ registry_consistent (fst (self, n))).
    { simpl. split; [|now apply fresh_network_consistent].
      destruct Hfresh as [_ ->]. split; constructor. }
    revert H0. generalize (self, n). clear self n Hfresh.
    induction ops as [|op ops IH]; intros st H0; [exact H0|].
    simpl. apply IH. now apply perform_invariants.
Qed.

End Identifiers.

(** * Further properties *)

(** ** Construction of a network *)

Lemma get_app {K V} (eqb : K -> K -> bool) (k : K) (d d' : Dict.t K V) :
  Dict.get eqb k (d ++ d') =
  match Dict.get eqb k d with
  | Some v => Some v
  | None => Dict.get eqb k d'
  end.
Proof.
  induction d as [|[k0 v0] d IH]; simpl; [reflexivity|].
  now destruct (eqb k k0).
Qed.

Lemma keys_set (k : string) (v : list string)
  (d : Dict.t string (list string)) :
  Dict.keys (Dict.set String.eqb k v d) =
  if in_dec string_dec k (Dict.keys d) then Dict.keys d
  else Dict.keys d ++ [k].
Proof.
  induction d as [|[k0 v0] d IH]; simpl.
  - reflexivity.
  - destruct (String.eqb_spec k k0) as [E|Hne]; simpl.
    + destruct (string_dec k0 k) as [E'|Hne]; [reflexivity|].
      symmetry in E. contradiction.
    + rewrite IH. destruct (string_dec k0 k) as [E|Hne'];
        [symmetry in E; contradiction|].
      now destruct (in_dec string_dec k (Dict.keys d)).
Qed.

Lemma load_iads_config_entries (iads_data : list IadsDataElement) :
  forall config,
    load_iads_config iads_data config =
    if forallb valid_element iads_data
    then Ok (fold_left store_entry (flat_map entries_of iads_data) config)
    else Raise (RuntimeError "Invalid iads_config in campaign").
Proof.
  induction iads_data as [|[primary|d|] rest IH]; intros config; simpl.
  - reflexivity.
  - apply IH.
  - rewrite IH, fold_left_app. reflexivity.
  - reflexivity.
Qed.

Lemma get_stored (entries : list (string * list string)) (k : string) :
  forall config,
    Dict.get String.eqb k (fold_left store_entry entries config) =
    match Dict.get String.eqb k (rev entries) with
    | Some v => Some v
    | None => Dict.get String.eqb k config
    end.
Proof.
  induction entries as [|[k0 v0] entries IH]; intros config; simpl.
  - reflexivity.
  - rewrite IH, get_app. destruct (Dict.get String.eqb k (rev entries));
      [reflexivity|].
    unfold store_entry. simpl.
    destruct (String.eqb_spec k k0) as [->|Hne].
    + apply (DictFacts.get_set_same String.eqb String.eqb_eq).
    + now rewrite (DictFacts.get_set_other String.eqb String.eqb_eq).
Qed.

Lemma keys_stored (entries : list (string * list string)) :
  Dict.keys (fold_left store_entry entries []) =
  first_occurrences (map fst entries).
Proof.
  induction entries as [|[k v] entries IH] using rev_ind; [reflexivity|].
  rewrite fold_left_app. simpl. unfold store_entry at 1. simpl.
  rewrite keys_set, IH. unfold first_occurrences.
  rewrite map_app, rev_app_distr. simpl.
  destruct (in_dec string_dec k (rev (map fst entries))) as [Hin|Hout];
    destruct (in_dec string_dec k
                (rev (nodup string_dec (rev (map fst entries)))))
      as [Hin'|Hout']; try reflexivity; exfalso.
  - apply Hout'. apply -> in_rev. now apply nodup_In.
  - apply Hout. apply <- in_rev in Hin'. now apply nodup_In in Hin'.
Qed.

(** X1: [IadsNetwork.__init__] raises [RuntimeError] exactly when some
    element of the campaign data is neither a string nor a dict, wherever
    it stands in the list; otherwise it returns a network in the given mode
    with no ground object and no node. *)
Theorem IadsNetwork_init_valid_data (advanced : bool)
  (iads_data : list IadsDataElement) :
  match IadsNetwork_init advanced iads_data with
  | Ok self =>
      forallb valid_element iads_data = true
      /\ advanced_iads self = advanced
      /\ ground_objects self = [] /\ nodes self = []
  | Raise e =>
      forallb valid_element iads_data = false
      /\ e = RuntimeError "Invalid iads_config in campaign"
  end.
Proof.
  unfold IadsNetwork_init. rewrite load_iads_config_entries.
  destruct (forallb valid_element iads_data); simpl; repeat split.
Qed.

(** X2: in the configuration [IadsNetwork.__init__] loads, the last entry
    of the campaign data for a name decides its connections (a bare string
    stands for an entry without connections, and erases those of an earlier
    dict entry for the same name), and the names keep the order of their
    first mention. *)
Theorem iads_config_last_entry (advanced : bool)
  (iads_data : list IadsDataElement) (self : IadsNetwork) :
  IadsNetwork_init advanced iads_data = Ok self ->
  (forall primary,
      Dict.get String.eqb primary (iads_config self) =
      Dict.get String.eqb primary (rev (flat_map entries_of iads_data)))
  /\ Dict.keys (iads_config self) =
     first_occurrences (map fst (flat_map entries_of iads_data))
  /\ NoDup (Dict.keys (iads_config self)).
Proof.
  unfold IadsNetwork_init. rewrite load_iads_config_entries.
  destruct (forallb valid_element iads_data); simpl; [|discriminate].
  intros [= <-]. simpl. split; [|split].
  - intros primary. rewrite get_stored.
    now destruct (Dict.get String.eqb primary _).
  - apply keys_stored.
  - rewrite keys_stored. unfold first_occurrences.
    apply NoDup_rev. apply NoDup_nodup.
Qed.

Lemma iads_config_last_entry_witness :
  exists self,
    IadsNetwork_init true
      [ElementDict [("A", ["B"]); ("C", ["B"])]; ElementStr "A";
       ElementDict [("C", ["D"])]] = Ok self
    /\ Dict.get String.eqb "A" (iads_config self) = Some []
    /\ Dict.get String.eqb "C" (iads_config self) = Some ["D"]
    /\ Dict.keys (iads_config self) = ["A"; "C"].
Proof.
  eexists. split; [reflexivity|].
  destruct (@iads_config_last_entry true
              [ElementDict [("A", ["B"]); ("C", ["B"])]; ElementStr "A";
               ElementDict [("C", ["D"])]] _ eq_refl) as [Hget [Hkeys _]].
  split; [|split].
  - rewrite Hget. reflexivity.
  - rewrite Hget. reflexivity.
  - rewrite Hkeys. reflexivity.
Defined.

(** ** Get or create *)

Lemma GroupRef_eqb_eq (a b : GroupRef) : GroupRef_eqb a b = true <-> a = b.
Proof.
  unfold GroupRef_eqb. rewrite andb_true_iff, !Nat.eqb_eq.
  destruct a, b; simpl. split.
  - intros [-> ->]. reflexivity.
  - intros [= -> ->]. now split.
Qed.

Lemma find_index_app {A} (p : A -> bool) (l l' : list A) :
  find_index p l = None ->
  find_index p (l ++ l') =
  option_map (Nat.add (List.length l)) (find_index p l').
Proof.
  induction l as [|a l IH]; simpl.
  - intros _. now destruct (find_index p l').
  - destruct (p a); [discriminate|].
    destruct (find_index p l) as [i|]; [discriminate|]. intros _.
    rewrite IH by reflexivity. now destruct (find_index p l').
Qed.

Lemma existsb_find_index {A} (p : A -> bool) (l : list A) :
  existsb p l = match find_index p l with Some _ => true | None => false end.
Proof.
  induction l as [|a l IH]; simpl; [reflexivity|].
  destruct (p a); simpl; [reflexivity|].
  rewrite IH. now destruct (find_index p l).
Qed.

(** X3: [node_for_group] returns a node whose primary group is the given
    group; it appends a node without connections when no node has that
    group and leaves the network as it is otherwise; asked again, it
    returns the same node and changes nothing. *)
Theorem node_for_group_get_or_create (self : IadsNetwork) (g : GroupRef) :
  let r := node_for_group self g in
  nth_error (map group (nodes (fst r))) (snd r) = Some g
  /\ fst r =
     (if existsb (fun cn => GroupRef_eqb (group cn) g) (nodes self)
      then self
      else set_nodes self (nodes self ++ [IadsNetworkNode_init g]))
  /\ node_for_group (fst r) g = r.
Proof.
  cbv zeta. rewrite existsb_find_index.
  destruct (find_index (fun cn => GroupRef_eqb (group cn) g) (nodes self))
    as [i|] eqn:Hfind.
  - assert (Hr : node_for_group self g = (self, i))
      by (unfold node_for_group; now rewrite Hfind).
    rewrite Hr. cbn [fst snd].
    destruct (find_index_Some _ _ Hfind) as [cn [Hi [Hcn _]]].
    apply GroupRef_eqb_eq in Hcn. repeat split; [|exact Hr].
    rewrite nth_error_map, Hi. simpl. now rewrite Hcn.
  - assert (Hr : node_for_group self g =
                 (set_nodes self (nodes self ++ [IadsNetworkNode_init g]),
                  List.length (nodes self)))
      by (unfold node_for_group; now rewrite Hfind).
    rewrite Hr. cbn [fst snd]. repeat split.
    + rewrite nodes_set_nodes, map_app, nth_error_app2
        by (rewrite length_map; lia).
      rewrite length_map, Nat.sub_diag. reflexivity.
    + unfold node_for_group.
      rewrite nodes_set_nodes, (@find_index_app _ _ _ _ Hfind). simpl.
      assert (Hg : GroupRef_eqb g g = true) by now apply GroupRef_eqb_eq.
      rewrite Hg. simpl. now rewrite Nat.add_0_r.
Qed.

Section GetOrCreate.
Context {catalog : RoleCatalog} {theater : Theater}.
Variable w : World.

(** X4: [node_for_tgo] is idempotent: run again on the network it leaves,
    it returns the same answer, draws no identifier and changes nothing, so
    that no second node is created and no point defense is connected
    twice. *)
Theorem node_for_tgo_idempotent (self : IadsNetwork) (tgo : TgoRef)
  (n : nat) :
  let r := node_for_tgo w self tgo n in
  node_for_tgo w (fst (result r)) tgo (supply r) = (result r, supply r, []).
Proof.
  cbv zeta.
  destruct (find_index (anchored_on tgo) (nodes self)) as [i|] eqn:Hfind.
  - rewrite (node_for_tgo_existing w self tgo n Hfind). run.
    now apply node_for_tgo_existing.
  - rewrite (@node_for_tgo_new _ w self tgo n Hfind).
    destruct (scan_primary w (groups_of w tgo)) as [[g later]|] eqn:Hscan.
    + cbv zeta. run.
      apply node_for_tgo_existing.
      rewrite nodes_set_nodes, (@find_index_app _ _ _ _ Hfind). simpl.
      assert (Hg : anchored_on tgo
                     (attach (IadsNetworkNode_init g) n
                        (filter (living_point_defense w) later)) = true).
      { unfold anchored_on. simpl. apply Nat.eqb_eq.
        destruct (scan_primary_Some w _ Hscan) as [before [Hsplit _]].
        apply (groups_of_ground_object w tgo). rewrite Hsplit.
        apply in_or_app. right. now left. }
      rewrite Hg. simpl. now rewrite Nat.add_0_r.
    + run. rewrite (@node_for_tgo_new _ w self tgo n Hfind), Hscan.
      reflexivity.
Qed.

(** X5: for a node whose identifiers are older than the next draw,
    [add_connection_for_tgo] keeps the connections of the node and appends
    one connection per IADS group of the ground object whose role
    participates, in the order of the groups and under the identifiers
    drawn, whether or not the group has a living unit; it emits nothing. *)
Theorem add_connection_for_tgo_links (cn : IadsNetworkNode) (tgo : TgoRef)
  (n : nat) :
  node_fresh n cn ->
  let r := add_connection_for_tgo w cn tgo n in
  let gs :=
    filter (fun g => is_iads_ground_group (group_at w g)
                     && participate (iads_role (group_at w g)))
           (groups_of w tgo) in
  group (result r) = group cn
  /\ connections (result r)
     = connections cn ++ combine (seq n (List.length gs)) gs
  /\ supply r = n + List.length gs
  /\ emitted r = [].
Proof.
  intros Hn. cbv zeta.
  rewrite (add_connection_for_tgo_attach w tgo Hn). repeat split.
Qed.

End GetOrCreate.

(** ** Connections from the configuration *)

Section Configuration.
Context {catalog : RoleCatalog} {theater : Theater}.
Variable w : World.

(** Closed form of [_add_connections_from_config] for the node at position
    [i]. *)
Lemma _add_connections_from_config_attach (self : IadsNetwork) (i : nat)
  (cn : IadsNetworkNode) (n : nat) :
  nth_error (nodes self) i = Some cn ->
  node_fresh n cn ->
  let primary := original_name (ground_object (group cn)) in
  let gs := config_links w self (group cn) in
  _add_connections_from_config w self i n =
  (set_iads_config
     (set_nodes self (replace_node i (attach cn n gs) (nodes self)))
     (match Dict.get String.eqb primary (iads_config self) with
      | Some _ => iads_config self
      | None => iads_config self ++ [(primary, [])]
      end),
   n + List.length gs, []).
Proof.
  intros Hi Hn primary gs.
  assert (Hloop : forall l,
    foldM (fun cn0 secondary_node =>
             match Dict.get String.eqb secondary_node (ground_objects self)
             with
             | Some tgo => add_connection_for_tgo w cn0 tgo
             | None => ret cn0
             end) cn l n =
    (attach cn n
       (flat_map (fun secondary =>
                    match Dict.get String.eqb secondary (ground_objects self)
                    with
                    | Some tgo => participating_groups w tgo
                    | None => []
                    end) l),
     n + List.length
           (flat_map (fun secondary =>
                        match Dict.get String.eqb secondary
                                       (ground_objects self) with
                        | Some tgo => participating_groups w tgo
                        | None => []
                        end) l), [])).
  { intros l.
    apply (foldM_attach
             (fun cn0 secondary_node =>
                match Dict.get String.eqb secondary_node (ground_objects self)
                with
                | Some tgo => add_connection_for_tgo w cn0 tgo
                | None => ret cn0
                end)
             (fun _ secondary =>
                match Dict.get String.eqb secondary (ground_objects self)
                with
                | Some tgo => participating_groups w tgo
                | None => []
                end)); [|exact Hn].
    intros cn0 secondary n0 Hn0.
    destruct (Dict.get String.eqb secondary (ground_objects self)) as [t|].
    - now apply add_connection_for_tgo_attach.
    - unfold ret. now rewrite attach_nil, Nat.add_0_r. }
  unfold _add_connections_from_config. rewrite Hi.
  unfold gs, config_links, configured. fold primary.
  destruct (Dict.get String.eqb primary (iads_config self)) as [l|] eqn:Hget.
  - erewrite bind_run_eq by (eapply on_node_at; [exact Hi|apply Hloop]).
    reflexivity.
  - erewrite bind_run_eq by (eapply on_node_at; [exact Hi|apply Hloop]).
    unfold ret. simpl flat_map.
    rewrite (DictFacts.set_fresh String.eqb String.eqb_eq)
      by (now apply (DictFacts.get_None String.eqb String.eqb_eq)).
    reflexivity.
Qed.

(** X6: for the node at position [i], with identifiers older than the next
    draw, [_add_connections_from_config] appends to the node one connection
    per participating IADS group of every ground object that the
    configuration lists for the name of the node's ground object and that
    the registry holds, in the order of the configuration; a listed name
    that the registry does not hold is skipped and the names after it are
    still processed.  The other nodes, the registry and the mode are left
    alone and nothing is emitted. *)
Theorem _add_connections_from_config_links (self : IadsNetwork) (i : nat)
  (cn : IadsNetworkNode) (n : nat) :
  nth_error (nodes self) i = Some cn ->
  node_fresh n cn ->
  let r := _add_connections_from_config w self i n in
  let gs := config_links w self (group cn) in
  nodes (result r)
  = firstn i (nodes self)
    ++ {| group := group cn;
          connections :=
            connections cn ++ combine (seq n (List.length gs)) gs |}
       :: skipn (S i) (nodes self)
  /\ supply r = n + List.length gs
  /\ emitted r = []
  /\ ground_objects (result r) = ground_objects self
  /\ advanced_iads (result r) = advanced_iads self.
Proof.
  intros Hi Hn. cbv zeta.
  rewrite (_add_connections_from_config_attach self i Hi Hn).
  repeat split.
Qed.

(** X7: the configuration is a [defaultdict]: when the name of the node's
    ground object is not one of its keys, [_add_connections_from_config]
    stores an empty list under that name, at the end of the configuration,
    and does nothing else. *)
Theorem _add_connections_from_config_unconfigured (self : IadsNetwork)
  (i : nat) (cn : IadsNetworkNode) (n : nat) :
  nth_error (nodes self) i = Some cn ->
  Dict.get String.eqb (original_name (ground_object (group cn)))
           (iads_config self) = None ->
  _add_connections_from_config w self i n =
  (set_iads_config self
     (iads_config self
      ++ [(original_name (ground_object (group cn)), [])]),
   n, []).
Proof.
  intros Hi Hget. unfold _add_connections_from_config. rewrite Hi, Hget.
  erewrite bind_run_eq by (eapply on_node_at; [exact Hi|reflexivity]).
  unfold ret.
  rewrite (DictFacts.set_fresh String.eqb String.eqb_eq)
    by (now apply (DictFacts.get_None String.eqb String.eqb_eq)).
  replace (firstn i (nodes self) ++ cn :: skipn (S i) (nodes self))
    with (nodes self).
  - now rewrite set_nodes_nodes.
  - rewrite <- (firstn_skipn i (nodes self)) at 1. f_equal.
    clear - Hi. revert i Hi.
    induction (nodes self) as [|a l IH]; intros [|i] Hi; try discriminate.
    + simpl in *. congruence.
    + simpl in *. now apply IH.
Qed.

(** X8: on a registry that holds its objects under their names,
    [initialize_network_from_config] leaves the configuration as it found
    it (the dict whose keys it iterates is not resized by the reads of its
    body), as well as the registry and the mode. *)
Theorem initialize_network_from_config_reads_only (self : IadsNetwork)
  (n : nat) :
  registry_consistent self ->
  let r := initialize_network_from_config w self n in
  iads_config (result r) = iads_config self
  /\ ground_objects (result r) = ground_objects self
  /\ advanced_iads (result r) = advanced_iads self.
Proof.
  intros Hc. cbv zeta. split; [|split].
  - now apply initialize_network_from_config_keeps_config.
  - apply (extends_registry (initialize_network_from_config_extends w self n)).
  - apply (initialize_network_from_config_extends w self n).
Qed.

End Configuration.

(** ** What the construction builds *)

Lemma find_app_last {A} (p : A -> bool) (l : list A) (a : A) :
  find p (l ++ [a]) =
  match find p l with
  | Some b => Some b
  | None => if p a then Some a else None
  end.
Proof.
  induction l as [|b l IH]; simpl; [reflexivity|].
  now destruct (p b).
Qed.

Lemma grows_by_refl (P : GroupRef -> Prop) (reg0 : Dict.t string TgoRef)
  (a : IadsNetwork) : grows_by P reg0 a a.
Proof. intros Hreg. split; [exact Hreg|]. intros g Hg. now left. Qed.

Lemma grows_by_trans (P : GroupRef -> Prop) (reg0 : Dict.t string TgoRef)
  (a b c : IadsNetwork) :
  grows_by P reg0 a b -> grows_by P reg0 b c -> grows_by P reg0 a c.
Proof.
  intros Hab Hbc Hreg. destruct (Hab Hreg) as [Hb Hgb].
  destruct (Hbc Hb) as [Hc Hgc]. split; [exact Hc|].
  intros g Hg. destruct (Hgc g Hg) as [Hin|HP]; [now apply Hgb|now right].
Qed.

Section Registry.
Context {theater : Theater}.

Lemma register_ground_objects_get (k : string) (tgos : list TgoRef) :
  forall self,
    Dict.get String.eqb k (ground_objects (register_ground_objects self tgos))
    = match last_named k tgos with
      | Some t => Some t
      | None => Dict.get String.eqb k (ground_objects self)
      end.
Proof.
  unfold register_ground_objects, last_named.
  induction tgos as [|t tgos IH]; intros self; simpl; [reflexivity|].
  rewrite IH, find_app_last, ground_objects_set_ground_objects.
  destruct (find _ (rev tgos)); [reflexivity|].
  destruct (String.eqb_spec (original_name t) k) as [<-|Hne].
  - apply (DictFacts.get_set_same String.eqb String.eqb_eq).
  - rewrite (DictFacts.get_set_other String.eqb String.eqb_eq); auto.
Qed.

End Registry.

Section Soundness.
Context {catalog : RoleCatalog} {theater : Theater}.
Variable w : World.

(** X9: after [initialize_network], the registry holds under a name the
    last of the given ground objects that carries this name (an earlier one
    of the same name is forgotten), and what it held before under the
    other names. *)
Theorem initialize_network_registry (self : IadsNetwork)
  (tgos : list TgoRef) (n : nat) (k : string) :
  Dict.get String.eqb k
    (ground_objects (result (initialize_network w self tgos n)))
  = match last_named k tgos with
    | Some t => Some t
    | None => Dict.get String.eqb k (ground_objects self)
    end.
Proof.
  rewrite (extends_registry (initialize_network_extends w self tgos n)).
  apply register_ground_objects_get.
Qed.

Lemma node_for_tgo_grows (P : GroupRef -> Prop)
  (reg0 : Dict.t string TgoRef) (self : IadsNetwork) (tgo : TgoRef)
  (n : nat) :
  (forall g, ground_object g = tgo -> first_candidate w g -> P g) ->
  grows_by P reg0 self (fst (result (node_for_tgo w self tgo n))).
Proof.
  intros HP Hreg.
  destruct (node_for_tgo_cases w self tgo n)
    as [[i [cn [-> _]]]|[[_ [_ [-> _]]]|[_ [g [later [Hscan [Hg [-> _]]]]]]]];
    simpl fst; try (split; [exact Hreg|now left]).
  split; [exact Hreg|]. intros g0. rewrite nodes_set_nodes, map_app.
  intros Hin. apply in_app_or in Hin. destruct Hin as [Hin|[<-|[]]].
  - now left.
  - right. simpl. apply HP; [exact Hg|].
    exists later. now rewrite Hg.
Qed.

Lemma same_groups_grows (P : GroupRef -> Prop)
  (reg0 : Dict.t string TgoRef) (a b : IadsNetwork) :
  extends a b -> map group (nodes b) = map group (nodes a) ->
  grows_by P reg0 a b.
Proof.
  intros Hext Hmap Hreg. split.
  - now rewrite (extends_registry Hext).
  - intros g. rewrite Hmap. now left.
Qed.

Lemma _make_advanced_connections_by_range_groups (self : IadsNetwork)
  (node n : nat) :
  map group
    (nodes (result (_make_advanced_connections_by_range w self node n)))
  = map group (nodes self).
Proof.
  unfold _make_advanced_connections_by_range.
  rewrite result_bind_ret, nodes_set_nodes.
  apply on_node_groups. apply range_step_keeps_group.
Qed.

Lemma _add_connections_from_config_groups (self : IadsNetwork)
  (node n : nat) :
  map group (nodes (result (_add_connections_from_config w self node n)))
  = map group (nodes self).
Proof.
  unfold _add_connections_from_config.
  destruct (nth_error (nodes self) node) as [cn|]; [|reflexivity].
  destruct (Dict.get String.eqb _ (iads_config self)) as [l|];
    rewrite result_bind_ret, nodes_set_iads_config, nodes_set_nodes;
    apply on_node_groups; apply config_step_keeps_group.
Qed.

Lemma initialize_basic_iads_grows (self : IadsNetwork) (n : nat) :
  grows_by
    (fun g =>
       In (ground_object g) (Dict.values (ground_objects self))
       /\ first_candidate w g
       /\ is_iads_ground_object (tgo_at w (ground_object g)) = true)
    (ground_objects self)
    self (result (initialize_basic_iads w self n)).
Proof.
  unfold initialize_basic_iads.
  apply (foldM_rel
           (grows_by
              (fun g =>
                 In (ground_object g) (Dict.values (ground_objects self))
                 /\ first_candidate w g
                 /\ is_iads_ground_object (tgo_at w (ground_object g)) = true)
              (ground_objects self)));
    [apply grows_by_refl|apply grows_by_trans|].
  intros a go n0 Hgo.
  destruct (is_iads_ground_object (tgo_at w go)) eqn:Hclass;
    [|apply grows_by_refl].
  rewrite result_bind_ret. apply node_for_tgo_grows.
  intros g <- Hfirst. now repeat split.
Qed.

Lemma initialize_network_from_range_grows (self : IadsNetwork) (n : nat) :
  grows_by
    (fun g =>
       In (ground_object g) (Dict.values (ground_objects self))
       /\ first_candidate w g
       /\ selected_by_range w (ground_object g) = true)
    (ground_objects self)
    self (result (initialize_network_from_range w self n)).
Proof.
  unfold initialize_network_from_range.
  apply (foldM_rel
           (grows_by
              (fun g =>
                 In (ground_object g) (Dict.values (ground_objects self))
                 /\ first_candidate w g
                 /\ selected_by_range w (ground_object g) = true)
              (ground_objects self)));
    [apply grows_by_refl|apply grows_by_trans|].
  intros a go n0 Hgo. cbv zeta.
  change (is_iads_ground_object (tgo_at w go)
          || is_naval_ground_object (tgo_at w go)
          || is_iads_building_ground_object (tgo_at w go)
             && IadsRole_eqb (for_category (category (tgo_at w go)))
                  COMMAND_CENTER)
    with (selected_by_range w go).
  destruct (selected_by_range w go) eqn:Hsel; [|apply grows_by_refl].
  rewrite result_bind_M.
  pose proof (@node_for_tgo_grows
                (fun g =>
                   In (ground_object g) (Dict.values (ground_objects self))
                   /\ first_candidate w g
                   /\ selected_by_range w (ground_object g) = true)
                (ground_objects self) a go n0) as Hnode.
  destruct (result (node_for_tgo w a go n0)) as [a1 [node|]];
    simpl fst in Hnode.
  - eapply grows_by_trans.
    + apply Hnode. intros g <- Hfirst. now repeat split.
    + apply same_groups_grows.
      * apply _make_advanced_connections_by_range_extends.
      * apply _make_advanced_connections_by_range_groups.
  - apply Hnode. intros g <- Hfirst. now repeat split.
Qed.

Lemma initialize_network_from_config_grows (self : IadsNetwork) (n : nat) :
  grows_by
    (fun g =>
       (exists key,
           In key (Dict.keys (iads_config self))
           /\ Dict.get String.eqb key (ground_objects self)
              = Some (ground_object g))
       /\ first_candidate w g)
    (ground_objects self)
    self (result (initialize_network_from_config w self n)).
Proof.
  unfold initialize_network_from_config.
  apply (foldM_rel
           (grows_by
              (fun g =>
                 (exists key,
                     In key (Dict.keys (iads_config self))
                     /\ Dict.get String.eqb key (ground_objects self)
                        = Some (ground_object g))
                 /\ first_candidate w g)
              (ground_objects self)));
    [apply grows_by_refl|apply grows_by_trans|].
  intros a key n0 Hkey Hreg.
  match goal with
  | |- ground_objects (result ?r) = _ /\ _ =>
      assert (Hstep :
        grows_by
          (fun g =>
             (exists key,
                 In key (Dict.keys (iads_config self))
                 /\ Dict.get String.eqb key (ground_objects self)
                    = Some (ground_object g))
             /\ first_candidate w g)
          (ground_objects self) a (result r)); [|exact (Hstep Hreg)]
  end.
  rewrite result_bind_M.
  destruct (Dict.get String.eqb key (ground_objects a)) as [t|] eqn:Hget;
    [|now apply grows_by_refl].
  pose proof (@node_for_tgo_grows
                (fun g =>
                   (exists key,
                       In key (Dict.keys (iads_config self))
                       /\ Dict.get String.eqb key (ground_objects self)
                          = Some (ground_object g))
                   /\ first_candidate w g)
                (ground_objects self) a t n0) as Hnode.
  assert (HP : forall g, ground_object g = t -> first_candidate w g ->
               (exists key,
                   In key (Dict.keys (iads_config self))
                   /\ Dict.get String.eqb key (ground_objects self)
                      = Some (ground_object g))
               /\ first_candidate w g).
  { intros g Hg Hfirst. split; [|exact Hfirst].
    exists key. split; [exact Hkey|]. now rewrite <- Hreg, Hg. }
  specialize (Hnode HP).
  destruct (result (node_for_tgo w a t n0)) as [a1 [node|]];
    simpl fst in Hnode; [|exact Hnode].
  eapply grows_by_trans; [exact Hnode|].
  apply same_groups_grows.
  - apply _add_connections_from_config_extends.
  - apply _add_connections_from_config_groups.
Qed.

(** X10: every node of the network [initialize_network] builds from a
    network just constructed is the node of a ground object the registry
    holds, and its primary group is the first IADS group of that object
    with a living unit and a participating role.  When the advanced
    construction leaves a node, the object of every node is one this
    construction selects: a primary key of the configuration, or an object
    of the range pass.  When it leaves none (basic mode, or fallback to it),
    the object of every node is an IADS ground object. *)
Theorem initialize_network_sound (self : IadsNetwork) (tgos : list TgoRef)
  (n : nat) :
  fresh_network self ->
  let r1 := initialize_advanced w (register_ground_objects self tgos) n in
  let self' := result (initialize_network w self tgos n) in
  Forall (fun cn =>
            let t := ground_object (group cn) in
            In t (Dict.values (ground_objects self'))
            /\ first_candidate w (group cn)
            /\ match nodes (result r1) with
               | [] => is_iads_ground_object (tgo_at w t) = true
               | _ :: _ =>
                   advanced_iads self = true /\ selected w self t = true
               end)
         (nodes self').
Proof.
  intros Hfresh. cbv zeta.
  rewrite (extends_registry (initialize_network_extends w self tgos n)).
  rewrite result_initialize_network. cbv zeta.
  destruct (register_ground_objects_nodes self tgos) as [Hn [Ha Hc]].
  assert (Hcons : registry_consistent (register_ground_objects self tgos))
    by (apply register_ground_objects_consistent;
        now apply fresh_network_consistent).
  set (self0 := register_ground_objects self tgos) in *.
  assert (Hnil : nodes self0 = []) by (rewrite Hn; apply Hfresh).
  (* the advanced block *)
  assert (Hadv :
    forall g,
      In g (map group (nodes (result (initialize_advanced w self0 n)))) ->
      advanced_iads self = true
      /\ In (ground_object g) (Dict.values (ground_objects self0))
      /\ first_candidate w g
      /\ selected w self (ground_object g) = true).
  { intros g Hg. unfold initialize_advanced in Hg. unfold selected.
    rewrite <- Ha, <- Hc.
    destruct (advanced_iads self0);
      [|change (In g (map group (nodes self0))) in Hg;
        rewrite Hnil in Hg; destruct Hg].
    split; [reflexivity|].
    destruct (Dict.truthy (iads_config self0)).
    - destruct (initialize_network_from_config_grows self0 n eq_refl)
        as [_ Hgrow].
      destruct (Hgrow g Hg) as [Hin|[[key [Hkey Hget]] Hfirst]];
        [rewrite Hnil in Hin; destruct Hin|].
      repeat split; [eapply get_values; exact Hget|exact Hfirst|].
      rewrite (Hcons _ _ Hget). unfold Dict.mem.
      destruct (Dict.get String.eqb key (iads_config self0)) eqn:Hcfg;
        [reflexivity|].
      apply (DictFacts.get_None String.eqb String.eqb_eq) in Hcfg.
      contradiction.
    - destruct (initialize_network_from_range_grows self0 n eq_refl)
        as [_ Hgrow].
      destruct (Hgrow g Hg) as [Hin|[Hin [Hfirst Hsel]]];
        [rewrite Hnil in Hin; destruct Hin|].
      now repeat split. }
  pose proof (extends_registry (initialize_advanced_extends w self0 n))
    as Hreg1.
  set (r1 := initialize_advanced w self0 n) in *.
  apply Forall_forall. intros cn Hcn.
  destruct (nodes (result r1)) as [|cn1 ns1] eqn:Hnodes.
  - destruct (initialize_basic_iads_grows (result r1) (supply r1) eq_refl)
      as [_ Hgrow].
    destruct (Hgrow (group cn) (in_map group _ _ Hcn))
      as [Hin|[Hin [Hfirst Hclass]]];
      [rewrite Hnodes in Hin; destruct Hin|].
    rewrite Hreg1 in Hin. repeat split; [exact Hin|exact Hfirst|].
    exact Hclass.
  - rewrite Hnodes in Hcn.
    destruct (Hadv (group cn) (in_map group _ _ Hcn))
      as [Hmode [Hin [Hfirst Hsel]]].
    repeat split; [exact Hin|exact Hfirst|exact Hmode|exact Hsel].
Qed.

End Soundness.

(** ** Updates *)

Lemma set_iads_config_same (self : IadsNetwork)
  (ns : list IadsNetworkNode) :
  set_iads_config (set_nodes self ns) (iads_config self) = set_nodes self ns.
Proof. reflexivity. Qed.

Lemma replace_node_last (ns : list IadsNetworkNode)
  (cn cn' : IadsNetworkNode) :
  replace_node (List.length ns) cn' (ns ++ [cn]) = ns ++ [cn'].
Proof.
  unfold replace_node.
  rewrite skipn_all2 by (rewrite length_app; simpl; lia).
  rewrite firstn_app, firstn_all, Nat.sub_diag. simpl.
  now rewrite app_nil_r.
Qed.

Lemma filter_filter {A} (p : A -> bool) (l : list A) :
  filter p (filter p l) = filter p l.
Proof.
  apply filter_all. intros a Ha. apply filter_In in Ha. tauto.
Qed.

Section Rebuild.
Context {catalog : RoleCatalog} {theater : Theater}.
Variable w : World.

(** Closed form of the path of [update_tgo] that rebuilds a node. *)
Lemma update_tgo_primary_closed (self : IadsNetwork) (tgo : TgoRef)
  (n : nat) :
  advanced_iads self
  && is_comms_or_power (for_category (category (tgo_at w tgo))) = false ->
  NoDup (anchors (nodes self)) ->
  let kept := filter (not_anchored_on tgo) (nodes self) in
  let deletions := deletions_for tgo (nodes self) in
  match scan_primary w (groups_of w tgo) with
  | None => update_tgo w self tgo n = (Ok (set_nodes self kept), n, deletions)
  | Some (g, later) =>
      let gs :=
        filter (living_point_defense w) later ++ resolved_links w self g in
      update_tgo w self tgo n =
      (Ok (set_iads_config
             (set_nodes self (kept ++ [attach (IadsNetworkNode_init g) n gs]))
             (config_read self (original_name tgo))),
       n + List.length gs, deletions ++ [update_iads_node g])
  end.
Proof.
  intros Hpath Hnd kept deletions.
  pose proof (@update_tgo_primary _ _ w self tgo n Hpath Hnd) as Hup.
  cbv zeta in Hup. fold kept in Hup. fold deletions in Hup.
  destruct (scan_primary w (groups_of w tgo)) as [[g later]|] eqn:Hscan;
    [|exact Hup].
  assert (Hg : ground_object g = tgo).
  { destruct (scan_primary_Some w _ Hscan) as [before [Hsplit _]].
    apply (groups_of_ground_object w tgo). rewrite Hsplit.
    apply in_or_app. right. now left. }
  cbv zeta. rewrite Hup. clear Hup.
  set (pds := filter (living_point_defense w) later).
  set (cn := attach (IadsNetworkNode_init g) n pds).
  assert (Hi : nth_error (nodes (set_nodes self (kept ++ [cn])))
                         (List.length kept) = Some cn)
    by (rewrite nodes_set_nodes, nth_error_app2, Nat.sub_diag by lia;
        reflexivity).
  assert (Hn : node_fresh (n + List.length pds) cn)
    by (apply node_fresh_attach; apply node_fresh_init).
  unfold resolved_links, config_read.
  destruct (advanced_iads self) eqn:Hadv.
  - destruct (Dict.truthy (iads_config self)) eqn:Hcfg; cbn [andb].
    + rewrite (_add_connections_from_config_attach w _ _ Hi Hn).
      cbv zeta. run. rewrite nodes_set_nodes, replace_node_last.
      rewrite set_nodes_set_nodes, iads_config_set_nodes.
      unfold cn at 1 2. rewrite attach_attach, length_app, Nat.add_assoc.
      simpl group. rewrite Hg. reflexivity.
    + rewrite (_make_advanced_connections_by_range_attach w _ _ Hi Hn).
      cbv zeta. run. rewrite nodes_set_nodes.
      fold (replace_node (List.length kept)
              (attach cn (n + List.length pds)
                 (flat_map (range_links w (group cn))
                    (Dict.values
                       (ground_objects (set_nodes self (kept ++ [cn]))))))
              (kept ++ [cn])).
      rewrite replace_node_last, set_nodes_set_nodes.
      rewrite ground_objects_set_nodes.
      unfold cn at 1 3. rewrite attach_attach, length_app, Nat.add_assoc.
      rewrite set_iads_config_same. reflexivity.
  - cbn [andb]. unfold ret. run. rewrite app_nil_r.
    now rewrite set_iads_config_same.
Qed.

(** C4: for a ground object that is not infrastructure, in a network with
    at most one node per ground object, [update_tgo] removes the node of
    the object and notifies the deletion of each of its connections; when
    no group of the object can be a primary group it stops there, with no
    draw and nothing more notified; otherwise it appends the recomputed
    node, whose primary group is the first group that can be one, and
    notifies its update once.  The connections of that node are, under the
    identifiers drawn from the [n]-th on, the living point defenses that
    follow the primary group and then, in advanced mode only, the
    participating groups of the registered objects the configuration lists
    for the object when there is a configuration, those of the comms and
    power objects in range otherwise.  The network is otherwise unchanged,
    up to the empty list the [defaultdict] stores when the configuration
    is read at the name of an object it does not have. *)
Theorem update_tgo_primary_path (self : IadsNetwork) (tgo : TgoRef)
  (n : nat) :
  is_comms_or_power (for_category (category (tgo_at w tgo))) = false ->
  NoDup (anchors (nodes self)) ->
  let kept := filter (not_anchored_on tgo) (nodes self) in
  let deletions := deletions_for tgo (nodes self) in
  match scan_primary w (groups_of w tgo) with
  | None => update_tgo w self tgo n = (Ok (set_nodes self kept), n, deletions)
  | Some (g, later) =>
      let pds := filter (living_point_defense w) later in
      let resolved :=
        if advanced_iads self then
          if Dict.truthy (iads_config self) then config_links w self g
          else flat_map (range_links w g) (Dict.values (ground_objects self))
        else [] in
      let node :=
        {| group := g;
           connections :=
             combine (seq n (List.length (pds ++ resolved)))
                     (pds ++ resolved) |} in
      update_tgo w self tgo n =
      (Ok (set_iads_config (set_nodes self (kept ++ [node]))
                           (config_read self (original_name tgo))),
       n + List.length (pds ++ resolved),
       deletions ++ [update_iads_node g])
  end.
Proof.
  intros Hrole Hnd kept deletions.
  assert (Hpath :
    advanced_iads self
    && is_comms_or_power (for_category (category (tgo_at w tgo))) = false)
    by (rewrite Hrole; apply andb_false_r).
  pose proof (update_tgo_primary_closed self tgo n Hpath Hnd) as Hup.
  cbv zeta in Hup. fold kept in Hup. fold deletions in Hup.
  destruct (scan_primary w (groups_of w tgo)) as [[g later]|];
    [|exact Hup].
  cbv zeta. rewrite Hup. reflexivity.
Qed.

Lemma scan_primary_ground_object (tgo : TgoRef) (g : GroupRef)
  (later : list GroupRef) :
  scan_primary w (groups_of w tgo) = Some (g, later) -> ground_object g = tgo.
Proof.
  intros Hscan.
  destruct (scan_primary_Some w _ Hscan) as [before [Hsplit _]].
  apply (groups_of_ground_object w tgo). rewrite Hsplit.
  apply in_or_app. right. now left.
Qed.

Lemma filter_kept_anchored (tgo : TgoRef) (ns : list IadsNetworkNode) :
  filter (anchored_on tgo) (filter (not_anchored_on tgo) ns) = [].
Proof.
  apply filter_none. intros cn Hcn. apply filter_In in Hcn.
  destruct Hcn as [_ Hcn]. unfold not_anchored_on in Hcn.
  now destruct (anchored_on tgo cn).
Qed.

(** X11: for a ground object that is not handled as infrastructure (any
    object in basic mode, an object that is not comms or power in advanced
    mode), in a network with at most one node per ground object,
    [update_tgo] leaves every node of the other ground objects as it was,
    in the same order, and leaves the object with exactly one node, placed
    last, when one of its IADS groups has a living unit and a
    participating role, and with no node otherwise. *)
Theorem update_tgo_rebuilds_node (self : IadsNetwork) (tgo : TgoRef)
  (n : nat) :
  advanced_iads self
  && is_comms_or_power (for_category (category (tgo_at w tgo))) = false ->
  NoDup (anchors (nodes self)) ->
  exists self',
    result (update_tgo w self tgo n) = Ok self'
    /\ filter (not_anchored_on tgo) (nodes self')
       = filter (not_anchored_on tgo) (nodes self)
    /\ match scan_primary w (groups_of w tgo) with
       | Some (g, _) =>
           exists cn,
             nodes self' = filter (not_anchored_on tgo) (nodes self) ++ [cn]
             /\ group cn = g /\ ground_object g = tgo
             /\ nodes_on self' tgo = 1
       | None => nodes_on self' tgo = 0
       end.
Proof.
  intros Hpath Hnd.
  pose proof (update_tgo_primary_closed self tgo n Hpath Hnd) as Hup.
  cbv zeta in Hup.
  destruct (scan_primary w (groups_of w tgo)) as [[g later]|] eqn:Hscan;
    rewrite Hup; eexists; (split; [reflexivity|]).
  - pose proof (scan_primary_ground_object _ Hscan) as Hg.
    rewrite nodes_set_iads_config, nodes_set_nodes.
    assert (Hnew : forall gs,
      anchored_on tgo (attach (IadsNetworkNode_init g) n gs) = true)
      by (intros gs; unfold anchored_on; simpl; now apply Nat.eqb_eq).
    split.
    + rewrite filter_app, filter_filter. simpl.
      unfold not_anchored_on at 2. rewrite Hnew. simpl.
      now rewrite app_nil_r.
    + eexists. repeat split; [exact Hg|].
      unfold nodes_on. rewrite nodes_set_iads_config, nodes_set_nodes.
      rewrite filter_app, filter_kept_anchored. simpl.
      now rewrite Hnew.
  - rewrite nodes_set_nodes. split; [apply filter_filter|].
    unfold nodes_on. rewrite nodes_set_nodes.
    now rewrite filter_kept_anchored.
Qed.

Lemma truthy_config_read (self : IadsNetwork) (primary : string) :
  Dict.truthy (config_read self primary) = Dict.truthy (iads_config self).
Proof.
  unfold config_read.
  destruct (advanced_iads self && Dict.truthy (iads_config self)) eqn:H;
    [|reflexivity].
  destruct (Dict.get String.eqb primary (iads_config self)); [reflexivity|].
  apply andb_true_iff in H. destruct H as [_ H].
  destruct (iads_config self); [discriminate|reflexivity].
Qed.

Lemma get_config_read (self : IadsNetwork) (primary : string) :
  match Dict.get String.eqb primary (config_read self primary) with
  | Some l => l
  | None => []
  end = configured self primary.
Proof.
  unfold config_read, configured.
  destruct (advanced_iads self && Dict.truthy (iads_config self));
    [|reflexivity].
  destruct (Dict.get String.eqb primary (iads_config self)) as [l|] eqn:Hget.
  - now rewrite Hget.
  - rewrite get_app, Hget. simpl. now rewrite String.eqb_refl.
Qed.

Lemma resolved_links_config_read (self : IadsNetwork)
  (ns : list IadsNetworkNode) (g : GroupRef) :
  resolved_links w
    (set_iads_config (set_nodes self ns)
       (config_read self (original_name (ground_object g)))) g
  = resolved_links w self g.
Proof.
  unfold resolved_links.
  rewrite advanced_set_iads_config, advanced_set_nodes.
  rewrite iads_config_set_iads_config, truthy_config_read.
  rewrite ground_objects_set_iads_config, ground_objects_set_nodes.
  destruct (advanced_iads self); [|reflexivity].
  destruct (Dict.truthy (iads_config self)); [|reflexivity].
  unfold config_links.
  rewrite ground_objects_set_iads_config, ground_objects_set_nodes.
  f_equal. unfold configured at 1. rewrite iads_config_set_iads_config.
  apply get_config_read.
Qed.

Lemma config_read_again (self : IadsNetwork) (ns : list IadsNetworkNode)
  (primary : string) :
  config_read
    (set_iads_config (set_nodes self ns) (config_read self primary)) primary
  = config_read self primary.
Proof.
  unfold config_read at 1.
  rewrite advanced_set_iads_config, advanced_set_nodes.
  rewrite iads_config_set_iads_config, truthy_config_read.
  destruct (advanced_iads self && Dict.truthy (iads_config self)) eqn:H;
    [|reflexivity].
  unfold config_read. rewrite H.
  destruct (Dict.get String.eqb primary (iads_config self)) as [l|] eqn:Hget.
  - now rewrite Hget.
  - rewrite get_app, Hget. simpl. now rewrite String.eqb_refl.
Qed.

Lemma kept_after_rebuild (tgo : TgoRef) (ns : list IadsNetworkNode)
  (cn : IadsNetworkNode) :
  anchored_on tgo cn = true ->
  filter (not_anchored_on tgo) (filter (not_anchored_on tgo) ns ++ [cn])
  = filter (not_anchored_on tgo) ns.
Proof.
  intros Hcn. rewrite filter_app, filter_filter. simpl.
  unfold not_anchored_on at 2. rewrite Hcn. simpl. apply app_nil_r.
Qed.

Lemma anchored_after_rebuild (tgo : TgoRef) (ns : list IadsNetworkNode)
  (cn : IadsNetworkNode) :
  anchored_on tgo cn = true ->
  filter (anchored_on tgo) (filter (not_anchored_on tgo) ns ++ [cn]) = [cn].
Proof.
  intros Hcn. rewrite filter_app, filter_kept_anchored. simpl.
  now rewrite Hcn.
Qed.

Lemma deleted_ids_deletions_for (tgo : TgoRef) (ns : list IadsNetworkNode) :
  deleted_ids (deletions_for tgo ns) = all_ids (filter (anchored_on tgo) ns).
Proof.
  unfold deletions_for, all_ids.
  induction ns as [|cn ns IH]; [reflexivity|].
  simpl. rewrite deleted_ids_app, IH.
  destruct (anchored_on tgo cn); [|reflexivity].
  simpl. f_equal. clear. unfold deleted_ids.
  induction (Dict.keys (connections cn)) as [|k ks IH]; [reflexivity|].
  simpl. now rewrite IH.
Qed.

(** X12: on the path that rebuilds a node, [update_tgo] is idempotent up
    to the identifiers of the rebuilt node: a second update of the same
    ground object in the same world announces the deletion of the
    connections the first one gave the node and leaves a network with the
    same nodes, connected to the same groups in the same order, and the
    same configuration. *)
Theorem update_tgo_twice (self self1 : IadsNetwork) (tgo : TgoRef)
  (n : nat) :
  advanced_iads self
  && is_comms_or_power (for_category (category (tgo_at w tgo))) = false ->
  NoDup (anchors (nodes self)) ->
  let r1 := update_tgo w self tgo n in
  result r1 = Ok self1 ->
  let r2 := update_tgo w self1 tgo (supply r1) in
  exists self2,
    result r2 = Ok self2
    /\ map group (nodes self2) = map group (nodes self1)
    /\ map connected_groups (nodes self2) = map connected_groups (nodes self1)
    /\ iads_config self2 = iads_config self1
    /\ ground_objects self2 = ground_objects self1
    /\ deleted_ids (emitted r2)
       = all_ids (filter (anchored_on tgo) (nodes self1)).
Proof.
  intros Hpath Hnd r1 Hres r2. subst r1 r2.
  pose proof (update_tgo_unique w self tgo n Hnd Hres) as Hnd1.
  pose proof (update_tgo_primary_closed self tgo n Hpath Hnd) as Hup.
  cbv zeta in Hup.
  destruct (scan_primary w (groups_of w tgo)) as [[g later]|] eqn:Hscan;
    rewrite Hup in Hres |- *; unfold result in Hres; simpl fst in Hres;
    injection Hres as <-; unfold supply at 1 2; simpl snd; simpl fst.
  - pose proof (scan_primary_ground_object _ Hscan) as Hg.
    match type of Hnd1 with
    | NoDup (anchors (nodes ?s1)) =>
        pose proof (@update_tgo_primary_closed s1 tgo
                      (n + List.length
                             (filter (living_point_defense w) later
                              ++ resolved_links w self g))
                      Hpath Hnd1) as Hup2
    end.
    cbv zeta in Hup2. rewrite Hscan in Hup2. rewrite Hup2. clear Hup2.
    rewrite nodes_set_iads_config, nodes_set_nodes.
    assert (Hnew : forall k gs,
      anchored_on tgo (attach (IadsNetworkNode_init g) k gs) = true)
      by (intros k gs; unfold anchored_on; simpl; now apply Nat.eqb_eq).
    rewrite (@kept_after_rebuild _ _ _ (Hnew _ _)).
    rewrite <- Hg in *.
    rewrite !resolved_links_config_read, config_read_again.
    eexists. split; [reflexivity|].
    rewrite ?nodes_set_iads_config, ?nodes_set_nodes.
    rewrite !map_app. simpl map.
    unfold connected_groups at 2 4. rewrite !values_attach.
    cbn [emitted snd].
    rewrite deleted_ids_app, deleted_ids_deletions_for.
    rewrite (@anchored_after_rebuild _ _ _ (Hnew _ _)).
    simpl. repeat split. now rewrite !app_nil_r.
  - match type of Hnd1 with
    | NoDup (anchors (nodes ?s1)) =>
        pose proof (@update_tgo_primary_closed s1 tgo n Hpath Hnd1) as Hup2
    end.
    cbv zeta in Hup2. rewrite Hscan in Hup2. rewrite Hup2. clear Hup2.
    rewrite nodes_set_nodes, filter_filter.
    eexists. split; [reflexivity|].
    rewrite ?nodes_set_nodes. repeat split.
    cbn [emitted snd]. apply deleted_ids_deletions_for.
Qed.

End Rebuild.

(** ** Updates of infrastructure *)

Lemma get_filter_kept (p : UUID * GroupRef -> bool)
  (d : Dict.t UUID GroupRef) (k : UUID) (g : GroupRef) :
  Dict.get Nat.eqb k d = Some g -> p (k, g) = true ->
  Dict.get Nat.eqb k (filter p d) = Some g.
Proof.
  induction d as [|[k0 v0] d IH]; simpl; [discriminate|].
  destruct (Nat.eqb_spec k k0) as [->|Hne].
  - intros [= ->] Hp. rewrite Hp. simpl. now rewrite Nat.eqb_refl.
  - intros Hget Hp. destruct (p (k0, v0)); simpl.
    + rewrite (proj2 (Nat.eqb_neq k k0) Hne). now apply IH.
    + now apply IH.
Qed.

Section InfrastructureFrame.
Context {catalog : RoleCatalog} {theater : Theater}.
Variable w : World.

(** X13: the two assertions of [_update_iads_comms_and_power] fail, before
    any change and any notification, exactly when the network is in basic
    mode or the ground object is not comms or power. *)
Theorem _update_iads_comms_and_power_asserts (self : IadsNetwork)
  (tgo : TgoRef) (n : nat) :
  let r := _update_iads_comms_and_power w self tgo n in
  match result r with
  | Ok _ =>
      advanced_iads self = true
      /\ is_comms_or_power (for_category (category (tgo_at w tgo))) = true
  | Raise e =>
      (advanced_iads self = false
       \/ is_comms_or_power (for_category (category (tgo_at w tgo))) = false)
      /\ (exists message, e = AssertionError message)
      /\ supply r = n /\ emitted r = []
  end.
Proof.
  cbv zeta. unfold _update_iads_comms_and_power.
  destruct (advanced_iads self); cbn [negb].
  - cbv zeta.
    destruct (is_comms_or_power (for_category (category (tgo_at w tgo))));
      cbn [negb].
    + rewrite result_bind_M.
      destruct (negb (Dict.truthy _)); [rewrite result_bind_ret|];
        now split.
    + unfold ret. run. repeat split; [now right|now eexists].
  - unfold ret. run. repeat split; [now left|now eexists].
Qed.

(** [update_tgo] returns a network in the mode of the one it was given. *)
Lemma update_tgo_mode (self self' : IadsNetwork) (tgo : TgoRef) (n : nat) :
  result (update_tgo w self tgo n) = Ok self' ->
  advanced_iads self' = advanced_iads self.
Proof.
  unfold update_tgo.
  destruct (advanced_iads self
            && is_comms_or_power (for_category (category (tgo_at w tgo)))).
  - intros Hres. now apply _update_iads_comms_and_power_shape in Hres.
  - rewrite result_bind_M, result_bind_M.
    set (ns := result (remove_existing_nodes tgo (nodes self) n)).
    pose proof (node_for_tgo_extends w (set_nodes self ns) tgo
                  (supply (remove_existing_nodes tgo (nodes self) n)))
      as [Hadv _].
    destruct (result (node_for_tgo w (set_nodes self ns) tgo _))
      as [self1 [node|]]; simpl fst in Hadv;
      rewrite advanced_set_nodes in Hadv.
    + rewrite result_bind_M.
      destruct (advanced_iads self1) eqn:Hadv1.
      * destruct (Dict.truthy (iads_config self1));
          rewrite result_bind_ret; intros [= <-].
        -- destruct (_add_connections_from_config_extends w self1 node
                       (supply
                          ((match nth_error (nodes self1) node with
                            | Some cn => emit (update_iads_node (group cn))
                            | None => ret tt
                            end)
                             (supply
                                (node_for_tgo w (set_nodes self ns) tgo
                                   (supply
                                      (remove_existing_nodes tgo
                                         (nodes self) n)))))))
             as [H _].
           congruence.
        -- destruct (_make_advanced_connections_by_range_extends w self1
                       node
                       (supply
                          ((match nth_error (nodes self1) node with
                            | Some cn => emit (update_iads_node (group cn))
                            | None => ret tt
                            end)
                             (supply
                                (node_for_tgo w (set_nodes self ns) tgo
                                   (supply
                                      (remove_existing_nodes tgo
                                         (nodes self) n)))))))
             as [H _].
           congruence.
      * intros [= <-]. congruence.
    + intros [= <-]. exact Hadv.
Qed.

(** X14: [update_tgo] never raises: it calls
    [_update_iads_comms_and_power] only where its assertions hold.  It
    returns a network in the same mode with the same registry, and does
    not take back an identifier it has drawn. *)
Theorem update_tgo_never_raises (self : IadsNetwork) (tgo : TgoRef)
  (n : nat) :
  let r := update_tgo w self tgo n in
  exists self',
    result r = Ok self'
    /\ advanced_iads self' = advanced_iads self
    /\ ground_objects self' = ground_objects self
    /\ n <= supply r.
Proof.
  cbv zeta. destruct (update_tgo_returns w self tgo n) as [self' Hres].
  exists self'. split; [exact Hres|].
  destruct (update_tgo_net_step w self tgo n Hres) as [[Hle _] Hreg].
  split; [|now split].
  now apply update_tgo_mode with (tgo := tgo) (n := n).
Qed.

(** X15: with a configuration, [update_tgo] on an infrastructure object
    only deletes: every node on the other side loses its connections to
    the object, with one deletion notified for each, every node on the side
    of the object keeps its connections, with one update notified for each
    connection to the object, and no connection is created, so that a
    connection deleted when the object was captured does not come back
    when the object is recaptured. *)
Theorem infrastructure_update_under_configuration (self : IadsNetwork)
  (tgo : TgoRef) (n : nat) :
  advanced_iads self = true ->
  is_comms_or_power (for_category (category (tgo_at w tgo))) = true ->
  Dict.truthy (iads_config self) = true ->
  NoDup (all_ids (nodes self)) ->
  update_tgo w self tgo n =
  (Ok (set_nodes self (map (scanned w tgo) (nodes self))), n,
   flat_map (scan_events w tgo) (nodes self)).
Proof.
  intros Hadv Hrole Hcfg Hnd.
  unfold update_tgo. rewrite Hadv, Hrole. cbn [andb].
  unfold _update_iads_comms_and_power. rewrite Hadv, Hrole. cbn [negb].
  cbv zeta.
  erewrite bind_run_eq
    by (apply scan_pass; now apply all_ids_keys_NoDup).
  rewrite iads_config_set_nodes, Hcfg. cbn [negb].
  unfold ret. now rewrite app_nil_r.
Qed.

Lemma participating_groups_ground_object (tgo : TgoRef) (g : GroupRef) :
  In g (participating_groups w tgo) -> ground_object g = tgo.
Proof.
  unfold participating_groups. intros Hin. apply filter_In in Hin.
  apply (groups_of_ground_object w tgo). tauto.
Qed.

Lemma links_to_attach (tgo : TgoRef) (cn : IadsNetworkNode) (k : nat)
  (gs : list GroupRef) :
  (forall g, In g gs -> ground_object g = tgo) ->
  List.length (links_to tgo (attach cn k gs))
  = List.length (links_to tgo cn) + List.length gs.
Proof.
  intros Hgs. unfold links_to, attach. simpl.
  rewrite filter_app, length_app. f_equal.
  rewrite filter_all.
  - rewrite length_combine, length_seq. lia.
  - intros [cID g] Hin. apply in_combine_r in Hin.
    unfold to_tgo. simpl. apply Nat.eqb_eq. now apply Hgs.
Qed.

(** X16: without configuration, [update_tgo] on a living infrastructure
    object first scans every node as above, then connects every node on
    the side of the object, and at a distance less than the range of the
    object, to every participating group of the object, whether or not the
    node is connected to that group already: such a node has as many more
    connections to the object as the object has participating groups. *)
Theorem infrastructure_update_by_range (self : IadsNetwork) (tgo : TgoRef)
  (n : nat) :
  advanced_iads self = true ->
  is_comms_or_power (for_category (category (tgo_at w tgo))) = true ->
  Dict.truthy (iads_config self) = false ->
  is_dead (tgo_at w tgo) = false ->
  Forall (node_fresh n) (nodes self) ->
  NoDup (all_ids (nodes self)) ->
  exists self',
    result (update_tgo w self tgo n) = Ok self'
    /\ Forall2
         (fun cn cn' =>
            group cn' = group cn
            /\ connected_groups cn'
               = connected_groups (scanned w tgo cn)
                 ++ reactive_links w tgo (group cn)
            /\ (same_side w (group cn) tgo = true ->
                List.length (links_to tgo cn')
                = List.length (links_to tgo cn)
                  + List.length (reactive_links w tgo (group cn))))
         (nodes self) (nodes self').
Proof.
  intros Hadv Hrole Hcfg Hdead Hfresh Hnd.
  unfold update_tgo. rewrite Hadv, Hrole. cbn [andb].
  unfold _update_iads_comms_and_power. rewrite Hadv, Hrole. cbn [negb].
  cbv zeta.
  erewrite bind_run_eq
    by (apply scan_pass; now apply all_ids_keys_NoDup).
  rewrite iads_config_set_nodes, Hcfg. cbn [negb].
  rewrite result_bind_ret.
  assert (Hfresh' : Forall (node_fresh n) (map (scanned w tgo) (nodes self))).
  { apply Forall_map. eapply Forall_impl; [|exact Hfresh].
    intros a. apply node_fresh_scanned. }
  destruct (@_update_network_alive _ _ w
              (set_nodes self (map (scanned w tgo) (nodes self)))
              tgo n Hdead Hrole) as [H1 _];
    [rewrite nodes_set_nodes; exact Hfresh'|].
  rewrite nodes_set_nodes in H1.
  eexists. split; [reflexivity|].
  apply Forall2_map_left in H1.
  eapply Forall2_impl; [|exact H1].
  intros cn cn' [k ->]. rewrite group_scanned. repeat split.
  - simpl. apply group_scanned.
  - unfold connected_groups. apply values_attach.
  - intros Hside. unfold scanned. rewrite Hside.
    apply links_to_attach. intros g Hg.
    unfold reactive_links in Hg.
    destruct (_ && _); [|destruct Hg].
    now apply participating_groups_ground_object.
Qed.

(** X17: in advanced mode, [update_tgo] on an infrastructure object
    neither adds nor removes a node, and keeps, under its identifier,
    every connection of every node to a group of another ground object. *)
Theorem infrastructure_update_keeps_other_connections (self : IadsNetwork)
  (tgo : TgoRef) (n : nat) :
  advanced_iads self = true ->
  is_comms_or_power (for_category (category (tgo_at w tgo))) = true ->
  Forall (node_fresh n) (nodes self) ->
  NoDup (all_ids (nodes self)) ->
  exists self',
    result (update_tgo w self tgo n) = Ok self'
    /\ Forall2
         (fun cn cn' =>
            group cn' = group cn
            /\ forall cID g,
                Dict.get Nat.eqb cID (connections cn) = Some g ->
                ground_object g <> tgo ->
                Dict.get Nat.eqb cID (connections cn') = Some g)
         (nodes self) (nodes self').
Proof.
  intros Hadv Hrole Hfresh Hnd.
  destruct (update_tgo_infrastructure_closed w self tgo Hadv Hrole Hfresh Hnd)
    as [ns' [ev_new [Hres [_ [_ [Hall _]]]]]].
  exists (set_nodes self ns'). split; [exact Hres|].
  rewrite nodes_set_nodes.
  eapply Forall2_impl; [|exact Hall].
  intros cn cn' [gs [[k ->] _]]. split.
  - simpl. apply group_scanned.
  - intros cID g Hget Hg. simpl. apply get_app_left.
    unfold scanned. destruct (same_side w (group cn) tgo); [exact Hget|].
    simpl. apply get_filter_kept; [exact Hget|].
    unfold not_to_tgo, to_tgo. simpl.
    now rewrite (proj2 (Nat.eqb_neq _ _) Hg).
Qed.

End InfrastructureFrame.

(** ** Notified deletions *)

Lemma NoDup_app_disjoint {A} (l l' : list A) (a : A) :
  NoDup (l ++ l') -> In a l -> In a l' -> False.
Proof.
  induction l as [|b l IH]; simpl; [tauto|].
  intros Hnd [<-|Hin] Hin'; inversion Hnd as [|? ? Hnot Hnd']; subst.
  - apply Hnot. apply in_or_app. now right.
  - now apply IH.
Qed.

Lemma all_ids_filter_In (p : IadsNetworkNode -> bool)
  (ns : list IadsNetworkNode) (k : UUID) :
  In k (all_ids (filter p ns)) -> In k (all_ids ns).
Proof.
  unfold all_ids. rewrite !in_flat_map. intros [cn [Hcn Hk]].
  exists cn. split; [|exact Hk]. apply filter_In in Hcn. tauto.
Qed.

(** The identifiers of the nodes that satisfy [p] are those of the network
    that no other node carries. *)
Lemma all_ids_partition (p : IadsNetworkNode -> bool)
  (ns : list IadsNetworkNode) (k : UUID) :
  NoDup (all_ids ns) ->
  In k (all_ids (filter p ns)) <->
  In k (all_ids ns) /\ ~ In k (all_ids (filter (fun cn => negb (p cn)) ns)).
Proof.
  induction ns as [|cn ns IH]; intros Hnd.
  - simpl. tauto.
  - change (all_ids (cn :: ns))
      with (Dict.keys (connections cn) ++ all_ids ns) in *.
    pose proof (NoDup_app_remove_l _ _ Hnd) as Hnd'.
    specialize (IH Hnd'). simpl filter.
    destruct (p cn); simpl negb; cbv iota;
      change (all_ids (cn :: ?l))
        with (Dict.keys (connections cn) ++ all_ids l);
      rewrite !in_app_iff; split.
    + intros [Hk|Hk].
      * split; [now left|]. intros Hin. apply all_ids_filter_In in Hin.
        eapply NoDup_app_disjoint; eassumption.
      * apply IH in Hk. split; [now right|tauto].
    + intros [[Hk|Hk] Hnot]; [now left|right]. apply IH. now split.
    + intros Hk. apply IH in Hk. destruct Hk as [Hk Hnot].
      split; [now right|]. intros [Hin|Hin]; [|contradiction].
      eapply NoDup_app_disjoint; eassumption.
    + intros [[Hk|Hk] Hnot]; [tauto|]. apply IH. split; [exact Hk|tauto].
Qed.

Lemma net_step_In (n n' : nat) (self self' : IadsNetwork) (k : UUID) :
  net_step n self n' self' ->
  In k (all_ids (nodes self')) -> In k (all_ids (nodes self)) \/ n <= k.
Proof.
  intros [Hle Hcount] Hin.
  apply (count_occ_In Nat.eq_dec) in Hin. specialize (Hcount k).
  destruct (in_dec Nat.eq_dec k (all_ids (nodes self))) as [Hold|Hold];
    [now left|right].
  apply (count_occ_not_In Nat.eq_dec) in Hold.
  assert (Hseq : count_occ Nat.eq_dec (seq n (n' - n)) k > 0) by lia.
  apply count_occ_In in Hseq. apply in_seq in Hseq. lia.
Qed.

Section Deletions.
Context {catalog : RoleCatalog} {theater : Theater}.
Variable w : World.

Lemma keys_scanned_In (tgo : TgoRef) (cn : IadsNetworkNode) (k : UUID) :
  In k (Dict.keys (connections (scanned w tgo cn))) ->
  In k (Dict.keys (connections cn)).
Proof.
  unfold scanned. destruct (same_side w (group cn) tgo); [auto|].
  simpl. apply keys_filter_In.
Qed.

Lemma all_ids_scanned_In (tgo : TgoRef) (ns : list IadsNetworkNode)
  (k : UUID) :
  In k (all_ids (map (scanned w tgo) ns)) -> In k (all_ids ns).
Proof.
  unfold all_ids. rewrite !in_flat_map. intros [cn' [Hcn Hk]].
  apply in_map_iff in Hcn. destruct Hcn as [cn [<- Hcn]].
  exists cn. split; [exact Hcn|]. eapply keys_scanned_In. exact Hk.
Qed.

Lemma keys_filter_partition (p : UUID * GroupRef -> bool)
  (d : Dict.t UUID GroupRef) (k : UUID) :
  NoDup (Dict.keys d) ->
  In k (Dict.keys (filter p d)) <->
  In k (Dict.keys d) /\ ~ In k (Dict.keys (filter (fun e => negb (p e)) d)).
Proof.
  induction d as [|[k0 g0] d IH]; intros Hnd.
  - simpl. tauto.
  - inversion Hnd as [|? ? Hnot Hnd']; subst. specialize (IH Hnd').
    simpl. destruct (p (k0, g0)); simpl; split.
    + intros [<-|Hk].
      * split; [now left|]. intros Hin. apply Hnot.
        eapply keys_filter_In. exact Hin.
      * apply IH in Hk. split; [now right|tauto].
    + intros [[<-|Hk] Hout]; [now left|right]. apply IH. now split.
    + intros Hk. pose proof Hk as Hk'. apply IH in Hk.
      destruct Hk as [Hin Hout]. split; [now right|].
      intros [<-|Hin']; [|contradiction]. apply Hnot. exact Hin.
    + intros [[<-|Hk] Hout]; [tauto|]. apply IH. split; [exact Hk|tauto].
Qed.

(** The deletions notified by the scan of a node are the identifiers the
    node loses. *)
Lemma scan_node_partition (tgo : TgoRef) (cn : IadsNetworkNode) (k : UUID) :
  NoDup (Dict.keys (connections cn)) ->
  In k (deleted_ids (scan_events w tgo cn)) <->
  In k (Dict.keys (connections cn))
  /\ ~ In k (Dict.keys (connections (scanned w tgo cn))).
Proof.
  intros Hnd. rewrite deleted_ids_scan_events. unfold scanned.
  destruct (same_side w (group cn) tgo).
  - simpl. tauto.
  - simpl connections.
    apply (keys_filter_partition (to_tgo tgo) (connections cn) k Hnd).
Qed.

Lemma scan_partition (tgo : TgoRef) (ns : list IadsNetworkNode) (k : UUID) :
  NoDup (all_ids ns) ->
  In k (deleted_ids (flat_map (scan_events w tgo) ns)) <->
  In k (all_ids ns) /\ ~ In k (all_ids (map (scanned w tgo) ns)).
Proof.
  induction ns as [|cn ns IH]; intros Hnd.
  - simpl. tauto.
  - change (all_ids (cn :: ns))
      with (Dict.keys (connections cn) ++ all_ids ns) in *.
    change (all_ids (map (scanned w tgo) (cn :: ns)))
      with (Dict.keys (connections (scanned w tgo cn))
            ++ all_ids (map (scanned w tgo) ns)).
    pose proof (NoDup_app_remove_l _ _ Hnd) as Hnd'.
    pose proof (NoDup_app_remove_r _ _ Hnd) as Hcn.
    specialize (IH Hnd').
    pose proof (@scan_node_partition tgo cn k Hcn) as Hnode.
    simpl flat_map. rewrite deleted_ids_app, !in_app_iff. split.
    + intros [Hk|Hk].
      * apply Hnode in Hk. destruct Hk as [Hin Hout].
        split; [now left|]. intros [H|H]; [contradiction|].
        apply all_ids_scanned_In in H.
        eapply NoDup_app_disjoint; eassumption.
      * apply IH in Hk. destruct Hk as [Hin Hout].
        split; [now right|]. intros [H|H]; [|contradiction].
        apply keys_scanned_In in H.
        eapply NoDup_app_disjoint; eassumption.
    + intros [[Hk|Hk] Hout].
      * left. apply Hnode. split; [exact Hk|tauto].
      * right. apply IH. split; [exact Hk|tauto].
Qed.

Lemma gains_all_ids (links : GroupRef -> list GroupRef)
  (ns ns' : list IadsNetworkNode) (k : UUID) :
  Forall2 (fun cn cn' => gains (links (group cn)) cn cn') ns ns' ->
  In k (all_ids ns) -> In k (all_ids ns').
Proof.
  induction 1 as [|cn cn' ns ns' [k0 ->] _ IH]; [auto|].
  change (all_ids (cn :: ns))
    with (Dict.keys (connections cn) ++ all_ids ns).
  change (all_ids (attach cn k0 (links (group cn)) :: ns'))
    with (Dict.keys (connections (attach cn k0 (links (group cn))))
          ++ all_ids ns').
  rewrite keys_attach, !in_app_iff. tauto.
Qed.

Lemma _update_network_ids (self : IadsNetwork) (tgo : TgoRef) (n : nat) :
  is_comms_or_power (for_category (category (tgo_at w tgo))) = true ->
  Forall (node_fresh n) (nodes self) ->
  let r := _update_network w self tgo n in
  deleted_ids (emitted r) = []
  /\ forall k,
      In k (all_ids (nodes self)) -> In k (all_ids (nodes (result r))).
Proof.
  intros Hrole Hfresh. cbv zeta.
  destruct (is_dead (tgo_at w tgo)) eqn:Hdead.
  - rewrite (_update_network_dead w self tgo n Hdead). now split.
  - destruct (@_update_network_alive _ _ w self tgo n Hdead Hrole Hfresh)
      as [H1 [_ [_ [H4 _]]]].
    split; [now apply deleted_ids_updates|].
    intros k. now apply gains_all_ids with (links := reactive_links w tgo).
Qed.

Lemma NoDup_all_ids_filter (p : IadsNetworkNode -> bool)
  (ns : list IadsNetworkNode) :
  NoDup (all_ids ns) -> NoDup (all_ids (filter p ns)).
Proof.
  induction ns as [|cn ns IH]; intros Hnd; [constructor|].
  change (all_ids (cn :: ns))
    with (Dict.keys (connections cn) ++ all_ids ns) in Hnd.
  simpl filter. destruct (p cn).
  - change (all_ids (cn :: filter p ns))
      with (Dict.keys (connections cn) ++ all_ids (filter p ns)).
    apply NoDup_app.
    + now apply NoDup_app_remove_r in Hnd.
    + apply IH. now apply NoDup_app_remove_l in Hnd.
    + intros k Hk Hk'. apply all_ids_filter_In in Hk'.
      eapply NoDup_app_disjoint; eassumption.
  - apply IH. now apply NoDup_app_remove_l in Hnd.
Qed.

(** X18: in a network with at most one node per ground object and with
    connection identifiers that are distinct and older than the next draw,
    the deletions [update_tgo] notifies are, each once, the identifiers of
    the connections that the network had before the update and does not
    have after it. *)
Theorem update_tgo_notifies_deletions (self self' : IadsNetwork)
  (tgo : TgoRef) (n : nat) :
  ids_wf n (nodes self) ->
  NoDup (anchors (nodes self)) ->
  let r := update_tgo w self tgo n in
  result r = Ok self' ->
  NoDup (deleted_ids (emitted r))
  /\ forall cID,
      In cID (deleted_ids (emitted r)) <->
      In cID (all_ids (nodes self)) /\ ~ In cID (all_ids (nodes self')).
Proof.
  intros [Hfresh Hids] Hnd r Hres. subst r.
  pose proof (proj1 (all_ids_fresh n (nodes self)) Hfresh) as Hold.
  rewrite Forall_forall in Hold.
  destruct (advanced_iads self
            && is_comms_or_power (for_category (category (tgo_at w tgo))))
    eqn:Hpath.
  - apply andb_true_iff in Hpath. destruct Hpath as [Hadv Hrole].
    revert Hres. unfold update_tgo. rewrite Hadv, Hrole. cbn [andb].
    unfold _update_iads_comms_and_power. rewrite Hadv, Hrole. cbn [negb].
    cbv zeta.
    erewrite bind_run_eq
      by (apply scan_pass; now apply all_ids_keys_NoDup).
    rewrite iads_config_set_nodes.
    set (ns1 := map (scanned w tgo) (nodes self)).
    assert (Hfresh1 : Forall (node_fresh n) (nodes (set_nodes self ns1))).
    { rewrite nodes_set_nodes. apply Forall_map.
      eapply Forall_impl; [|exact Hfresh].
      intros a. apply node_fresh_scanned. }
    assert (Hscan_nd :
      NoDup (deleted_ids (flat_map (scan_events w tgo) (nodes self)))).
    { apply (NoDup_count_occ Nat.eq_dec). intros k.
      etransitivity; [apply count_occ_deleted_scan|].
      now apply NoDup_count_occ. }
    destruct (negb (Dict.truthy (iads_config self))).
    + rewrite result_bind_ret, emitted_bind_M.
      destruct (_update_network_ids (set_nodes self ns1) tgo Hrole Hfresh1)
        as [Hev Hgrow].
      pose proof (_update_network_net_step w (set_nodes self ns1) tgo n)
        as Hstep.
      intros [= <-]. unfold ret at 1. run.
      rewrite app_nil_r, deleted_ids_app, Hev, app_nil_r.
      split; [exact Hscan_nd|]. intros cID.
      rewrite (scan_partition tgo (nodes self) cID Hids). fold ns1.
      split; intros [Hin Hout]; (split; [exact Hin|]); intros Hin'.
      * destruct (net_step_In cID Hstep Hin') as [H|H].
        -- rewrite nodes_set_nodes in H. contradiction.
        -- apply Hold in Hin. lia.
      * apply Hout. apply Hgrow. now rewrite nodes_set_nodes.
    + intros [= <-]. unfold ret. run. rewrite app_nil_r, nodes_set_nodes.
      split; [exact Hscan_nd|]. intros cID.
      apply (scan_partition tgo (nodes self) cID Hids).
  - pose proof (update_tgo_primary_closed w self tgo n Hpath Hnd) as Hup.
    cbv zeta in Hup.
    destruct (scan_primary w (groups_of w tgo)) as [[g later]|];
      rewrite Hup in Hres |- *; unfold result in Hres; simpl fst in Hres;
      injection Hres as <-; run.
    + rewrite deleted_ids_app, deleted_ids_deletions_for. simpl.
      rewrite app_nil_r. split; [now apply NoDup_all_ids_filter|].
      intros cID.
      rewrite (all_ids_partition (anchored_on tgo) (nodes self) cID Hids).
      change (fun cn => negb (anchored_on tgo cn))
        with (not_anchored_on tgo).
      rewrite ?nodes_set_iads_config, ?nodes_set_nodes, all_ids_app.
      rewrite in_app_iff.
      split; intros [Hin Hout]; (split; [exact Hin|]).
      * intros [H|H]; [contradiction|].
        unfold all_ids in H. simpl in H. rewrite app_nil_r in H.
        rewrite keys_combine_seq in H. apply in_seq in H.
        apply Hold in Hin. lia.
      * intros H. apply Hout. now left.
    + rewrite deleted_ids_deletions_for, ?nodes_set_nodes.
      split; [now apply NoDup_all_ids_filter|]. intros cID.
      apply (all_ids_partition (anchored_on tgo) (nodes self) cID Hids).
Qed.

End Deletions.

(** ** Histories *)

Section Runs.
Context {catalog : RoleCatalog} {theater : Theater}.

Lemma perform_mode (op : Operation) (st : IadsNetwork * nat) :
  advanced_iads (fst (perform op st)) = advanced_iads (fst st).
Proof.
  destruct op as [w tgos|w tgo]; simpl.
  - destruct (initialize_network_extends w (fst st) tgos (snd st))
      as [Hadv _].
    rewrite Hadv. apply register_ground_objects_nodes.
  - destruct (update_tgo_returns w (fst st) tgo (snd st)) as [self' Hres].
    rewrite Hres. exact (update_tgo_mode w (fst st) tgo (snd st) Hres).
Qed.

Lemma perform_all_mode (ops : list Operation) (st : IadsNetwork * nat) :
  advanced_iads (fst (perform_all ops st)) = advanced_iads (fst st).
Proof.
  unfold perform_all. revert st.
  induction ops as [|op ops IH]; intros st; [reflexivity|].
  simpl. rewrite IH. apply perform_mode.
Qed.

(** X19: along every sequence of calls of [initialize_network] and
    [update_tgo] on a network built by [IadsNetwork.__init__], in worlds
    that may differ from call to call, the mode is the one given at
    construction, no two connections of the network share an identifier,
    and the registry holds every ground object under its own name. *)
Theorem identifiers_along_history (advanced : bool)
  (iads_data : list IadsDataElement) (self : IadsNetwork)
  (ops : list Operation) (n : nat) :
  IadsNetwork_init advanced iads_data = Ok self ->
  let st := perform_all ops (self, n) in
  advanced_iads (fst st) = advanced
  /\ NoDup (all_ids (nodes (fst st)))
  /\ Forall (fun cID => cID < snd st) (all_ids (nodes (fst st)))
  /\ forall k t,
      Dict.get String.eqb k (ground_objects (fst st)) = Some t ->
      original_name t = k.
Proof.
  intros Hinit. cbv zeta.
  pose proof (IadsNetwork_init_fresh _ _ Hinit) as Hfresh.
  destruct (perform_all_invariants ops n Hfresh) as [_ [[Hf Hnd] Hreg]].
  split; [|split; [exact Hnd|split; [now apply all_ids_fresh|exact Hreg]]].
  rewrite perform_all_mode. simpl.
  unfold IadsNetwork_init in Hinit.
  destruct (load_iads_config iads_data []); simpl in Hinit; [|discriminate].
  now injection Hinit as <-.
Qed.

End Runs.

(** ** The connections the advanced constructions build *)

Lemma set_nodes_app_nil (self : IadsNetwork) :
  set_nodes self (nodes self ++ []) = self.
Proof. rewrite app_nil_r. apply set_nodes_nodes. Qed.

Lemma anchors_app (ns ns' : list IadsNetworkNode) :
  anchors (ns ++ ns') = anchors ns ++ anchors ns'.
Proof. unfold anchors. apply map_app. Qed.

Section Builds.
Context {catalog : RoleCatalog} {theater : Theater}.
Variable w : World.

Lemma built_with_new (links : GroupRef -> list GroupRef) (tgo : TgoRef)
  (g : GroupRef) (later : list GroupRef) (n : nat) :
  scan_primary w (groups_of w tgo) = Some (g, later) ->
  built_with w links
    (attach (attach (IadsNetworkNode_init g) n
               (filter (living_point_defense w) later))
            (n + List.length (filter (living_point_defense w) later))
            (links g)).
Proof.
  intros Hscan. exists later. simpl group.
  rewrite (scan_primary_ground_object w _ Hscan). split; [exact Hscan|].
  unfold connected_groups. now rewrite !values_attach.
Qed.

(** One step of the loop of [initialize_network_from_range] on a ground
    object without node. *)
Lemma range_pass_step_builds (self : IadsNetwork) (go : TgoRef) (n : nat) :
  ~ In go (anchors (nodes self)) ->
  exists extra,
    result
      ((if selected_by_range w go then
          found <- node_for_tgo w self go ;;
          let '(self, node) := found in
          match node with
          | None => ret self
          | Some node => _make_advanced_connections_by_range w self node
          end
        else ret self) n)
    = set_nodes self (nodes self ++ extra)
    /\ Forall (fun cn =>
                 ground_object (group cn) = go
                 /\ built_with w
                      (fun g => flat_map (range_links w g)
                                  (Dict.values (ground_objects self)))
                      cn)
              extra.
Proof.
  intros Hnot. apply find_index_anchored_None in Hnot.
  destruct (selected_by_range w go);
    [|exists []; split; [now rewrite set_nodes_app_nil|constructor]].
  rewrite result_bind_M, (@node_for_tgo_new _ w self go n Hnot).
  destruct (scan_primary w (groups_of w go)) as [[g later]|] eqn:Hscan;
    [|exists []; split; [now rewrite set_nodes_app_nil|constructor]].
  cbv zeta. run.
  set (pds := filter (living_point_defense w) later).
  set (cn := attach (IadsNetworkNode_init g) n pds).
  assert (Hi : nth_error (nodes (set_nodes self (nodes self ++ [cn])))
                         (List.length (nodes self)) = Some cn)
    by (rewrite nodes_set_nodes, nth_error_app2, Nat.sub_diag by lia;
        reflexivity).
  assert (Hn : node_fresh (n + List.length pds) cn)
    by (apply node_fresh_attach; apply node_fresh_init).
  rewrite (_make_advanced_connections_by_range_attach w _ _ Hi Hn).
  cbv zeta. run. rewrite nodes_set_nodes, ground_objects_set_nodes.
  fold (replace_node (List.length (nodes self))
          (attach cn (n + List.length pds)
             (flat_map (range_links w (group cn))
                (Dict.values (ground_objects self))))
          (nodes self ++ [cn])).
  rewrite replace_node_last, set_nodes_set_nodes.
  eexists. split; [reflexivity|].
  constructor; [|constructor]. split.
  - simpl. exact (scan_primary_ground_object w _ Hscan).
  - apply (built_with_new
             (fun g0 => flat_map (range_links w g0)
                          (Dict.values (ground_objects self)))
             go n Hscan).
Qed.

Lemma range_pass_builds (reg0 : Dict.t string TgoRef) (l : list TgoRef) :
  forall self n,
    NoDup l ->
    (forall go, In go l -> ~ In go (anchors (nodes self))) ->
    ground_objects self = reg0 ->
    Forall (built_with w
              (fun g => flat_map (range_links w g) (Dict.values reg0)))
           (nodes self) ->
    Forall (built_with w
              (fun g => flat_map (range_links w g) (Dict.values reg0)))
           (nodes
              (result
                 (foldM (fun self go =>
                           if selected_by_range w go then
                             found <- node_for_tgo w self go ;;
                             let '(self, node) := found in
                             match node with
                             | None => ret self
                             | Some node =>
                                 _make_advanced_connections_by_range
                                   w self node
                             end
                           else ret self)
                        self l n))).
Proof.
  induction l as [|go l IH]; intros self n Hnd Hnew Hreg Hall;
    [exact Hall|].
  inversion Hnd as [|? ? Hgo Hnd']; subst.
  rewrite result_foldM_cons.
  destruct (@range_pass_step_builds self go n (Hnew go (or_introl eq_refl)))
    as [extra [Hres Hextra]].
  rewrite Hres. apply IH.
  - exact Hnd'.
  - intros go' Hgo'. rewrite nodes_set_nodes, anchors_app.
    intros Hin. apply in_app_or in Hin. destruct Hin as [Hin|Hin].
    + apply (Hnew go' (or_intror Hgo')). exact Hin.
    + unfold anchors in Hin. apply in_map_iff in Hin.
      destruct Hin as [cn [Hcn Hin]].
      rewrite Forall_forall in Hextra.
      destruct (Hextra cn Hin) as [Hanchor _]. congruence.
  - apply ground_objects_set_nodes.
  - rewrite nodes_set_nodes. apply Forall_app. split; [exact Hall|].
    eapply Forall_impl; [|exact Hextra]. intros cn [_ Hb]. exact Hb.
Qed.

(** X20: on a network without nodes whose registry holds no ground object
    twice, every node [initialize_network_from_range] builds has for
    primary group the first IADS group of its ground object with a living
    unit and a participating role, and for connections, in this order, the
    living point defenses that follow this group in the object and, for
    every registered comms or power object of its side, other than its own
    ground object, at a distance of at most the range of that object,
    each participating IADS group of that object. *)
Theorem initialize_network_from_range_builds (self : IadsNetwork)
  (n : nat) :
  nodes self = [] ->
  NoDup (Dict.values (ground_objects self)) ->
  Forall (built_with w
            (fun g => flat_map (range_links w g)
                        (Dict.values (ground_objects self))))
         (nodes (result (initialize_network_from_range w self n))).
Proof.
  intros Hnil Hnd. unfold initialize_network_from_range.
  apply (range_pass_builds (l := Dict.values (ground_objects self))
           self n Hnd).
  - intros go _. now rewrite Hnil.
  - reflexivity.
  - rewrite Hnil. constructor.
Qed.

(** One step of the loop of [initialize_network_from_config] on a key whose
    ground object has no node. *)
Lemma config_pass_step_builds (self : IadsNetwork) (key : string)
  (n : nat) :
  registry_consistent self ->
  In key (Dict.keys (iads_config self)) ->
  (forall t, Dict.get String.eqb key (ground_objects self) = Some t ->
             ~ In t (anchors (nodes self))) ->
  exists extra,
    result
      ((found <-
          match Dict.get String.eqb key (ground_objects self) with
          | Some tgo => node_for_tgo w self tgo
          | None => ret (self, None)
          end ;;
        let '(self, node) := found in
        match node with
        | None => ret self
        | Some node => _add_connections_from_config w self node
        end) n)
    = set_nodes self (nodes self ++ extra)
    /\ Forall (fun cn =>
                 Dict.get String.eqb key (ground_objects self)
                 = Some (ground_object (group cn))
                 /\ built_with w (config_links w self) cn)
              extra.
Proof.
  intros Hcons Hkey Hnot. rewrite result_bind_M.
  destruct (Dict.get String.eqb key (ground_objects self)) as [t|] eqn:Hget;
    [|exists []; split; [now rewrite set_nodes_app_nil|constructor]].
  specialize (Hnot t eq_refl). apply find_index_anchored_None in Hnot.
  rewrite (@node_for_tgo_new _ w self t n Hnot).
  destruct (scan_primary w (groups_of w t)) as [[g later]|] eqn:Hscan;
    [|exists []; split; [now rewrite set_nodes_app_nil|constructor]].
  cbv zeta. run.
  pose proof (scan_primary_ground_object w _ Hscan) as Hg.
  set (pds := filter (living_point_defense w) later).
  set (cn := attach (IadsNetworkNode_init g) n pds).
  assert (Hi : nth_error (nodes (set_nodes self (nodes self ++ [cn])))
                         (List.length (nodes self)) = Some cn)
    by (rewrite nodes_set_nodes, nth_error_app2, Nat.sub_diag by lia;
        reflexivity).
  assert (Hn : node_fresh (n + List.length pds) cn)
    by (apply node_fresh_attach; apply node_fresh_init).
  rewrite (_add_connections_from_config_attach w _ _ Hi Hn).
  cbv zeta. run. rewrite nodes_set_nodes, replace_node_last.
  rewrite set_nodes_set_nodes, iads_config_set_nodes.
  simpl group. rewrite Hg, (Hcons _ _ Hget).
  destruct (Dict.get String.eqb key (iads_config self)) as [l|] eqn:Hcfg.
  - rewrite set_iads_config_same. eexists. split; [reflexivity|].
    constructor; [|constructor]. split.
    + simpl. now rewrite Hg.
    + apply (built_with_new (config_links w self) t n Hscan).
  - apply (DictFacts.get_None String.eqb String.eqb_eq) in Hcfg.
    contradiction.
Qed.

Lemma config_pass_builds (self0 : IadsNetwork) (l : list string) :
  registry_consistent self0 ->
  forall self n,
    NoDup l ->
    (forall key, In key l -> In key (Dict.keys (iads_config self0))) ->
    (forall key t,
        In key l ->
        Dict.get String.eqb key (ground_objects self0) = Some t ->
        ~ In t (anchors (nodes self))) ->
    ground_objects self = ground_objects self0 ->
    iads_config self = iads_config self0 ->
    Forall (built_with w (config_links w self0)) (nodes self) ->
    Forall (built_with w (config_links w self0))
           (nodes
              (result
                 (foldM (fun self primary_node =>
                           found <-
                             match Dict.get String.eqb primary_node
                                            (ground_objects self) with
                             | Some tgo => node_for_tgo w self tgo
                             | None => ret (self, None)
                             end ;;
                           let '(self, node) := found in
                           match node with
                           | None => ret self
                           | Some node =>
                               _add_connections_from_config w self node
                           end)
                        self l n))).
Proof.
  intros Hcons.
  induction l as [|key l IH]; intros self n Hnd Hkeys Hnew Hreg Hcfg Hall;
    [exact Hall|].
  inversion Hnd as [|? ? Hkey Hnd']; subst.
  rewrite result_foldM_cons.
  assert (Hcons' : registry_consistent self)
    by (intros k t; rewrite Hreg; apply Hcons).
  destruct (@config_pass_step_builds self key n Hcons')
    as [extra [Hres Hextra]].
  { rewrite Hcfg. apply Hkeys. now left. }
  { intros t Hget. rewrite Hreg in Hget.
    apply (Hnew key t (or_introl eq_refl) Hget). }
  rewrite Hres. apply IH.
  - exact Hnd'.
  - intros key' Hkey'. apply Hkeys. now right.
  - intros key' t Hkey' Hget. rewrite nodes_set_nodes, anchors_app.
    intros Hin. apply in_app_or in Hin. destruct Hin as [Hin|Hin].
    + apply (Hnew key' t (or_intror Hkey') Hget). exact Hin.
    + unfold anchors in Hin. apply in_map_iff in Hin.
      destruct Hin as [cn [Hcn Hin]].
      rewrite Forall_forall in Hextra.
      destruct (Hextra cn Hin) as [Hanchor _].
      rewrite Hreg, Hcn in Hanchor.
      apply Hkey. rewrite <- (Hcons _ _ Hanchor), (Hcons _ _ Hget).
      exact Hkey'.
  - now rewrite ground_objects_set_nodes.
  - now rewrite iads_config_set_nodes.
  - rewrite nodes_set_nodes. apply Forall_app. split; [exact Hall|].
    eapply Forall_impl; [|exact Hextra]. intros cn [_ Hb].
    destruct Hb as [later [Hscan Hconn]]. exists later.
    split; [exact Hscan|]. rewrite Hconn. f_equal.
    unfold config_links, configured. now rewrite Hreg, Hcfg.
Qed.

(** X21: on a network without nodes, whose configuration names no primary
    twice and whose registry holds its objects under their names, every
    node [initialize_network_from_config] builds has for primary group the
    first IADS group of its ground object with a living unit and a
    participating role, and for connections, in this order, the living
    point defenses that follow this group in the object and, for every
    name the configuration lists for the object, each participating IADS
    group of the ground object registered under that name. *)
Theorem initialize_network_from_config_builds (self : IadsNetwork)
  (n : nat) :
  nodes self = [] ->
  NoDup (Dict.keys (iads_config self)) ->
  registry_consistent self ->
  Forall (built_with w (config_links w self))
         (nodes (result (initialize_network_from_config w self n))).
Proof.
  intros Hnil Hnd Hcons. unfold initialize_network_from_config.
  apply (config_pass_builds (l := Dict.keys (iads_config self)) Hcons);
    auto.
  - intros key t _ _. now rewrite Hnil.
  - rewrite Hnil. constructor.
Qed.

End Builds.

(** ** Rebuilding and construction agree *)

Section Agreement.
Context {catalog : RoleCatalog} {theater : Theater}.
Variable w : World.

(** X22: the node [update_tgo] rebuilds for a ground object is the node a
    construction would build for it: its primary group is the first IADS
    group of the object with a living unit and a participating role, and
    its connections are, in this order, the living point defenses that
    follow this group, then, in advanced mode, the groups the
    configuration gives when there is one and the groups in range
    otherwise. *)
Theorem update_tgo_rebuilds_as_built (self : IadsNetwork) (tgo : TgoRef)
  (n : nat) :
  advanced_iads self
  && is_comms_or_power (for_category (category (tgo_at w tgo))) = false ->
  NoDup (anchors (nodes self)) ->
  exists self',
    result (update_tgo w self tgo n) = Ok self'
    /\ Forall (fun cn =>
                 anchored_on tgo cn = true ->
                 built_with w (resolved_links w self) cn
                 /\ NoDup (Dict.keys (connections cn))
                 /\ Forall (fun cID => n <= cID) (Dict.keys (connections cn)))
              (nodes self').
Proof.
  intros Hpath Hnd.
  pose proof (update_tgo_primary_closed w self tgo n Hpath Hnd) as Hup.
  cbv zeta in Hup.
  destruct (scan_primary w (groups_of w tgo)) as [[g later]|] eqn:Hscan;
    rewrite Hup; eexists; (split; [reflexivity|]);
    rewrite ?nodes_set_iads_config, nodes_set_nodes.
  - apply Forall_app. split.
    + apply Forall_forall. intros cn Hcn Hanch. apply filter_In in Hcn.
      destruct Hcn as [_ Hcn]. unfold not_anchored_on in Hcn.
      rewrite Hanch in Hcn. discriminate.
    + constructor; [|constructor]. intros _.
      pose proof (scan_primary_ground_object w _ Hscan) as Hg.
      split; [|split].
      * exists later. simpl group. rewrite Hg. split; [exact Hscan|].
        unfold connected_groups. now rewrite values_attach.
      * rewrite keys_attach. simpl. apply seq_NoDup.
      * rewrite keys_attach. simpl. apply Forall_forall.
        intros k Hk. apply in_seq in Hk. lia.
  - apply Forall_forall. intros cn Hcn Hanch. apply filter_In in Hcn.
    destruct Hcn as [_ Hcn]. unfold not_anchored_on in Hcn.
    rewrite Hanch in Hcn. discriminate.
Qed.

Lemma basic_pass_idle (l : list TgoRef) :
  forall self n,
    nodes self = [] ->
    (forall go, In go l ->
                is_iads_ground_object (tgo_at w go) = true ->
                scan_primary w (groups_of w go) = None) ->
    foldM (fun self go =>
             if is_iads_ground_object (tgo_at w go) then
               found <- node_for_tgo w self go ;; ret (fst found)
             else ret self)
          self l n
    = (self, n, []).
Proof.
  induction l as [|go l IH]; intros self n Hnil Hnone; [reflexivity|].
  rewrite foldM_cons.
  assert (Hstep :
    (if is_iads_ground_object (tgo_at w go) then
       found <- node_for_tgo w self go ;; ret (fst found)
     else ret self) n = (self, n, [])).
  { destruct (is_iads_ground_object (tgo_at w go)) eqn:Hclass;
      [|reflexivity].
    erewrite bind_run_eq.
    2:{ rewrite (@node_for_tgo_new _ w self go n)
          by (rewrite Hnil; reflexivity).
        rewrite (Hnone go (or_introl eq_refl) Hclass). reflexivity. }
    reflexivity. }
  rewrite Hstep. run.
  rewrite IH; [reflexivity|exact Hnil|].
  intros go' Hgo'. apply Hnone. now right.
Qed.

(** X23: by range, the fallback of [initialize_network] to the basic mode
    is idle: on a network without nodes, in advanced mode and without
    configuration, [initialize_network] does what
    [initialize_network_from_range] does on the registry it has filled,
    since the range pass has already asked for a node for every IADS ground
    object. *)
Theorem basic_fallback_idle_by_range (self : IadsNetwork)
  (tgos : list TgoRef) (n : nat) :
  advanced_iads self = true ->
  Dict.truthy (iads_config self) = false ->
  nodes self = [] ->
  initialize_network w self tgos n
  = initialize_network_from_range w (register_ground_objects self tgos) n.
Proof.
  intros Hadv Hcfg Hnil.
  destruct (register_ground_objects_nodes self tgos) as [Hn [Ha Hc]].
  unfold initialize_network, initialize_advanced.
  set (self0 := register_ground_objects self tgos) in *.
  rewrite Ha, Hadv, Hc, Hcfg.
  remember (initialize_network_from_range w self0 n) as r eqn:Hr.
  assert (Hidle :
    nodes (result r) = [] ->
    initialize_basic_iads w (result r) (supply r)
    = (result r, supply r, [])).
  { intros Hempty. rewrite Hr in Hempty |- *. unfold initialize_basic_iads.
    apply basic_pass_idle; [exact Hempty|].
    intros go Hgo Hclass.
    destruct (scan_primary w (groups_of w go)) as [[g later]|] eqn:Hscan;
      [exfalso|reflexivity].
    assert (Hin : In go (anchors (nodes (result r)))).
    { rewrite Hr. apply initialize_network_from_range_covers.
      - now rewrite <- (extends_registry
                          (initialize_network_from_range_extends w self0 n)).
      - unfold selected_by_range. now rewrite Hclass.
      - rewrite Hscan. discriminate. }
    rewrite Hr, Hempty in Hin. destruct Hin. }
  unfold bind. rewrite <- Hr. clear Hr.
  destruct r as [[self1 n1] ev1].
  unfold result, supply in Hidle. simpl in Hidle.
  destruct (nodes self1) eqn:Hnodes.
  - rewrite (Hidle eq_refl). now rewrite app_nil_r.
  - unfold ret. now rewrite app_nil_r.
Qed.

End Agreement.

(** ** The further properties on the scenario *)

(** The power station [B] is destroyed and its only unit is dead: its
    group is connected all the same. *)
Lemma add_connection_for_tgo_links_witness :
  let w := Scenario.destroyed in
  let cn := {| group := Scenario.ref 0 0; connections := [] |} in
  alive_units (group_at w (Scenario.ref 1 0)) = 0
  /\ connections (result (@add_connection_for_tgo Scenario.catalog w cn 1 0))
     = [(0, Scenario.ref 1 0)].
Proof.
  intros w cn. split; [reflexivity|].
  assert (Hn : node_fresh 0 cn) by constructor.
  destruct (@add_connection_for_tgo_links Scenario.catalog w cn 1 0 Hn)
    as [_ [H _]].
  exact H.
Defined.

(** The configuration lists, for [A], a name the registry does not hold and
    then [B]. *)
Lemma _add_connections_from_config_links_witness :
  let self := set_iads_config Scenario.radar_only
                [("A", ["missing"; "B"])] in
  nodes (result (@_add_connections_from_config Scenario.catalog
                   Scenario.theater Scenario.peace self 0 0))
  = [{| group := Scenario.ref 0 0;
        connections := [(0, Scenario.ref 1 0)] |}].
Proof.
  intros self.
  assert (Hn : node_fresh 0 {| group := Scenario.ref 0 0;
                               connections := [] |}) by constructor.
  destruct (@_add_connections_from_config_links Scenario.catalog
              Scenario.theater Scenario.peace self 0 _ 0 eq_refl Hn)
    as [H _].
  exact H.
Defined.

Lemma _add_connections_from_config_unconfigured_witness :
  @_add_connections_from_config Scenario.catalog Scenario.theater
    Scenario.peace Scenario.radar_only 0 0
  = (set_iads_config Scenario.radar_only [("A", [])], 0, []).
Proof.
  exact (@_add_connections_from_config_unconfigured Scenario.catalog
           Scenario.theater Scenario.peace Scenario.radar_only 0 _ 0
           eq_refl eq_refl).
Defined.

Lemma initialize_network_from_config_reads_only_witness :
  let self := @register_ground_objects Scenario.theater
                (Scenario.network true [("A", ["B"])]) [0; 1; 2] in
  iads_config
    (result (@initialize_network_from_config Scenario.catalog
               Scenario.theater Scenario.peace self 0))
  = [("A", ["B"])].
Proof.
  intros self.
  assert (Hc : @registry_consistent Scenario.theater self).
  { apply register_ground_objects_consistent.
    apply fresh_network_consistent. split; reflexivity. }
  destruct (@initialize_network_from_config_reads_only Scenario.catalog
              Scenario.theater Scenario.peace self 0 Hc) as [H _].
  exact H.
Defined.

Lemma initialize_network_sound_witness :
  let w := Scenario.peace in
  let by_range :=
    result (@initialize_network Scenario.catalog Scenario.theater w
              (Scenario.network true []) [0; 1; 2] 0) in
  let fallback :=
    result (@initialize_network Scenario.catalog Scenario.theater w
              (Scenario.network true [("missing", [])]) [0; 1; 2] 0) in
  (anchors (nodes by_range) = [0; 2]
   /\ Forall (fun cn =>
                let t := ground_object (group cn) in
                In t (Dict.values (ground_objects by_range))
                /\ @first_candidate Scenario.catalog w (group cn)
                /\ advanced_iads (Scenario.network true []) = true
                /\ @selected Scenario.catalog Scenario.theater w
                     (Scenario.network true []) t = true)
             (nodes by_range))
  /\ (anchors (nodes fallback) = [0; 2]
      /\ Forall (fun cn =>
                   let t := ground_object (group cn) in
                   In t (Dict.values (ground_objects fallback))
                   /\ @first_candidate Scenario.catalog w (group cn)
                   /\ is_iads_ground_object (tgo_at w t) = true)
                (nodes fallback)).
Proof.
  intros w by_range fallback. split; (split; [reflexivity|]).
  - exact (@initialize_network_sound Scenario.catalog Scenario.theater w
             (Scenario.network true []) [0; 1; 2] 0
             (conj eq_refl eq_refl)).
  - exact (@initialize_network_sound Scenario.catalog Scenario.theater w
             (Scenario.network true [("missing", [])]) [0; 1; 2] 0
             (conj eq_refl eq_refl)).
Defined.

(** In basic mode the power station [B], which [initialize_network] gave
    no node, gets one when it is updated. *)
Lemma update_tgo_rebuilds_node_witness :
  let w := Scenario.peace in
  let self :=
    result (@initialize_network Scenario.catalog Scenario.theater w
              (Scenario.network false []) [0; 1; 2] 0) in
  nodes_on self 1 = 0
  /\ exists self',
      result (@update_tgo Scenario.catalog Scenario.theater w self 1 1)
      = Ok self'
      /\ nodes_on self' 1 = 1
      /\ filter (not_anchored_on 1) (nodes self') = nodes self.
Proof.
  intros w self. split; [reflexivity|].
  assert (Hnd : NoDup (anchors (nodes self))).
  { repeat constructor; simpl; intuition discriminate. }
  destruct (@update_tgo_rebuilds_node Scenario.catalog Scenario.theater w
              self 1 1 eq_refl Hnd) as [self' [Hres [Hframe Hnode]]].
  exists self'. split; [exact Hres|].
  destruct Hnode as [cn [_ [_ [_ Hon]]]].
  split; [exact Hon|exact Hframe].
Defined.

Lemma update_tgo_twice_witness :
  let w := Scenario.peace in
  let self :=
    result (@initialize_network Scenario.catalog Scenario.theater w
              (Scenario.network true []) [0; 1; 2] 0) in
  exists self1 self2,
    result (@update_tgo Scenario.catalog Scenario.theater w self 2 2)
    = Ok self1
    /\ result (@update_tgo Scenario.catalog Scenario.theater w self1 2 3)
       = Ok self2
    /\ map connected_groups (nodes self2) = map connected_groups (nodes self1)
    /\ deleted_ids
         (emitted (@update_tgo Scenario.catalog Scenario.theater w self1 2 3))
       = [2].
Proof.
  intros w self.
  assert (Hnd : NoDup (anchors (nodes self))).
  { repeat constructor; simpl; intuition discriminate. }
  eexists.
  destruct (@update_tgo_twice Scenario.catalog Scenario.theater w self _ 2 2
              eq_refl Hnd eq_refl)
    as [self2 [Hres [_ [Hconn [_ [_ Hdel]]]]]].
  exists self2. split; [reflexivity|]. split; [exact Hres|].
  split; [exact Hconn|exact Hdel].
Defined.

(** Under a configuration, the capture of [B] deletes the connection of
    [A] to [B], and its recapture does not restore it. *)
Lemma infrastructure_update_under_configuration_witness :
  let self :=
    result (@initialize_network Scenario.catalog Scenario.theater
              Scenario.peace (Scenario.network true [("A", ["B"])])
              [0; 1; 2] 0) in
  exists self',
    @update_tgo Scenario.catalog Scenario.theater Scenario.captured self 1 1
    = (Ok self', 1, [delete_iads_connection 0])
    /\ @update_tgo Scenario.catalog Scenario.theater Scenario.peace self' 1 1
       = (Ok self', 1, [])
    /\ map connected_groups (nodes self') = [[]].
Proof.
  intros self.
  assert (Hnd : NoDup (all_ids (nodes self)))
    by (repeat constructor; simpl; intuition discriminate).
  exists (set_nodes self (map (scanned Scenario.captured 1) (nodes self))).
  split; [|split; [|reflexivity]].
  - exact (@infrastructure_update_under_configuration Scenario.catalog
             Scenario.theater Scenario.captured self 1 1
             eq_refl eq_refl eq_refl Hnd).
  - apply (@infrastructure_update_under_configuration Scenario.catalog
             Scenario.theater Scenario.peace
             (set_nodes self (map (scanned Scenario.captured 1) (nodes self)))
             1 1 eq_refl eq_refl eq_refl).
    constructor.
Defined.

(** By range, the update of the living power station [B] connects [A],
    which is connected to it already, once more. *)
Lemma infrastructure_update_by_range_witness :
  let w := Scenario.peace in
  let self :=
    result (@initialize_network Scenario.catalog Scenario.theater w
              (Scenario.network true []) [0; 1; 2] 0) in
  map connected_groups (nodes self)
  = [[Scenario.ref 1 0]; [Scenario.ref 2 1]]
  /\ exists self',
      result (@update_tgo Scenario.catalog Scenario.theater w self 1 2)
      = Ok self'
      /\ Forall2
           (fun cn cn' =>
              group cn' = group cn
              /\ connected_groups cn'
                 = connected_groups (scanned w 1 cn)
                   ++ @reactive_links Scenario.catalog Scenario.theater w 1
                        (group cn)
              /\ (same_side w (group cn) 1 = true ->
                  List.length (links_to 1 cn')
                  = List.length (links_to 1 cn)
                    + List.length
                        (@reactive_links Scenario.catalog Scenario.theater
                           w 1 (group cn))))
           (nodes self) (nodes self')
      /\ map connected_groups (nodes self')
         = [[Scenario.ref 1 0; Scenario.ref 1 0]; [Scenario.ref 2 1]].
Proof.
  intros w self. split; [reflexivity|].
  assert (Hfresh : Forall (node_fresh 2) (nodes self)).
  { repeat constructor. }
  assert (Hnd : NoDup (all_ids (nodes self)))
    by (repeat constructor; simpl; intuition discriminate).
  destruct (@infrastructure_update_by_range Scenario.catalog
              Scenario.theater w self 1 2 eq_refl eq_refl eq_refl eq_refl
              Hfresh Hnd) as [self' [Hres Hall]].
  exists self'. split; [exact Hres|]. split; [exact Hall|].
  injection Hres as <-. reflexivity.
Defined.

Lemma infrastructure_update_keeps_other_connections_witness :
  let w := Scenario.captured in
  let self :=
    result (@initialize_network Scenario.catalog Scenario.theater
              Scenario.peace (Scenario.network true []) [0; 1; 2] 0) in
  exists self',
    result (@update_tgo Scenario.catalog Scenario.theater w self 1 2)
    = Ok self'
    /\ Forall2
         (fun cn cn' =>
            group cn' = group cn
            /\ forall cID g,
                Dict.get Nat.eqb cID (connections cn) = Some g ->
                ground_object g <> 1 ->
                Dict.get Nat.eqb cID (connections cn') = Some g)
         (nodes self) (nodes self').
Proof.
  intros w self.
  apply (@infrastructure_update_keeps_other_connections Scenario.catalog
           Scenario.theater w self 1 2).
  - reflexivity.
  - reflexivity.
  - repeat constructor.
  - repeat constructor; simpl; intuition discriminate.
Defined.

Lemma update_tgo_notifies_deletions_witness :
  let w := Scenario.captured in
  let self :=
    result (@initialize_network Scenario.catalog Scenario.theater
              Scenario.peace (Scenario.network true []) [0; 1; 2] 0) in
  let r := @update_tgo Scenario.catalog Scenario.theater w self 1 2 in
  exists self',
    result r = Ok self'
    /\ deleted_ids (emitted r) = [0]
    /\ forall cID,
        In cID (deleted_ids (emitted r)) <->
        In cID (all_ids (nodes self)) /\ ~ In cID (all_ids (nodes self')).
Proof.
  intros w self r.
  assert (Hwf : ids_wf 2 (nodes self)).
  { split; repeat constructor; simpl; intuition discriminate. }
  assert (Hnd : NoDup (anchors (nodes self))).
  { repeat constructor; simpl; intuition discriminate. }
  eexists. split; [reflexivity|]. split; [reflexivity|].
  exact (proj2 (@update_tgo_notifies_deletions Scenario.catalog
                  Scenario.theater w self _ 1 2 Hwf Hnd eq_refl)).
Defined.

Lemma identifiers_along_history_witness :
  let st :=
    @perform_all Scenario.catalog Scenario.theater
      [Initialize Scenario.peace [0; 1; 2]; Update Scenario.captured 1;
       Update Scenario.peace 1; Update Scenario.peace 2]
      (Scenario.network true [], 0) in
  advanced_iads (fst st) = true
  /\ NoDup (all_ids (nodes (fst st)))
  /\ Forall (fun cID => cID < snd st) (all_ids (nodes (fst st)))
  /\ forall k t,
      Dict.get String.eqb k (ground_objects (fst st)) = Some t ->
      @original_name Scenario.theater t = k.
Proof.
  exact (@identifiers_along_history Scenario.catalog Scenario.theater
           true [] (Scenario.network true [])
           [Initialize Scenario.peace [0; 1; 2]; Update Scenario.captured 1;
            Update Scenario.peace 1; Update Scenario.peace 2]
           0 eq_refl).
Defined.

Lemma initialize_network_from_range_builds_witness :
  let w := Scenario.peace in
  let self := @register_ground_objects Scenario.theater
                (Scenario.network true []) [0; 1; 2] in
  let self' :=
    result (@initialize_network_from_range Scenario.catalog Scenario.theater
              w self 0) in
  map connected_groups (nodes self')
  = [[Scenario.ref 1 0]; [Scenario.ref 2 1]]
  /\ Forall (@built_with Scenario.catalog w
               (fun g =>
                  flat_map (@range_links Scenario.catalog Scenario.theater
                              w g)
                           (Dict.values (ground_objects self))))
            (nodes self').
Proof.
  intros w self self'. split; [reflexivity|].
  apply (@initialize_network_from_range_builds Scenario.catalog
           Scenario.theater w self 0); [reflexivity|].
  repeat constructor; simpl; intuition discriminate.
Defined.

Lemma initialize_network_from_config_builds_witness :
  let w := Scenario.peace in
  let self := @register_ground_objects Scenario.theater
                (Scenario.network true [("C", ["B"; "missing"])])
                [0; 1; 2] in
  let self' :=
    result (@initialize_network_from_config Scenario.catalog
              Scenario.theater w self 0) in
  map connected_groups (nodes self')
  = [[Scenario.ref 2 1; Scenario.ref 1 0]]
  /\ Forall (@built_with Scenario.catalog w
               (@config_links Scenario.catalog Scenario.theater w self))
            (nodes self').
Proof.
  intros w self self'. split; [reflexivity|].
  apply (@initialize_network_from_config_builds Scenario.catalog
           Scenario.theater w self 0).
  - reflexivity.
  - repeat constructor; simpl; intuition discriminate.
  - apply register_ground_objects_consistent.
    apply fresh_network_consistent. split; reflexivity.
Defined.

Lemma update_tgo_rebuilds_as_built_witness :
  let w := Scenario.peace in
  let self :=
    result (@initialize_network Scenario.catalog Scenario.theater w
              (Scenario.network true []) [0; 1; 2] 0) in
  exists self',
    result (@update_tgo Scenario.catalog Scenario.theater w self 0 2)
    = Ok self'
    /\ map connected_groups (nodes self')
       = [[Scenario.ref 2 1]; [Scenario.ref 1 0]]
    /\ Forall (fun cn =>
                 anchored_on 0 cn = true ->
                 @built_with Scenario.catalog w
                   (@resolved_links Scenario.catalog Scenario.theater w self)
                   cn
                 /\ NoDup (Dict.keys (connections cn))
                 /\ Forall (fun cID => 2 <= cID)
                           (Dict.keys (connections cn)))
              (nodes self').
Proof.
  intros w self.
  assert (Hnd : NoDup (anchors (nodes self))).
  { repeat constructor; simpl; intuition discriminate. }
  destruct (@update_tgo_rebuilds_as_built Scenario.catalog Scenario.theater
              w self 0 2 eq_refl Hnd) as [self' [Hres Hall]].
  exists self'. split; [exact Hres|]. split; [|exact Hall].
  injection Hres as <-. reflexivity.
Defined.

Lemma basic_fallback_idle_by_range_witness :
  let w := Scenario.peace in
  let self := Scenario.network true [] in
  @initialize_network Scenario.catalog Scenario.theater w self [1] 0
  = (@register_ground_objects Scenario.theater self [1], 0, []).
Proof.
  intros w self.
  rewrite (@basic_fallback_idle_by_range Scenario.catalog Scenario.theater
             w self [1] 0 eq_refl eq_refl eq_refl).
  reflexivity.
Defined.

(** The radar site [A] is rebuilt from a configuration that lists for it a
    name the registry does not hold and then [B], and by range; the
    missile site [C], whose units are all dead, is left without node. *)
Lemma update_tgo_primary_path_witness :
  let w := Scenario.peace in
  let by_config :=
    result (@initialize_network Scenario.catalog Scenario.theater w
              (Scenario.network true [("A", ["missing"; "B"])])
              [0; 1; 2] 0) in
  let by_range :=
    result (@initialize_network Scenario.catalog Scenario.theater w
              (Scenario.network true []) [0; 1; 2] 0) in
  let lost :=
    Scenario.world_of
      [Scenario.site_A; Scenario.station_B 10 true false true;
       (Scenario.a_tgo "C" "aa" 50 true true true false 2,
        [Scenario.a_group "C-sam" SAM [Scenario.a_unit "C-sam-0" false];
         Scenario.a_group "C-pd" POINT_DEFENSE
           [Scenario.a_unit "C-pd-0" false]])] in
  nodes by_config
  = [{| group := Scenario.ref 0 0;
        connections := [(0, Scenario.ref 1 0)] |}]
  /\ @update_tgo Scenario.catalog Scenario.theater w by_config 0 1
     = (Ok (set_nodes by_config
              [{| group := Scenario.ref 0 0;
                  connections := [(1, Scenario.ref 1 0)] |}]),
        2,
        [delete_iads_connection 0; update_iads_node (Scenario.ref 0 0)])
  /\ @update_tgo Scenario.catalog Scenario.theater w by_range 0 2
     = (Ok (set_nodes by_range
              [{| group := Scenario.ref 2 0;
                  connections := [(1, Scenario.ref 2 1)] |};
               {| group := Scenario.ref 0 0;
                  connections := [(2, Scenario.ref 1 0)] |}]),
        3,
        [delete_iads_connection 0; update_iads_node (Scenario.ref 0 0)])
  /\ @update_tgo Scenario.catalog Scenario.theater lost by_range 2 2
     = (Ok (set_nodes by_range
              [{| group := Scenario.ref 0 0;
                  connections := [(0, Scenario.ref 1 0)] |}]),
        2, [delete_iads_connection 1]).
Proof.
  intros w by_config by_range lost.
  assert (Hc : NoDup (anchors (nodes by_config))).
  { repeat constructor; simpl; intuition discriminate. }
  assert (Hr : NoDup (anchors (nodes by_range))).
  { repeat constructor; simpl; intuition discriminate. }
  split; [reflexivity|]. split; [|split].
  - exact (@update_tgo_primary_path Scenario.catalog Scenario.theater
             w by_config 0 1 eq_refl Hc).
  - exact (@update_tgo_primary_path Scenario.catalog Scenario.theater
             w by_range 0 2 eq_refl Hr).
  - exact (@update_tgo_primary_path Scenario.catalog Scenario.theater
             lost by_range 2 2 eq_refl Hr).
Defined.
